(** * The Forg code generator and its scoped symbol table

    A shallow embedding of [compiler.py] (class [Compiler]) and
    [Envorment.py] (class [Environment]).  Python objects that the
    generator mutates in place (environments, basic blocks) live in an
    explicit object store and are referred to by index; the generator's
    methods are computations in a state-and-exception monad over the
    [Compiler] object.  The operations of the IR builder library are
    modelled as far as the generator calls them. *)

From Stdlib Require Import Ascii.
From stdpp Require Import gmap strings list numbers pretty.

Open Scope string_scope.

(** ** Python values used as data *)

(** A Python [float], kept as its IEEE-754 binary64 bit pattern.  The
    generator never computes with it; it only embeds it in a constant. *)
Record PyFloat := { float_bits : Z }.

Inductive PyExc :=
| AttributeError
| TypeError
| ValueError
| IndexError
| KeyError
| AssertionError
| DuplicatedNameError
| RecursionError
| InvalidObject. (* a reference outside the object store; not a Python exception *)

(** ** IR types ([llvmlite.ir.types]) *)

#[local] Unset Elimination Schemes.
Inductive IrType :=
| IntType (bits : nat)
| FloatType
| DoubleType
| VoidType
| PointerType (pointee : IrType)
| ArrayType (element : IrType) (count : nat)
| FunctionType (return_type : IrType) (args : list IrType) (var_arg : bool).

#[local] Set Elimination Schemes.

Fixpoint IrType_eqb (a b : IrType) {struct a} : bool :=
  match a, b with
  | IntType n, IntType m => Nat.eqb n m
  | FloatType, FloatType => true
  | DoubleType, DoubleType => true
  | VoidType, VoidType => true
  | PointerType p, PointerType q => IrType_eqb p q
  | ArrayType e n, ArrayType f m => IrType_eqb e f && Nat.eqb n m
  | FunctionType r xs v, FunctionType r' ys v' =>
      IrType_eqb r r' &&
      (fix all2 (xs ys : list IrType) {struct xs} : bool :=
         match xs, ys with
         | [], [] => true
         | x :: xs', y :: ys' => IrType_eqb x y && all2 xs' ys'
         | _, _ => false
         end) xs ys &&
      Bool.eqb v v'
  | _, _ => false
  end.

(** A Python expression of type [ir.Type] that may also be [None]. *)
Definition PyType := option IrType.

Definition PyType_eqb (a b : PyType) : bool :=
  match a, b with
  | Some x, Some y => IrType_eqb x y
  | None, None => true
  | _, _ => false
  end.

(** [isinstance(t, ir.IntType)] and [isinstance(t, ir.FloatType)]. *)
Definition is_IntType (t : PyType) : bool :=
  match t with Some (IntType _) => true | _ => false end.
Definition is_FloatType (t : PyType) : bool :=
  match t with Some FloatType => true | _ => false end.

(** ** IR values ([llvmlite.ir.values], [llvmlite.ir.instructions]) *)

Inductive PyConst :=
| CInt (z : Z)
| CFloat (f : PyFloat)
| CBytes (b : list ascii).

Inductive InstrClass :=
| AllocaInstr
| StoreInstr
| LoadInstr
| BinaryInstr
| ICMPInstr (op : string)
| FCMPInstr (op : string)
| CastInstr
| CallInstr
| Ret
| Branch
| ConditionalBranch.

(** Every instruction object carries [uid], its identity in the object
    store: two [alloca i32] are two different stack slots. *)
#[local] Unset Elimination Schemes.
Inductive Value :=
| PyNone
| Constant (typ : IrType) (constant : PyConst)
| Argument (parent : string) (index : nat) (typ : IrType)
| GlobalVariable (name : string) (typ : IrType)
| Function (name : string) (ftype : IrType)
| Block (ref : nat)
| Instruction (uid : nat) (cls : InstrClass) (typ : IrType)
              (opname : string) (operands : list Value).

#[local] Set Elimination Schemes.

(** [v.type]; [None] stands for the [AttributeError] of [None.type]. *)
Definition type_of (v : Value) : PyType :=
  match v with
  | PyNone => None
  | Constant t _ => Some t
  | Argument _ _ t => Some t
  | GlobalVariable _ t => Some t
  | Function _ ft => Some (PointerType ft)
  | Block _ => Some VoidType
  | Instruction _ _ t _ _ => Some t
  end.

Definition is_terminator_class (c : InstrClass) : bool :=
  match c with
  | Ret | Branch | ConditionalBranch => true
  | _ => false
  end.

Definition is_terminator (v : Value) : bool :=
  match v with
  | Instruction _ c _ _ _ => is_terminator_class c
  | _ => false
  end.

Definition is_LoadInstr (v : Value) : bool :=
  match v with
  | Instruction _ LoadInstr _ _ _ => true
  | _ => false
  end.

(** ** Objects of the store *)

(** [ir.Block]: [parent] is the name of the function it was appended to. *)
Record BlockObj := {
  block_parent : string;
  block_name : string;
  instructions : list Value;
  terminator : option Value
}.

(** [ir.Function]: its basic blocks are references into the block store,
    in the order of [Function.blocks]. *)
Record FunctionObj := {
  function_type : IrType;
  function_args : list Value;
  blocks : list nat
}.

Record GlobalVariableObj := {
  gv_type : IrType; (* the pointer type of the global *)
  initializer : option Value;
  global_constant : bool;
  linkage : string
}.

Inductive GlobalObj :=
| GFunction (f : FunctionObj)
| GVariable (g : GlobalVariableObj).

(** [Environment] of [Envorment.py]: [parent] is a reference. *)
Record Environment := {
  records : gmap string (Value * PyType);
  parent : option nat;
  name : string
}.

(** [ir.IRBuilder]: the insertion cursor.  The generator keeps one
    builder in [self.builder] and, around a function body, saves it and
    works on a new one; the saved builder is not used until it is put
    back, so a builder is kept here as a value. *)
Record IRBuilder := {
  _block : option nat;
  _anchor : nat
}.

(** The [Compiler] object, together with the object store it works on
    and the process's standard output. *)
Record Compiler := {
  module : list (string * GlobalObj); (* Module.globals, an OrderedDict *)
  builder : IRBuilder;
  counter : nat;
  env : nat;
  errors : list string;
  breakpoints : list nat;
  continues : list nat;
  block_store : list BlockObj;
  env_store : list Environment;
  next_uid : nat;
  stdout : list string
}.

(** ** The monad of generator methods *)

Inductive Result (A : Type) :=
| Ok (a : A) (s : Compiler)
| Raise (e : PyExc) (s : Compiler).
Arguments Ok {A} a s.
Arguments Raise {A} e s.

Definition M (A : Type) : Type := Compiler → Result A.

#[global] Instance M_ret : MRet M := λ A a s, Ok a s.
#[global] Instance M_bind : MBind M := λ A B f m s,
  match m s with
  | Ok a s' => f a s'
  | Raise e s' => Raise e s'
  end.

Definition raise {A} (e : PyExc) : M A := λ s, Raise e s.
Definition get {A} (f : Compiler → A) : M A := λ s, Ok (f s) s.
Definition modify (f : Compiler → Compiler) : M unit := λ s, Ok tt (f s).

(** The state a computation ends in, whether it returned or raised. *)
Definition final_state {A} (r : Result A) : Compiler :=
  match r with Ok _ s => s | Raise _ s => s end.

(** [a, b = x] where [x] may be [None]. *)
Definition unpack {A} (x : option A) : M A :=
  match x with
  | Some p => mret p
  | None => raise TypeError
  end.

Definition set_module m (s : Compiler) : Compiler :=
  {| module := m; builder := builder s; counter := counter s; env := env s;
     errors := errors s; breakpoints := breakpoints s; continues := continues s;
     block_store := block_store s; env_store := env_store s;
     next_uid := next_uid s; stdout := stdout s |}.
Definition set_builder b (s : Compiler) : Compiler :=
  {| module := module s; builder := b; counter := counter s; env := env s;
     errors := errors s; breakpoints := breakpoints s; continues := continues s;
     block_store := block_store s; env_store := env_store s;
     next_uid := next_uid s; stdout := stdout s |}.
Definition set_counter c (s : Compiler) : Compiler :=
  {| module := module s; builder := builder s; counter := c; env := env s;
     errors := errors s; breakpoints := breakpoints s; continues := continues s;
     block_store := block_store s; env_store := env_store s;
     next_uid := next_uid s; stdout := stdout s |}.
Definition set_env e (s : Compiler) : Compiler :=
  {| module := module s; builder := builder s; counter := counter s; env := e;
     errors := errors s; breakpoints := breakpoints s; continues := continues s;
     block_store := block_store s; env_store := env_store s;
     next_uid := next_uid s; stdout := stdout s |}.
Definition set_errors e (s : Compiler) : Compiler :=
  {| module := module s; builder := builder s; counter := counter s; env := env s;
     errors := e; breakpoints := breakpoints s; continues := continues s;
     block_store := block_store s; env_store := env_store s;
     next_uid := next_uid s; stdout := stdout s |}.
Definition set_breakpoints b (s : Compiler) : Compiler :=
  {| module := module s; builder := builder s; counter := counter s; env := env s;
     errors := errors s; breakpoints := b; continues := continues s;
     block_store := block_store s; env_store := env_store s;
     next_uid := next_uid s; stdout := stdout s |}.
Definition set_continues c (s : Compiler) : Compiler :=
  {| module := module s; builder := builder s; counter := counter s; env := env s;
     errors := errors s; breakpoints := breakpoints s; continues := c;
     block_store := block_store s; env_store := env_store s;
     next_uid := next_uid s; stdout := stdout s |}.
Definition set_block_store b (s : Compiler) : Compiler :=
  {| module := module s; builder := builder s; counter := counter s; env := env s;
     errors := errors s; breakpoints := breakpoints s; continues := continues s;
     block_store := b; env_store := env_store s;
     next_uid := next_uid s; stdout := stdout s |}.
Definition set_env_store e (s : Compiler) : Compiler :=
  {| module := module s; builder := builder s; counter := counter s; env := env s;
     errors := errors s; breakpoints := breakpoints s; continues := continues s;
     block_store := block_store s; env_store := e;
     next_uid := next_uid s; stdout := stdout s |}.
Definition set_next_uid n (s : Compiler) : Compiler :=
  {| module := module s; builder := builder s; counter := counter s; env := env s;
     errors := errors s; breakpoints := breakpoints s; continues := continues s;
     block_store := block_store s; env_store := env_store s;
     next_uid := n; stdout := stdout s |}.
Definition set_stdout o (s : Compiler) : Compiler :=
  {| module := module s; builder := builder s; counter := counter s; env := env s;
     errors := errors s; breakpoints := breakpoints s; continues := continues s;
     block_store := block_store s; env_store := env_store s;
     next_uid := next_uid s; stdout := o |}.

(** ** [Envorment.py] *)

Module Env.

(** [Environment(records, parent, name)]: a new object in the store.
    [records if records else {}] gives a fresh empty dict for [None]. *)
Definition new (records0 : option (gmap string (Value * PyType)))
    (parent0 : option nat) (name0 : string) : M nat := λ s,
  let e := {| records := default ∅ records0; parent := parent0; name := name0 |} in
  Ok (length (env_store s)) (set_env_store (env_store s ++ [e]) s).

(** [self.records[name] = (value, _type); return value] *)
Definition define (self : nat) (name0 : string) (value : Value) (_type : PyType)
    : M Value := λ s,
  match env_store s !! self with
  | None => Raise InvalidObject s
  | Some e =>
      let e' := {| records := <[name0 := (value, _type)]> (records e);
                   parent := parent e; name := name e |} in
      Ok value (set_env_store (<[self := e']> (env_store s)) s)
  end.

(** [__resolve]: the recursion of the source follows [parent]
    references.  [fuel] bounds its depth; running out of it is Python's
    [RecursionError]. *)
Fixpoint resolve (fuel : nat) (self : nat) (name0 : string)
    : M (option (Value * PyType)) := λ s,
  match fuel with
  | O => Raise RecursionError s
  | S fuel' =>
      match env_store s !! self with
      | None => Raise InvalidObject s
      | Some e =>
          match records e !! name0 with
          | Some r => Ok (Some r) s
          | None =>
              match parent e with
              | Some p => resolve fuel' p name0 s
              | None => Ok None s
              end
          end
      end
  end.

(** [lookup]: a parent chain that does not end within as many steps as
    there are environments has come back to one of them, and the source
    recurses for ever on it. *)
Definition lookup (self : nat) (name0 : string) : M (option (Value * PyType)) :=
  λ s, resolve (length (env_store s)) self name0 s.

End Env.

(** ** The IR library as the generator uses it *)

Definition fresh_uid : M nat := λ s, Ok (next_uid s) (set_next_uid (S (next_uid s)) s).

Definition get_block (b : nat) : M BlockObj := λ s,
  match block_store s !! b with
  | Some o => Ok o s
  | None => Raise InvalidObject s
  end.

Definition put_block (b : nat) (o : BlockObj) : M unit :=
  modify (λ s, set_block_store (<[b := o]> (block_store s)) s).

Module Globals.

(** [Module.globals[name]] *)
Fixpoint find (m : list (string * GlobalObj)) (n : string) : option GlobalObj :=
  match m with
  | [] => None
  | (k, g) :: m' => if String.eqb k n then Some g else find m' n
  end.

(** [Module.globals[name] = g] for a name already present. *)
Fixpoint replace (m : list (string * GlobalObj)) (n : string) (g : GlobalObj)
    : list (string * GlobalObj) :=
  match m with
  | [] => []
  | (k, g0) :: m' =>
      if String.eqb k n then (k, g) :: m' else (k, g0) :: replace m' n g
  end.

(** [NameScope.is_used]: the empty name counts as used. *)
Definition is_used (m : list (string * GlobalObj)) (n : string) : bool :=
  String.eqb n "" || bool_decide (is_Some (find m n)).

(** [NamedValue._set_name] with [deduplicate=False], then
    [Module.add_global]. *)
Definition add_global (n : string) (g : GlobalObj) : M unit := λ s,
  if is_used (module s) n then Raise DuplicatedNameError s
  else Ok tt (set_module (module s ++ [(n, g)]) s).

(** [Module.get_global(name)] as a value. *)
Definition get_global (n : string) : M Value := λ s,
  match find (module s) n with
  | Some (GFunction f) => Ok (Function n (function_type f)) s
  | Some (GVariable g) => Ok (GlobalVariable n (gv_type g)) s
  | None => Raise KeyError s
  end.

End Globals.

(** ** Names within a function ([NameScope]) *)

Module Scope.

(** [NameScope.deduplicate]: a name not in use is kept; a name in use
    gets the suffix [.1], [.2], ... with the first number that gives a
    name not in use.  The source keeps, for every base name, the last
    number it tried and goes on from the next; since a name never leaves
    a scope, every number up to that one gives a name in use, and the
    search from 1 ends at the same name.  Of [length used + 1]
    candidates one is not in use. *)
Definition deduplicate (used : list string) (name : string) : string :=
  if bool_decide (name ∈ used) then
    match List.find (λ j, negb (bool_decide (name ++ "." ++ pretty j ∈ used)))
            (seq 1 (S (length used))) with
    | Some j => name ++ "." ++ pretty j
    | None => name
    end
  else name.

End Scope.

Module Ir.

(** [ir.Function(module, fnty, name)] *)
Definition new_Function (fnty : IrType) (n : string) : M Value :=
  let args0 := match fnty with
               | FunctionType _ ts _ => imap (λ i t, Argument n i t) ts
               | _ => []
               end in
  Globals.add_global n
    (GFunction {| function_type := fnty; function_args := args0; blocks := [] |});;
  mret (Function n fnty).

(** [ir.GlobalVariable(module, typ, name)] followed by the assignments
    to [initializer], [global_constant] and [linkage]. *)
Definition new_GlobalVariable (typ : IrType) (n : string)
    (init : Value) (is_constant : bool) (linkage0 : string) : M Value :=
  Globals.add_global n
    (GVariable {| gv_type := PointerType typ; initializer := Some init;
                  global_constant := is_constant; linkage := linkage0 |});;
  mret (GlobalVariable n (PointerType typ)).

(** The names in use in the scope of the function [fn], as far as the
    labels of its blocks go: the empty name, which a [NameScope] holds
    from the start, and the labels of the blocks created in the
    function.  The scope also holds the names of the function's values,
    which the generator never chooses: they are [.1], [.2], ..., a dot
    and a number, and no label the generator asks for, nor such a label
    with a suffix, has that form. *)
Definition labels_in_use (fn : string) (store : list BlockObj) : list string :=
  "" :: map block_name (List.filter (λ o, String.eqb (block_parent o) fn) store).

(** [Function.append_basic_block(name)]: a new [Block] object, appended
    to the function's block list.  [Block.__init__] registers the label
    in the scope of the function with [deduplicate=True]: a label in use
    gets a numbered suffix. *)
Definition Function_append_basic_block (fn : string) (label : string) : M nat := λ s,
  match Globals.find (module s) fn with
  | Some (GFunction f) =>
      let b := length (block_store s) in
      let o := {| block_parent := fn;
                  block_name := Scope.deduplicate (labels_in_use fn (block_store s)) label;
                  instructions := []; terminator := None |} in
      let f' := {| function_type := function_type f;
                   function_args := function_args f;
                   blocks := blocks f ++ [b] |} in
      Ok b (set_module (Globals.replace (module s) fn (GFunction f'))
              (set_block_store (block_store s ++ [o]) s))
  | _ => Raise InvalidObject s
  end.

(** [endif_block.delete()]: [ir.Block] has no attribute [delete], so the
    attribute lookup raises [AttributeError] and nothing is changed. *)
Definition Block_delete (b : nat) : M unit := raise AttributeError.

(** [ir.IRBuilder(block)] *)
Definition new_IRBuilder (b : nat) : M IRBuilder :=
  o ← get_block b;
  mret {| _block := Some b; _anchor := length (instructions o) |}.

(** [builder.block], raising where the source would dereference [None]. *)
Definition block : M nat :=
  b ← get (λ s, _block (builder s));
  match b with
  | Some r => mret r
  | None => raise AttributeError
  end.

Definition position_at_start (b : nat) : M unit :=
  modify (set_builder {| _block := Some b; _anchor := 0 |}).

Definition position_at_end (b : nat) : M unit :=
  o ← get_block b;
  modify (set_builder {| _block := Some b; _anchor := length (instructions o) |}).

(** [block.is_terminated] of the builder's block. *)
Definition is_terminated : M bool :=
  b ← block;
  o ← get_block b;
  mret (bool_decide (is_Some (terminator o))).

(** [self._block.instructions.insert(self._anchor, instr); self._anchor += 1] *)
Definition _insert (instr : Value) : M unit :=
  b ← block;
  o ← get_block b;
  a ← get (λ s, _anchor (builder s));
  put_block b {| block_parent := block_parent o; block_name := block_name o;
                 instructions := take a (instructions o) ++ instr :: drop a (instructions o);
                 terminator := terminator o |};;
  modify (set_builder {| _block := Some b; _anchor := S a |}).

(** An instruction object with [self.block] as parent:
    [NamedValue.__init__] asserts that the parent is not [None]. *)
Definition new_instruction (cls : InstrClass) (typ : IrType) (opname : string)
    (operands : list Value) : M Value :=
  b ← get (λ s, _block (builder s));
  match b with
  | None => raise AssertionError
  | Some _ =>
      uid ← fresh_uid;
      mret (Instruction uid cls typ opname operands)
  end.

(** [assert not self.block.is_terminated; self._insert(term);
     self.block.terminator = term] *)
Definition _set_terminator (term : Value) : M Value :=
  t ← is_terminated;
  if t : bool then raise AssertionError
  else
    _insert term;;
    b ← block;
    o ← get_block b;
    put_block b {| block_parent := block_parent o; block_name := block_name o;
                   instructions := instructions o; terminator := Some term |};;
    mret term.

(** [AllocaInstr(self.block, typ, size, name)] takes [typ.as_pointer()]
    as its type, and [PointerType.__init__] asserts that the pointee is
    not [void]. *)
Definition alloca (typ : PyType) : M Value :=
  match typ with
  | None => raise AttributeError
  | Some VoidType => raise AssertionError
  | Some t =>
      al ← new_instruction AllocaInstr (PointerType t) "alloca" [];
      _insert al;;
      mret al
  end.

Definition store (value ptr : Value) : M Value :=
  match type_of ptr with
  | None => raise AttributeError
  | Some (PointerType pointee) =>
      match type_of value with
      | None => raise AttributeError
      | Some vt =>
          if IrType_eqb pointee vt then
            st ← new_instruction StoreInstr VoidType "store" [value; ptr];
            _insert st;;
            mret st
          else raise TypeError
      end
  | Some _ => raise TypeError
  end.

Definition load (ptr : Value) : M Value :=
  match type_of ptr with
  | None => raise AttributeError
  | Some (PointerType pointee) =>
      ld ← new_instruction LoadInstr pointee "load" [ptr];
      _insert ld;;
      mret ld
  | Some _ => raise TypeError
  end.

(** [add], [sub], [mul], [sdiv], [srem], [fadd], ... *)
Definition _binop (opname : string) (lhs rhs : Value) : M Value :=
  match type_of lhs, type_of rhs with
  | Some lt, Some rt =>
      if IrType_eqb lt rt then
        instr ← new_instruction BinaryInstr lt opname [lhs; rhs];
        _insert instr;;
        mret instr
      else raise ValueError
  | _, _ => raise AttributeError
  end.

Definition _CMP_MAP (cmpop : string) : option string :=
  if String.eqb cmpop ">" then Some "gt"
  else if String.eqb cmpop "<" then Some "lt"
  else if String.eqb cmpop "==" then Some "eq"
  else if String.eqb cmpop "!=" then Some "ne"
  else if String.eqb cmpop ">=" then Some "ge"
  else if String.eqb cmpop "<=" then Some "le"
  else None.

Definition icmp_signed (cmpop : string) (lhs rhs : Value) : M Value :=
  match _CMP_MAP cmpop with
  | None => raise ValueError
  | Some op0 =>
      let op := if String.eqb cmpop "==" || String.eqb cmpop "!="
                then op0 else "s" ++ op0 in
      match type_of lhs with
      | None => raise AttributeError
      | Some _ =>
          instr ← new_instruction (ICMPInstr op) (IntType 1) "icmp" [lhs; rhs];
          _insert instr;;
          mret instr
      end
  end.

Definition fcmp_ordered (cmpop : string) (lhs rhs : Value) : M Value :=
  let op := match _CMP_MAP cmpop with
            | Some op0 => "o" ++ op0
            | None => cmpop
            end in
  match type_of lhs with
  | None => raise AttributeError
  | Some _ =>
      instr ← new_instruction (FCMPInstr op) (IntType 1) "fcmp" [lhs; rhs];
      _insert instr;;
      mret instr
  end.

(** [sitofp], [fptosi], [bitcast]: a cast to the value's own type
    returns the value itself. *)
Definition _castop (opname : string) (val : Value) (typ : IrType) : M Value :=
  match type_of val with
  | None => raise AttributeError
  | Some vt =>
      if IrType_eqb vt typ then mret val
      else
        instr ← new_instruction CastInstr typ opname [val];
        _insert instr;;
        mret instr
  end.

(** [func.function_type] *)
Definition function_type_of (fn : Value) : M IrType :=
  match type_of fn with
  | None => raise AttributeError
  | Some (PointerType (FunctionType r ts v)) => mret (FunctionType r ts v)
  | Some (FunctionType r ts v) => mret (FunctionType r ts v)
  | Some _ => raise TypeError
  end.

(** The argument check of [CallInstr.__init__]: one argument for each
    declared parameter, of the declared type. *)
Fixpoint check_args (expected : list IrType) (args0 : list Value) : M unit :=
  match expected with
  | [] => mret tt
  | t :: expected' =>
      match args0 with
      | [] => raise IndexError
      | a :: args' =>
          match type_of a with
          | None => raise AttributeError
          | Some at_ =>
              if IrType_eqb at_ t then check_args expected' args'
              else raise TypeError
          end
      end
  end.

Definition call (fn : Value) (args0 : list Value) : M Value :=
  ft ← function_type_of fn;
  match ft with
  | FunctionType r ts _ =>
      check_args ts args0;;
      instr ← new_instruction CallInstr r "call" (fn :: args0);
      _insert instr;;
      mret instr
  | _ => raise TypeError
  end.

(** [ret(value)]; [ret(None)] is [ret void]. *)
Definition ret (value : Value) : M Value :=
  term ← new_instruction Ret VoidType "ret"
           (match value with PyNone => [] | _ => [value] end);
  _set_terminator term.

Definition branch (target : nat) : M Value :=
  term ← new_instruction Branch VoidType "br" [Block target];
  _set_terminator term.

Definition cbranch (cond : Value) (truebr falsebr : nat) : M Value :=
  term ← new_instruction ConditionalBranch VoidType "br"
           [cond; Block truebr; Block falsebr];
  _set_terminator term.

(** [builder.append_basic_block(name)]: appended to the function of
    the builder's block. *)
Definition append_basic_block (label : string) : M nat :=
  b ← block;
  o ← get_block b;
  Function_append_basic_block (block_parent o) label.

Definition _label_suffix (label suffix : string) : string :=
  if decide (50 < String.length label)
  then String.substring 0 25 label ++ ".." ++ suffix
  else label ++ suffix.

(** [with builder.if_then(pred): body] *)
Definition if_then (pred : Value) (body : M unit) : M unit :=
  bb ← block;
  o ← get_block bb;
  bbif ← append_basic_block (_label_suffix (block_name o) ".if");
  bbend ← append_basic_block (_label_suffix (block_name o) ".endif");
  cbranch pred bbif bbend;;
  position_at_end bbif;;
  body;;
  t ← is_terminated;
  (if t : bool then mret tt else branch bbend;; mret tt);;
  position_at_end bbend.

End Ir.

(** ** The syntax tree the generator consumes ([AST]) *)

(** [FunctionParameter]: [p.name] and [p.value_type] are strings. *)
Module Param.
Record t := { name : string; value_type : string }.
End Param.

(** One constructor for each [NodeType] the generator imports.  Where the
    source reads [node.name.value], [node.ident.value] or
    [node.function.value], the identifier's text is the field. *)
#[local] Unset Elimination Schemes.
Inductive Node :=
| Program (statements : list Node)
| ExpressionStatement (expr : Node)
| LetStatement (name : string) (value : Node) (value_type : string)
| FunctionStatement (parameters : list Param.t) (body : Node)
                    (name : string) (return_type : string)
| BlockStatement (statements : list Node)
| ReturnStatement (return_value : Node)
| AssignStatement (ident : string) (right_value : Node)
| IfStatement (condition : Node) (consequence : Node) (alternative : option Node)
| WhileStatement (condition : Node) (body : Node)
| BreakStatement
| ContinueStatement
| ForStatement (var_declaration : Node) (condition : Node) (action : Node) (body : Node)
| InfixExpression (left_node : Node) (operator : string) (right_node : Node)
| CallExpression (function : string) (arguments : list Node)
| IntegerLiteral (value : Z)
| FloatLiteral (value : PyFloat)
| IdentifierLiteral (value : string)
| BooleanLiteral (value : bool)
| StringLiteral (value : string)
| FunctionParameter (p : Param.t).
#[local] Set Elimination Schemes.

(** ** [compiler.py] *)

Definition newline : string := String "010"%char "".
Definition NUL : string := String "000"%char "".

(** [string.replace('\\n', '\n\0')] *)
Fixpoint replace_escaped_newline (s : string) : string :=
  match s with
  | String "\"%char (String "n"%char rest) =>
      newline ++ NUL ++ replace_escaped_newline rest
  | String c rest => String c (replace_escaped_newline rest)
  | EmptyString => EmptyString
  end.

(** [fmt.encode("utf8")], for a [str] of code points below 256 (one
    [ascii] each): code points from 128 on take two bytes. *)
Fixpoint utf8_encode (s : string) : list ascii :=
  match s with
  | EmptyString => []
  | String c rest =>
      let n := nat_of_ascii c in
      if decide (n < 128) then c :: utf8_encode rest
      else ascii_of_nat (192 + n / 64) :: ascii_of_nat (128 + n mod 64)
           :: utf8_encode rest
  end.

(** [self.type_map[key]] *)
Definition type_map (key : string) : M IrType :=
  if String.eqb key "int" then mret (IntType 32)
  else if String.eqb key "float" then mret FloatType
  else if String.eqb key "bool" then mret (IntType 1)
  else if String.eqb key "void" then mret VoidType
  else if String.eqb key "str" then mret (PointerType (IntType 8))
  else raise KeyError.

Definition increment_counter : M nat :=
  modify (λ s, set_counter (counter s + 1) s);;
  get counter.

(** [print(x)] *)
Definition print (line : string) : M unit :=
  modify (λ s, set_stdout (stdout s ++ [line ++ newline]) s).

(** [str(b)] for a Python [bool]. *)
Definition str_bool (b : bool) : string := if b then "True" else "False".

Definition initialize_builtins : M unit :=
  (* __init_print *)
  printf ← Ir.new_Function
    (FunctionType (IntType 32) [PointerType (IntType 8)] true) "printf";
  e ← get env;
  Env.define e "printf" printf (Some (IntType 32));;
  (* __init_booleans *)
  let bool_type := IntType 1 in
  true_var ← Ir.new_GlobalVariable bool_type "true"
               (Constant bool_type (CInt 1)) true "";
  false_var ← Ir.new_GlobalVariable bool_type "false"
                (Constant bool_type (CInt 0)) true "";
  Env.define e "true" true_var (type_of true_var);;
  Env.define e "false" false_var (type_of false_var);;
  mret tt.

(** [Compiler.__init__], run on an empty object store. *)
Definition Compiler__init__ : M unit :=
  modify (set_module []);;
  modify (set_builder {| _block := None; _anchor := 0 |});;
  modify (set_counter 0);;
  e ← Env.new None None "global";
  modify (set_env e);;
  modify (set_errors []);;
  initialize_builtins;;
  modify (set_breakpoints []);;
  modify (set_continues []).

Definition empty_store : Compiler :=
  {| module := []; builder := {| _block := None; _anchor := 0 |}; counter := 0;
     env := 0; errors := []; breakpoints := []; continues := [];
     block_store := []; env_store := []; next_uid := 0; stdout := [] |}.

(** [Compiler()] *)
Definition new_Compiler : Compiler := final_state (Compiler__init__ empty_store).

Definition convert_string (string0 : string) : M (Value * PyType) :=
  let string1 := replace_escaped_newline string0 in
  let fmt := string1 ++ NUL in
  let c_fmt := Constant (ArrayType (IntType 8) (String.length fmt))
                        (CBytes (utf8_encode fmt)) in
  n ← increment_counter;
  global_fmt ← Ir.new_GlobalVariable (ArrayType (IntType 8) (String.length fmt))
                 ("__str_" ++ pretty n) c_fmt true "internal";
  mret (global_fmt, type_of global_fmt).

Definition power_operation_float (base exponent : Value) (result_type : IrType)
    : M Value :=
  let pow_func_name :=
    if IrType_eqb result_type DoubleType then "llvm.pow.f64" else "llvm.pow.f32" in
  m ← get module;
  pow_func ← match Globals.find m pow_func_name with
             | Some _ => Globals.get_global pow_func_name
             | None =>
                 Ir.new_Function
                   (FunctionType result_type [result_type; result_type] false)
                   pow_func_name
             end;
  Ir.call pow_func [base; exponent].

Definition power_operation (base exponent : Value) (result_type : IrType)
    : M Value :=
  base_float ← Ir._castop "sitofp" base FloatType;
  exp_float ← Ir._castop "sitofp" exponent FloatType;
  result_float ← power_operation_float base_float exp_float FloatType;
  Ir._castop "fptosi" result_float result_type.

Definition builtin_printf (params : list Value) (return_type : PyType) : M Value :=
  r ← (e ← get env; Env.lookup e "printf");
  '(func, _) ← unpack r;
  c_str ← Ir.alloca return_type;
  match params with
  | [] => raise IndexError
  | p0 :: rest_params =>
      Ir.store p0 c_str;;
      if is_LoadInstr p0 then
        match p0 with
        | Instruction _ _ _ _ (g_var_ptr :: _) =>
            string_val ← Ir.load g_var_ptr;
            fmt_arg ← Ir._castop "bitcast" string_val (PointerType (IntType 8));
            Ir.call func (fmt_arg :: rest_params)
        | _ => raise IndexError
        end
      else
        c ← get counter;
        g ← Globals.get_global ("__str_" ++ pretty c);
        fmt_arg ← Ir._castop "bitcast" g (PointerType (IntType 8));
        Ir.call func (fmt_arg :: rest_params)
  end.

(** The result of [__resolve_value]: a pair, or [None] when no case of
    its [match] applies. *)
Definition Resolved := option (Value * PyType).

Definition visit_program (statements : list (M unit)) : M unit :=
  foldr (λ stmt rest, stmt;; rest) (mret tt) statements.

Definition visit_expression_statement (expr : M unit) : M unit := expr.

Definition visit_let_statement (name : string) (value : M Resolved) : M unit :=
  '(value, Ty) ← (r ← value; unpack r);
  e ← get env;
  found ← Env.lookup e name;
  match found with
  | None =>
      ptr ← Ir.alloca Ty;
      Ir.store value ptr;;
      Env.define e name ptr Ty;;
      mret tt
  | Some _ =>
      '(ptr, _) ← (r ← Env.lookup e name; unpack r);
      Ir.store value ptr;;
      mret tt
  end.

Definition visit_block_statement (statements : list (M unit)) : M unit :=
  foldr (λ stmt rest, stmt;; rest) (mret tt) statements.

Definition visit_return_statement (return_value : M Resolved) : M unit :=
  '(value, Ty) ← (r ← return_value; unpack r);
  Ir.ret value;;
  mret tt.

(** [for i, typ in enumerate(param_types)]: a slot for each parameter. *)
Fixpoint store_params (fn : string) (i : nat) (param_types : list IrType)
    : M (list Value) :=
  match param_types with
  | [] => mret []
  | typ :: rest =>
      ptr ← Ir.alloca (Some typ);
      Ir.store (Argument fn i typ) ptr;;
      ptrs ← store_params fn (S i) rest;
      mret (ptr :: ptrs)
  end.

(** [for i, x in enumerate(zip(param_types, param_names))] *)
Fixpoint define_params (e : nat) (param_types : list IrType)
    (param_names : list string) (params_ptr : list Value) : M unit :=
  match param_types, param_names, params_ptr with
  | typ :: types, x :: names, ptr :: ptrs =>
      Env.define e x ptr (Some typ);;
      define_params e types names ptrs
  | _, _, _ => mret tt
  end.

(** [[self.type_map[p.value_type] for p in params]] *)
Fixpoint param_types_of (params : list Param.t) : M (list IrType) :=
  match params with
  | [] => mret []
  | p :: rest =>
      t ← type_map (Param.value_type p);
      ts ← param_types_of rest;
      mret (t :: ts)
  end.

Definition visit_function_statement (name : string) (params : list Param.t)
    (return_type_name : string) (body : M unit) : M unit :=
  let param_names := map Param.name params in
  param_types ← param_types_of params;
  return_type ← type_map return_type_name;
  let fnty := FunctionType return_type param_types false in
  func ← Ir.new_Function fnty name;
  block ← Ir.Function_append_basic_block name (name ++ "_entry");
  previous_builder ← get builder;
  b ← Ir.new_IRBuilder block;
  modify (set_builder b);;
  params_ptr ← store_params name 0 param_types;
  previous_env ← get env;
  Env.define previous_env name func (Some return_type);;
  e ← Env.new None (Some previous_env) "global";
  modify (set_env e);;
  define_params e param_types param_names params_ptr;;
  Env.define e name func (Some return_type);;
  body;;
  modify (set_env previous_env);;
  modify (set_builder previous_builder).

Definition assign_error (name : string) : string :=
  "COMPILE ERROR: Identifier '" ++ name ++
  "' has not been declared before it was re-assigned.".

Definition visit_assign_statement (name : string) (right_value : M Resolved)
    : M unit :=
  '(value, Ty) ← (r ← right_value; unpack r);
  e ← get env;
  found ← Env.lookup e name;
  match found with
  | None => modify (λ s, set_errors (errors s ++ [assign_error name]) s)
  | Some _ =>
      '(ptr, _) ← (r ← Env.lookup e name; unpack r);
      Ir.store value ptr;;
      mret tt
  end.

Definition visit_if_statement (condition : M Resolved) (consequence : M unit)
    (alternative : option (M unit)) : M unit :=
  '(test, Ty) ← (r ← condition; unpack r);
  match alternative with
  | None => Ir.if_then test consequence
  | Some alternative =>
      n ← increment_counter;
      then_block ← Ir.append_basic_block ("if_then_" ++ pretty n);
      c ← get counter;
      else_block ← Ir.append_basic_block ("if_else_" ++ pretty c);
      c ← get counter;
      endif_block ← Ir.append_basic_block ("if_endif_" ++ pretty c);
      Ir.cbranch test then_block else_block;;
      Ir.position_at_start then_block;;
      consequence;;
      then_terminated ← Ir.is_terminated;
      (if then_terminated : bool then mret tt
       else Ir.branch endif_block;; mret tt);;
      Ir.position_at_start else_block;;
      alternative;;
      else_terminated ← Ir.is_terminated;
      (if else_terminated : bool then mret tt
       else Ir.branch endif_block;; mret tt);;
      if negb then_terminated || negb else_terminated
      then Ir.position_at_start endif_block
      else Ir.Block_delete endif_block
  end.

Definition visit_while_statement (condition : M Resolved) (body : M unit) : M unit :=
  '(test, _) ← (r ← condition; unpack r);
  n ← increment_counter;
  while_loop_entry ← Ir.append_basic_block ("while_loop_entry_" ++ pretty n);
  c ← get counter;
  while_loop_otherwise ← Ir.append_basic_block ("while_loop_otherwise_" ++ pretty c);
  Ir.cbranch test while_loop_entry while_loop_otherwise;;
  Ir.position_at_start while_loop_entry;;
  body;;
  '(test, _) ← (r ← condition; unpack r);
  Ir.cbranch test while_loop_entry while_loop_otherwise;;
  Ir.position_at_start while_loop_otherwise.

(** [self.breakpoints[-1]] and [self.continues[-1]] *)
Definition top (stack : list nat) : M nat :=
  match last stack with
  | Some b => mret b
  | None => raise IndexError
  end.

(** [list.pop()] *)
Definition pop (stack : list nat) : M (list nat) :=
  match stack with
  | [] => raise IndexError
  | _ => mret (removelast stack)
  end.

Definition visit_break_statement : M unit :=
  target ← (bs ← get breakpoints; top bs);
  Ir.branch target;;
  mret tt.

Definition visit_continue_statement : M unit :=
  target ← (cs ← get continues; top cs);
  Ir.branch target;;
  mret tt.

Definition visit_for_statement (var_declaration : M unit) (condition : M Resolved)
    (action : M unit) (body : M unit) : M unit :=
  previous_env ← get env;
  e ← Env.new None (Some previous_env) "global";
  modify (set_env e);;
  var_declaration;;
  n ← increment_counter;
  for_loop_entry ← Ir.append_basic_block ("for_loop_entry_" ++ pretty n);
  c ← get counter;
  for_loop_otherwise ← Ir.append_basic_block ("for_loop_otherwise_" ++ pretty c);
  modify (λ s, set_breakpoints (breakpoints s ++ [for_loop_otherwise]) s);;
  modify (λ s, set_continues (continues s ++ [for_loop_entry]) s);;
  Ir.branch for_loop_entry;;
  Ir.position_at_start for_loop_entry;;
  body;;
  action;;
  '(test, _) ← (r ← condition; unpack r);
  Ir.cbranch test for_loop_entry for_loop_otherwise;;
  Ir.position_at_start for_loop_otherwise;;
  bs ← (bs ← get breakpoints; pop bs);
  modify (set_breakpoints bs);;
  cs ← (cs ← get continues; pop cs);
  modify (set_continues cs).

Definition visit_infix_expression (operator : string)
    (left_node right_node : M Resolved) : M (Value * PyType) :=
  '(left_value, left_type) ← (r ← left_node; unpack r);
  '(right_value, right_type) ← (r ← right_node; unpack r);
  if is_IntType right_type && is_IntType left_type then
    let Ty := IntType 32 in
    if String.eqb operator "+" then
      value ← Ir._binop "add" left_value right_value; mret (value, Some Ty)
    else if String.eqb operator "-" then
      value ← Ir._binop "sub" left_value right_value; mret (value, Some Ty)
    else if String.eqb operator "*" then
      value ← Ir._binop "mul" left_value right_value; mret (value, Some Ty)
    else if String.eqb operator "/" then
      value ← Ir._binop "sdiv" left_value right_value; mret (value, Some Ty)
    else if String.eqb operator "%" then
      value ← Ir._binop "srem" left_value right_value; mret (value, Some Ty)
    else if String.eqb operator "^" then
      value ← power_operation left_value right_value Ty; mret (value, Some Ty)
    else if String.eqb operator "<" then
      value ← Ir.icmp_signed "<" left_value right_value; mret (value, Some (IntType 1))
    else if String.eqb operator "<=" then
      value ← Ir.icmp_signed "<=" left_value right_value; mret (value, Some (IntType 1))
    else if String.eqb operator ">" then
      value ← Ir.icmp_signed ">" left_value right_value; mret (value, Some (IntType 1))
    else if String.eqb operator ">=" then
      value ← Ir.icmp_signed ">=" left_value right_value; mret (value, Some (IntType 1))
    else if String.eqb operator "==" then
      value ← Ir.icmp_signed "==" left_value right_value; mret (value, Some (IntType 1))
    else mret (PyNone, Some Ty)
  else if is_FloatType right_type && is_FloatType left_type then
    let Ty := FloatType in
    if String.eqb operator "+" then
      value ← Ir._binop "fadd" left_value right_value; mret (value, Some Ty)
    else if String.eqb operator "-" then
      value ← Ir._binop "fsub" left_value right_value; mret (value, Some Ty)
    else if String.eqb operator "*" then
      value ← Ir._binop "fmul" left_value right_value; mret (value, Some Ty)
    else if String.eqb operator "/" then
      value ← Ir._binop "fdiv" left_value right_value; mret (value, Some Ty)
    else if String.eqb operator "%" then
      value ← Ir._binop "frem" left_value right_value; mret (value, Some Ty)
    else if String.eqb operator "^" then
      value ← power_operation_float left_value right_value Ty; mret (value, Some Ty)
    else if String.eqb operator "<" then
      value ← Ir.fcmp_ordered "<" left_value right_value; mret (value, Some (IntType 1))
    else if String.eqb operator "<=" then
      value ← Ir.fcmp_ordered "<=" left_value right_value; mret (value, Some (IntType 1))
    else if String.eqb operator ">" then
      value ← Ir.fcmp_ordered ">" left_value right_value; mret (value, Some (IntType 1))
    else if String.eqb operator ">=" then
      value ← Ir.fcmp_ordered ">=" left_value right_value; mret (value, Some (IntType 1))
    else if String.eqb operator "==" then
      value ← Ir.fcmp_ordered "==" left_value right_value; mret (value, Some (IntType 1))
    else mret (PyNone, Some Ty)
  else mret (PyNone, None).

(** [for x in params]: the arguments, left to right. *)
Fixpoint resolve_arguments (params : list (M Resolved))
    : M (list Value * list PyType) :=
  match params with
  | [] => mret ([], [])
  | x :: rest =>
      '(p_val, p_type) ← (r ← x; unpack r);
      '(args0, types) ← resolve_arguments rest;
      mret (p_val :: args0, p_type :: types)
  end.

Definition visit_call_expression (name : string) (params : list (M Resolved))
    : M (Value * PyType) :=
  '(args0, types) ← resolve_arguments params;
  if String.eqb name "printf" then
    match types with
    | [] => raise IndexError
    | t0 :: _ =>
        ret ← builtin_printf args0 t0;
        mret (ret, Some (IntType 32))
    end
  else
    '(func, ret_type) ← (r ← (e ← get env; Env.lookup e name); unpack r);
    ret ← Ir.call func args0;
    mret (ret, ret_type).

(** [compile] and [__resolve_value], by recursion on the tree.  A node
    kind outside the cases of a [match] falls through it: [compile]
    returns and [__resolve_value] yields [None]. *)
Fixpoint resolve_value (node : Node) {struct node} : M Resolved :=
  match node with
  | IntegerLiteral value =>
      mret (Some (Constant (IntType 32) (CInt value), Some (IntType 32)))
  | FloatLiteral value =>
      mret (Some (Constant FloatType (CFloat value), Some FloatType))
  | IdentifierLiteral value =>
      '(ptr, Ty) ← (r ← (e ← get env; Env.lookup e value); unpack r);
      v ← Ir.load ptr;
      mret (Some (v, Ty))
  | BooleanLiteral value =>
      print (str_bool value);;
      mret (Some (Constant (IntType 1) (CInt (if value then 1 else 0)),
                  Some (IntType 1)))
  | StringLiteral value =>
      r ← convert_string value;
      mret (Some r)
  | InfixExpression left_node operator right_node =>
      r ← visit_infix_expression operator (resolve_value left_node)
            (resolve_value right_node);
      mret (Some r)
  | CallExpression function arguments =>
      r ← visit_call_expression function (map resolve_value arguments);
      mret (Some r)
  | _ => mret None
  end.

Fixpoint compile (node : Node) {struct node} : M unit :=
  match node with
  | Program statements => visit_program (map compile statements)
  | ExpressionStatement expr => visit_expression_statement (compile expr)
  | LetStatement name value _ => visit_let_statement name (resolve_value value)
  | FunctionStatement parameters body name return_type =>
      visit_function_statement name parameters return_type (compile body)
  | BlockStatement statements => visit_block_statement (map compile statements)
  | ReturnStatement return_value => visit_return_statement (resolve_value return_value)
  | AssignStatement ident right_value =>
      visit_assign_statement ident (resolve_value right_value)
  | IfStatement condition consequence alternative =>
      visit_if_statement (resolve_value condition) (compile consequence)
        match alternative with
        | Some a => Some (compile a)
        | None => None
        end
  | WhileStatement condition body =>
      visit_while_statement (resolve_value condition) (compile body)
  | BreakStatement => visit_break_statement
  | ContinueStatement => visit_continue_statement
  | ForStatement var_declaration condition action body =>
      visit_for_statement (compile var_declaration) (resolve_value condition)
        (compile action) (compile body)
  | InfixExpression left_node operator right_node =>
      visit_infix_expression operator (resolve_value left_node)
        (resolve_value right_node);;
      mret tt
  | CallExpression function arguments =>
      visit_call_expression function (map resolve_value arguments);;
      mret tt
  | _ => mret tt
  end.

(** ** Notions the statements below are phrased with *)

Open Scope nat_scope.

(** The active scope chain seen from [r]: [r], its parent, and so on up
    to a scope without parent. *)
Inductive chain (h : list Environment) : nat → list nat → Prop :=
| chain_root r e :
    h !! r = Some e → parent e = None → chain h r [r]
| chain_step r e p l :
    h !! r = Some e → parent e = Some p → chain h p l → chain h r (r :: l).

(** The binding of [n] in the scope [r] itself, if it has one. *)
Definition binding (h : list Environment) (r : nat) (n : string)
    : option (Value * PyType) :=
  e ← h !! r; records e !! n.

(** A function scope opened under the global scope of a new compiler. *)
Definition nested_scope : Compiler :=
  final_state (Env.new None (Some 0) "global" new_Compiler).

(** The node kinds [compile] has a case for. *)
Definition has_compile_case (node : Node) : bool :=
  match node with
  | Program _ | ExpressionStatement _ | LetStatement _ _ _
  | FunctionStatement _ _ _ _ | BlockStatement _ | ReturnStatement _
  | AssignStatement _ _ | IfStatement _ _ _ | WhileStatement _ _
  | BreakStatement | ContinueStatement | ForStatement _ _ _ _
  | InfixExpression _ _ _ | CallExpression _ _ => true
  | _ => false
  end.

(** The block [b] of the store, as the final module shows it. *)
Definition block_terminator (s : Compiler) (b : nat) : option Value :=
  o ← block_store s !! b; terminator o.

Definition block_label (s : Compiler) (b : nat) : option string :=
  block_name <$> block_store s !! b.

(** *** Sample programs *)

Definition one_lt_two : Node :=
  InfixExpression (IntegerLiteral 1) "<" (IntegerLiteral 2).

(** [fn main() -> int { while 1 < 2 { if 1 < 2 { break; } } return 0; }] *)
Definition break_in_while : Node :=
  Program [FunctionStatement []
    (BlockStatement
       [WhileStatement one_lt_two
          (BlockStatement
             [IfStatement one_lt_two (BlockStatement [BreakStatement]) None]);
        ReturnStatement (IntegerLiteral 0)])
    "main" "int"].

(** [fn main() -> int { while 1 < 2 { if 1 < 2 { continue; } } return 0; }] *)
Definition continue_in_while : Node :=
  Program [FunctionStatement []
    (BlockStatement
       [WhileStatement one_lt_two
          (BlockStatement
             [IfStatement one_lt_two (BlockStatement [ContinueStatement]) None]);
        ReturnStatement (IntegerLiteral 0)])
    "main" "int"].

(** [fn main() -> int {
       for (let i: int = 0; i < 3; i = i + 1) {
         while i < 2 { if i == 1 { break; } }
       }
       return 0; }] *)
Definition break_in_while_in_for : Node :=
  Program [FunctionStatement []
    (BlockStatement
       [ForStatement
          (LetStatement "i" (IntegerLiteral 0) "int")
          (InfixExpression (IdentifierLiteral "i") "<" (IntegerLiteral 3))
          (AssignStatement "i"
             (InfixExpression (IdentifierLiteral "i") "+" (IntegerLiteral 1)))
          (BlockStatement
             [WhileStatement
                (InfixExpression (IdentifierLiteral "i") "<" (IntegerLiteral 2))
                (BlockStatement
                   [IfStatement
                      (InfixExpression (IdentifierLiteral "i") "==" (IntegerLiteral 1))
                      (BlockStatement [BreakStatement]) None])]);
        ReturnStatement (IntegerLiteral 0)])
    "main" "int"].

(** [foo(); x = 1;] with neither [foo] nor [x] declared. *)
Definition call_then_assign : Node :=
  Program [ExpressionStatement (CallExpression "foo" []);
           AssignStatement "x" (IntegerLiteral 1)].

(** [x = 1; y = 2;] with neither declared. *)
Definition assign_twice : Node :=
  Program [AssignStatement "x" (IntegerLiteral 1);
           AssignStatement "y" (IntegerLiteral 2)].

(** [fn main() -> bool { return true; }] *)
Definition fn_returns_true : Node :=
  Program [FunctionStatement []
             (BlockStatement [ReturnStatement (BooleanLiteral true)])
             "main" "bool"].

(** [fn main() -> int { return y; } x = 1;] *)
Definition return_undefined : Node :=
  Program [FunctionStatement []
             (BlockStatement [ReturnStatement (IdentifierLiteral "y")])
             "main" "int";
           AssignStatement "x" (IntegerLiteral 1)].

(** *** Structure of the emitted blocks *)

(** A block is well terminated when its [terminator] field and its
    instruction list agree: an open block holds no terminator
    instruction, a terminated one holds exactly the recorded one. *)
Definition block_ok (o : BlockObj) : Prop :=
  match terminator o with
  | Some t => is_terminator t = true ∧ List.filter is_terminator (instructions o) = [t]
  | None => List.filter is_terminator (instructions o) = []
  end.

Definition terminators_ok (s : Compiler) : Prop :=
  ∀ b o, block_store s !! b = Some o → block_ok o.

(** What no generator method undoes: a block stays in the store, keeps
    its function and keeps the instructions it holds, and a function
    stays in the module. *)
Definition blocks_kept (s s' : Compiler) : Prop :=
  ∀ b o, block_store s !! b = Some o →
         ∃ o', block_store s' !! b = Some o' ∧
               block_parent o' = block_parent o ∧
               ∀ i, i ∈ instructions o → i ∈ instructions o'.

Definition functions_kept (s s' : Compiler) : Prop :=
  ∀ fn f, Globals.find (module s) fn = Some (GFunction f) →
          ∃ f', Globals.find (module s') fn = Some (GFunction f').

(** Every block in the block list of a function of the module is a
    block of the store. *)
Definition blocks_listed (s : Compiler) : Prop :=
  ∀ fn f b, Globals.find (module s) fn = Some (GFunction f) → b ∈ blocks f →
            b < length (block_store s).

Definition extends (s s' : Compiler) : Prop :=
  (terminators_ok s → terminators_ok s') ∧ blocks_kept s s' ∧
  functions_kept s s' ∧ (blocks_listed s → blocks_listed s').

(** A computation is [sound] when the state it ends in, returning or
    raising, extends the one it started from. *)
Definition sound {A} (m : M A) : Prop := ∀ s, extends s (final_state (m s)).

(** *** The effect of emitting at the cursor *)

Definition with_inserted (a : nat) (i : Value) (o : BlockObj) : BlockObj :=
  {| block_parent := block_parent o; block_name := block_name o;
     instructions := take a (instructions o) ++ i :: drop a (instructions o);
     terminator := terminator o |}.

Definition with_terminator (t : Value) (o : BlockObj) : BlockObj :=
  {| block_parent := block_parent o; block_name := block_name o;
     instructions := instructions o; terminator := Some t |}.

(** The state after the instruction [i] went into block [b] (whose
    object was [o]) at the cursor, and the cursor moved past it. *)
Definition inserted (i : Value) (b : nat) (o : BlockObj) (s : Compiler) : Compiler :=
  set_builder {| _block := Some b; _anchor := S (_anchor (builder s)) |}
    (set_block_store (<[b := with_inserted (_anchor (builder s)) i o]> (block_store s)) s).

(** The state after a fresh instruction of class [cls] was created and
    emitted at the cursor. *)
Definition emitted (cls : InstrClass) (typ : IrType) (opname : string)
    (operands : list Value) (b : nat) (o : BlockObj) (s : Compiler) : Compiler :=
  inserted (Instruction (next_uid s) cls typ opname operands) b o
    (set_next_uid (S (next_uid s)) s).

(** The state after a fresh terminator was created, emitted at the
    cursor and recorded as the terminator of the block. *)
Definition terminated (cls : InstrClass) (opname : string)
    (operands : list Value) (b : nat) (o : BlockObj) (s : Compiler) : Compiler :=
  let t := Instruction (next_uid s) cls VoidType opname operands in
  set_builder {| _block := Some b; _anchor := S (_anchor (builder s)) |}
    (set_block_store
       (<[b := with_terminator t (with_inserted (_anchor (builder s)) t o)]>
          (block_store s))
       (set_next_uid (S (next_uid s)) s)).

(** The state after [define] put the binding of [n] into the scope [r],
    whose object was [e]. *)
Definition defined (r : nat) (e : Environment) (n : string) (v : Value)
    (t : PyType) (s : Compiler) : Compiler :=
  set_env_store
    (<[r := {| records := <[n := (v, t)]> (records e);
               parent := parent e; name := name e |}]> (env_store s)) s.

(** [fn main() -> int { }], compiled by a new compiler, with the cursor
    put back at the start of the entry block of [main]: a state in the
    middle of a function body. *)
Definition inside_main : Compiler :=
  set_builder {| _block := Some 0; _anchor := 0 |}
    (final_state
       (compile (Program [FunctionStatement [] (BlockStatement []) "main" "int"])
          new_Compiler)).

(** [let x: int = 5;] compiled in the middle of [main]. *)
Definition main_with_x : Compiler :=
  final_state (compile (LetStatement "x" (IntegerLiteral 5) "int") inside_main).

(** [fn f() -> void { let x: int = 5; }] *)
Definition fn_without_return : Node :=
  Program [FunctionStatement []
             (BlockStatement [LetStatement "x" (IntegerLiteral 5) "int"])
             "f" "void"].

(** [fn main() -> int { if 1 < 2 { return 1; } else { return 0; } }] *)
Definition fn_if_else_returns : Node :=
  Program [FunctionStatement []
             (BlockStatement
                [IfStatement one_lt_two
                   (BlockStatement [ReturnStatement (IntegerLiteral 1)])
                   (Some (BlockStatement [ReturnStatement (IntegerLiteral 0)]))])
             "main" "int"].

(** *** The lowering of [if]/[else], state by state *)

Definition new_block (fn label : string) : BlockObj :=
  {| block_parent := fn; block_name := label; instructions := []; terminator := None |}.

Definition with_blocks (f : FunctionObj) (bs : list nat) : FunctionObj :=
  {| function_type := function_type f; function_args := function_args f;
     blocks := bs |}.

(** The label a block gets in the function [fn] when [label] is asked
    for: [label] itself, or [label] with a numbered suffix when a block
    of the function has it already. *)
Definition given_label (fn label : string) (s : Compiler) : string :=
  Scope.deduplicate (Ir.labels_in_use fn (block_store s)) label.

(** The state after a block was appended to the function [fn], whose
    object was [f], with [label] asked for. *)
Definition appended (fn label : string) (f : FunctionObj) (s : Compiler) : Compiler :=
  set_module
    (Globals.replace (module s) fn
       (GFunction (with_blocks f (blocks f ++ [length (block_store s)]))))
    (set_block_store (block_store s ++ [new_block fn (given_label fn label s)]) s).

(** The state in which the consequence of an [if]/[else] is compiled,
    when the condition has been evaluated to [test] leaving [s0] with the
    cursor in the open block [b0] (object [o0]) of the function object
    [f]: the counter has advanced, the blocks [if_then_n], [if_else_n]
    and [if_endif_n] have been appended, [b0] ends in the conditional
    branch, and the cursor is at the start of the then block. *)
Definition if_entered (test : Value) (b0 : nat) (o0 : BlockObj) (f : FunctionObj)
    (s0 : Compiler) : Compiler :=
  let fn := block_parent o0 in
  let k := length (block_store s0) in
  let n := pretty (counter s0 + 1) in
  let s1 := set_counter (counter s0 + 1) s0 in
  let s2 := appended fn ("if_then_" ++ n) f s1 in
  let s3 := appended fn ("if_else_" ++ n) (with_blocks f (blocks f ++ [k])) s2 in
  let s4 := appended fn ("if_endif_" ++ n)
              (with_blocks f ((blocks f ++ [k]) ++ [S k])) s3 in
  let s5 := terminated ConditionalBranch "br" [test; Block k; Block (S k)] b0 o0 s4 in
  set_builder {| _block := Some k; _anchor := 0 |} s5.

(** What the source does when an arm has been compiled: it reads
    [builder.block.is_terminated] and, if the block at the cursor is still
    open, closes it with a branch to the merge block.  The result is the
    flag and the state; [None] when there is no block at the cursor. *)
Definition arm_closed (endif_block : nat) (s : Compiler) : option (bool * Compiler) :=
  b ← _block (builder s);
  o ← block_store s !! b;
  match terminator o with
  | Some _ => Some (true, s)
  | None => Some (false, terminated Branch "br" [Block endif_block] b o s)
  end.



(** *** Predecessors and entry blocks *)

(** The instruction [i] is a terminator that names the block [b]. *)
Definition targets (i : Value) (b : nat) : Prop :=
  match i with
  | Instruction _ cls _ _ operands =>
      is_terminator_class cls = true ∧ Block b ∈ operands
  | _ => False
  end.

(** [b] is the first block that was created for its function, that is,
    the function's entry block. *)
Definition is_entry (s : Compiler) (b : nat) : Prop :=
  ∃ o, block_store s !! b = Some o ∧
       ∀ b' o', b' < b → block_store s !! b' = Some o' →
                block_parent o' ≠ block_parent o.

(** [b] can be reached: it is an entry block, or a terminator held by a
    block that can be reached names it. *)
Inductive rooted (s : Compiler) : nat → Prop :=
| rooted_entry b : is_entry s b → rooted s b
| rooted_step b' o' i b :
    rooted s b' → block_store s !! b' = Some o' → i ∈ instructions o' →
    targets i b → rooted s b.

(** The cursor is in a rooted block, every block that holds an
    instruction is rooted, and the function of every block is a global of
    the module. *)
Definition well_rooted (s : Compiler) : Prop :=
  (∀ b, _block (builder s) = Some b → rooted s b) ∧
  (∀ b o, block_store s !! b = Some o → instructions o ≠ [] → rooted s b) ∧
  (∀ b o, block_store s !! b = Some o →
          is_Some (Globals.find (module s) (block_parent o))).

Definition keeps {A} (m : M A) : Prop :=
  ∀ s, well_rooted s → well_rooted (final_state (m s)).
(** *** Relations between the state before and after a method *)

(** A computation [respects] [R] and [Q] when the state it returns in is
    [R]-related to the state it started in, and the state it raises in
    is [Q]-related to it. *)
Definition respects (R Q : Compiler → Compiler → Prop) {A} (m : M A) : Prop :=
  ∀ s, match m s with Ok _ s' => R s s' | Raise _ s' => Q s s' end.

(** The outcome [r] satisfies [G] if it is a return and [H] if it is a
    raise. *)
Definition ends {A} (r : Result A) (G H : Compiler → Prop) : Prop :=
  match r with Ok _ s' => G s' | Raise _ s' => H s' end.

(** The state after [self.env = Environment(parent=self.env)]. *)
Definition entered (s : Compiler) : Compiler :=
  set_env (length (env_store s))
    (set_env_store
       (env_store s ++ [{| records := ∅; parent := Some (env s); name := "global" |}])
       s).

(** *** What a compilation only adds to *)

(** A global of the same kind: a function of the same type with the same
    arguments, or the same variable. *)
Definition same_global (g g' : GlobalObj) : Prop :=
  match g, g' with
  | GFunction f, GFunction f' =>
      function_type f' = function_type f ∧ function_args f' = function_args f
  | GVariable v, GVariable v' => v' = v
  | _, _ => False
  end.

(** Every global of the module is still there, under its name. *)
Definition globals_kept (s s' : Compiler) : Prop :=
  ∀ n g, Globals.find (module s) n = Some g →
         ∃ g', Globals.find (module s') n = Some g' ∧ same_global g g'.

(** Every scope is still there, under the same parent, and binds every
    name it bound. *)
Definition scopes_kept (s s' : Compiler) : Prop :=
  ∀ r e, env_store s !! r = Some e →
         ∃ e', env_store s' !! r = Some e' ∧ parent e' = parent e ∧
               ∀ n, is_Some (records e !! n) → is_Some (records e' !! n).

Definition grows (s s' : Compiler) : Prop :=
  errors s `prefix_of` errors s' ∧ stdout s `prefix_of` stdout s' ∧
  counter s ≤ counter s' ∧ globals_kept s s' ∧ scopes_kept s s'.

(** The loop stacks are as they were. *)
Definition same_stacks (s s' : Compiler) : Prop :=
  breakpoints s' = breakpoints s ∧ continues s' = continues s.

(** The relation that holds of any two states: nothing is said of the
    state a method raises in. *)
Definition any_state (s s' : Compiler) : Prop := True.

(** The active scope is the one it was, or one created since. *)
Definition scope_opened (s s' : Compiler) : Prop :=
  length (env_store s) ≤ length (env_store s') ∧
  (env s' = env s ∨ length (env_store s) ≤ env s').

(** The active scope is the one it was. *)
Definition same_env (s s' : Compiler) : Prop := env s' = env s.

(** The active scope and the cursor are the ones they were. *)
Definition same_env_builder (s s' : Compiler) : Prop :=
  env s' = env s ∧ builder s' = builder s.

(** [for (let i: int = 0; i < 3; i = i + 1) { }] *)
Definition count_to_three : Node :=
  ForStatement (LetStatement "i" (IntegerLiteral 0) "int")
    (InfixExpression (IdentifierLiteral "i") "<" (IntegerLiteral 3))
    (AssignStatement "i"
       (InfixExpression (IdentifierLiteral "i") "+" (IntegerLiteral 1)))
    (BlockStatement []).

(** [fn id(a: int) -> int { return a; }] *)
Definition fn_identity : Node :=
  FunctionStatement [{| Param.name := "a"; Param.value_type := "int" |}]
    (BlockStatement [ReturnStatement (IdentifierLiteral "a")]) "id" "int".

(** *** Code outside a function body *)

(** There is no block at the cursor: the builder is the one that
    [Compiler.__init__] made, [ir.IRBuilder()]. *)
Definition no_block (s : Compiler) : Prop := _block (builder s) = None.

(** Started with no block at the cursor, the method returns with none. *)
Definition stays_detached {A} (m : M A) : Prop :=
  ∀ s, no_block s → ends (m s) no_block (λ _, True).

(** Started with no block at the cursor, the method raises. *)
Definition needs_block {A} (m : M A) : Prop :=
  ∀ s, no_block s → ends (m s) (λ _, False) (λ _, True).

(** The cursor is the one it was. *)
Definition same_builder (s s' : Compiler) : Prop := builder s' = builder s.

(** The statements that emit at the cursor whatever their parts are. *)
Definition emits_at_cursor (node : Node) : bool :=
  match node with
  | LetStatement _ _ _ | ReturnStatement _ | IfStatement _ _ _
  | WhileStatement _ _ | ForStatement _ _ _ _ | BreakStatement
  | ContinueStatement | CallExpression _ _ => true
  | _ => false
  end.

(** *** Function declarations *)

(** The keys of [self.type_map]. *)
Definition type_names : list string := ["int"; "float"; "bool"; "void"; "str"].

(** The function object that [ir.Function(module, fnty, name)] adds to
    the module. *)
Definition declared_function (n : string) (return_type : IrType)
    (param_types : list IrType) : FunctionObj :=
  {| function_type := FunctionType return_type param_types false;
     function_args := imap (λ i t, Argument n i t) param_types;
     blocks := [] |}.

(** [fn add(a: int, b: int) -> int { return a + b; }] *)
Definition fn_add : Node :=
  FunctionStatement
    [{| Param.name := "a"; Param.value_type := "int" |};
     {| Param.name := "b"; Param.value_type := "int" |}]
    (BlockStatement
       [ReturnStatement
          (InfixExpression (IdentifierLiteral "a") "+" (IdentifierLiteral "b"))])
    "add" "int".

(** *** Infix expressions *)

(** The cases of [match operator] in [__visit_infix_expression] that
    emit one arithmetic instruction, with the builder method they call:
    for two integers, and for two floats. *)
Definition int_arithmetic : list (string * string) :=
  [("+", "add"); ("-", "sub"); ("*", "mul"); ("/", "sdiv"); ("%", "srem")].

Definition float_arithmetic : list (string * string) :=
  [("+", "fadd"); ("-", "fsub"); ("*", "fmul"); ("/", "fdiv"); ("%", "frem")].

(** The cases that emit a comparison, with the predicate that
    [icmp_signed] gives the instruction. *)
Definition comparisons : list (string * string) :=
  [("<", "slt"); ("<=", "sle"); (">", "sgt"); (">=", "sge"); ("==", "eq")].

(** The predicate that [fcmp_ordered] gives the instruction. *)
Definition float_comparisons : list (string * string) :=
  [("<", "olt"); ("<=", "ole"); (">", "ogt"); (">=", "oge"); ("==", "oeq")].

(** The operators [__visit_infix_expression] has a case for. *)
Definition infix_operators : list string :=
  ["+"; "-"; "*"; "/"; "%"; "^"; "<"; "<="; ">"; ">="; "=="].

(** [1 != 2] *)
Definition one_ne_two : Node :=
  InfixExpression (IntegerLiteral 1) "!=" (IntegerLiteral 2).

(** *** Several instructions emitted in a row *)

(** The block [o] with the instructions [row] put in at position [a]. *)
Definition with_all (a : nat) (row : list Value) (o : BlockObj) : BlockObj :=
  {| block_parent := block_parent o; block_name := block_name o;
     instructions := take a (instructions o) ++ row ++ drop a (instructions o);
     terminator := terminator o |}.

(** The state after the fresh instructions [row] went one after the
    other into block [b] (whose object was [o]) at the cursor. *)
Definition inserted_all (row : list Value) (b : nat) (o : BlockObj) (s : Compiler)
    : Compiler :=
  set_builder {| _block := Some b; _anchor := length row + _anchor (builder s) |}
    (set_block_store (<[b := with_all (_anchor (builder s)) row o]> (block_store s))
       (set_next_uid (length row + next_uid s) s)).

(** *** The power operator *)

Definition pow_name : string := "llvm.pow.f32".

Definition pow_type : IrType := FunctionType FloatType [FloatType; FloatType] false.

(** The module with the intrinsic declared, if it was not. *)
Definition with_pow (s : Compiler) : Compiler :=
  match Globals.find (module s) pow_name with
  | Some _ => s
  | None =>
      set_module
        (module s ++ [(pow_name,
                       GFunction (declared_function pow_name FloatType
                                    [FloatType; FloatType]))]) s
  end.

(** [2 ^ 3] and [0.5 ^ 0.5] *)
Definition two_pow_three : Node :=
  InfixExpression (IntegerLiteral 2) "^" (IntegerLiteral 3).

Definition half : PyFloat := {| float_bits := 4602678819172646912 |}.

Definition half_pow_half : Node :=
  InfixExpression (FloatLiteral half) "^" (FloatLiteral half).

(** *** String constants and [printf] *)

(** The global that [__convert_string] makes for a literal: a constant
    array of bytes with internal linkage. *)
Definition string_constant (fmt : string) : GlobalVariableObj :=
  {| gv_type := PointerType (ArrayType (IntType 8) (String.length fmt));
     initializer := Some (Constant (ArrayType (IntType 8) (String.length fmt))
                            (CBytes (utf8_encode fmt)));
     global_constant := true;
     linkage := "internal" |}.

(** The type [__initialize_builtins] declares [printf] with. *)
Definition printf_type : IrType :=
  FunctionType (IntType 32) [PointerType (IntType 8)] true.


(** The state in the middle of [main] after [let a: str = "yeet";] and
    the evaluation of [a]. *)
Definition main_with_a : Compiler :=
  final_state (compile (LetStatement "a" (StringLiteral "yeet") "str") inside_main).

Definition loaded_a : Compiler :=
  final_state (resolve_value (IdentifierLiteral "a") main_with_a).

(** The entry block of [main] in a state. *)
Definition main_entry (s : Compiler) : BlockObj :=
  default (new_block "main" "main_entry") (block_store s !! 0).

(** *** The lowering of loops, state by state *)

(** The state in which the body of a [while] is compiled, when the
    condition has been evaluated to [test] leaving [s0] with the cursor
    in the open block [b0] (object [o0]) of the function object [f]: the
    counter has advanced, the blocks [while_loop_entry_n] and
    [while_loop_otherwise_n] have been appended, [b0] ends in the
    conditional branch, and the cursor is at the start of the entry
    block. *)
Definition while_entered (test : Value) (b0 : nat) (o0 : BlockObj)
    (f : FunctionObj) (s0 : Compiler) : Compiler :=
  let fn := block_parent o0 in
  let k := length (block_store s0) in
  let n := pretty (counter s0 + 1) in
  let s1 := set_counter (counter s0 + 1) s0 in
  let s2 := appended fn ("while_loop_entry_" ++ n) f s1 in
  let s3 := appended fn ("while_loop_otherwise_" ++ n)
              (with_blocks f (blocks f ++ [k])) s2 in
  let s4 := terminated ConditionalBranch "br" [test; Block k; Block (S k)] b0 o0 s3 in
  set_builder {| _block := Some k; _anchor := 0 |} s4.

(** The state in which the body of a [for] is compiled, when the
    declaration of the loop variable has been compiled in the scope of
    the loop leaving [s1] with the cursor in the open block [b1] (object
    [o1]) of the function object [f]: the counter has advanced, the
    blocks [for_loop_entry_n] and [for_loop_otherwise_n] have been
    appended and pushed as continue and break target, [b1] ends in an
    unconditional branch to the entry block, and the cursor is at the
    start of the entry block. *)
Definition for_entered (b1 : nat) (o1 : BlockObj) (f : FunctionObj)
    (s1 : Compiler) : Compiler :=
  let fn := block_parent o1 in
  let k := length (block_store s1) in
  let n := pretty (counter s1 + 1) in
  let sa := set_counter (counter s1 + 1) s1 in
  let sb := appended fn ("for_loop_entry_" ++ n) f sa in
  let sc := appended fn ("for_loop_otherwise_" ++ n)
              (with_blocks f (blocks f ++ [k])) sb in
  let sd := set_continues (continues s1 ++ [k])
              (set_breakpoints (breakpoints s1 ++ [S k]) sc) in
  let se := terminated Branch "br" [Block k] b1 o1 sd in
  set_builder {| _block := Some k; _anchor := 0 |} se.

(** [while 1 < 2 { }] *)
Definition while_empty : Node := WhileStatement one_lt_two (BlockStatement []).

(** The function object of [main] in a state, and the block a reference
    stands for. *)
Definition main_function (s : Compiler) : FunctionObj :=
  match Globals.find (module s) "main" with
  | Some (GFunction f) => f
  | _ => declared_function "main" (IntType 32) []
  end.

Definition block_at (s : Compiler) (b : nat) : BlockObj :=
  default (new_block "main" "main_entry") (block_store s !! b).

(** The comparison [1 < 2] as the instruction with identity [uid]. *)
Definition one_lt_two_at (uid : nat) : Value :=
  Instruction uid (ICMPInstr "slt") (IntType 1) "icmp"
    [Constant (IntType 32) (CInt 1); Constant (IntType 32) (CInt 2)].

(** The value an evaluation gave. *)
Definition value_of (r : Result Resolved) : Value :=
  match r with
  | Ok (Some (v, _)) _ => v
  | _ => Constant (IntType 1) (CInt 0)
  end.

(** *** The [if] without an alternative and the [return] *)

(** The state in which the consequence of an [if] without [else] is
    compiled, when the condition has been evaluated to [test] leaving
    [s0] with the cursor in the open block [b0] (object [o0]) of the
    function object [f].  The two blocks are named after the block the
    cursor was in, with the suffixes [.if] and [.endif], and with a
    number after that when the function has a block of that label
    already ([given_label]); the counter is not touched. *)
Definition if_then_entered (test : Value) (b0 : nat) (o0 : BlockObj)
    (f : FunctionObj) (s0 : Compiler) : Compiler :=
  let fn := block_parent o0 in
  let k := length (block_store s0) in
  let s1 := appended fn (Ir._label_suffix (block_name o0) ".if") f s0 in
  let s2 := appended fn (Ir._label_suffix (block_name o0) ".endif")
              (with_blocks f (blocks f ++ [k])) s1 in
  let s3 := terminated ConditionalBranch "br" [test; Block k; Block (S k)] b0 o0 s2 in
  set_builder {| _block := Some k; _anchor := 0 |} s3.

(** [if 1 < 2 { return 1; }] *)
Definition if_return : Node :=
  IfStatement one_lt_two (BlockStatement [ReturnStatement (IntegerLiteral 1)]) None.

(** *** Results read in another state *)

(** The outcome [r] with the state [s'] in the place of its own. *)
Definition at_state {A} (r : Result A) (s' : Compiler) : Result A :=
  match r with
  | Ok x _ => Ok x s'
  | Raise e _ => Raise e s'
  end.

(** [main()] *)
Definition call_main : Node := CallExpression "main" [].

(** [return 0;] compiled in the middle of [main]. *)
Definition main_returned : Compiler :=
  final_state (compile (ReturnStatement (IntegerLiteral 0)) inside_main).

(** *** Blocks that stay in their function *)


(** *** Programs on which a [let] or an assignment raises *)

(** [fn main() -> int { let x: int = 5; let x: float = 0.5; }] *)
Definition let_retyped : Node :=
  Program [FunctionStatement []
             (BlockStatement [LetStatement "x" (IntegerLiteral 5) "int";
                              LetStatement "x" (FloatLiteral half) "float"])
             "main" "int"].

(** [fn v() -> void { } fn main() -> int { let x: int = v(); }] *)
Definition let_of_void : Node :=
  Program [FunctionStatement [] (BlockStatement []) "v" "void";
           FunctionStatement []
             (BlockStatement [LetStatement "x" (CallExpression "v" []) "int"])
             "main" "int"].

(** [fn main() -> int { let x: int = true + true; }] *)
Definition let_of_bool_sum : Node :=
  Program [FunctionStatement []
             (BlockStatement
                [LetStatement "x"
                   (InfixExpression (BooleanLiteral true) "+" (BooleanLiteral true))
                   "int"])
             "main" "int"].

(** [fn main() -> int { let x: int = y; }] *)
Definition let_of_undeclared : Node :=
  Program [FunctionStatement []
             (BlockStatement [LetStatement "x" (IdentifierLiteral "y") "int"])
             "main" "int"].

(** [fn main() -> int { let x: int = 5; x = 0.5; }] *)
Definition assign_retyped : Node :=
  Program [FunctionStatement []
             (BlockStatement [LetStatement "x" (IntegerLiteral 5) "int";
                              AssignStatement "x" (FloatLiteral half)])
             "main" "int"].

(** [fn main() -> int { x = y; }] *)
Definition assign_of_undeclared : Node :=
  Program [FunctionStatement []
             (BlockStatement [AssignStatement "x" (IdentifierLiteral "y")])
             "main" "int"].

(** * Theorems *)

(** ** The scoped symbol table *)

Section Environment.

Implicit Types (h : list Environment) (s : Compiler) (n : string).

Lemma chain_det h r l1 : chain h r l1 → ∀ l2, chain h r l2 → l1 = l2.
Proof.
  induction 1 as [r e He Hp | r e p l He Hp Hc IH]; intros l2 H2.
  - inversion H2; subst; simplify_eq; done.
  - inversion H2; subst; simplify_eq. f_equal. by apply IH.
Qed.

Lemma chain_from_member h r l :
  chain h r l → ∀ x, x ∈ l → ∃ l', chain h x l' ∧ length l' ≤ length l.
Proof.
  induction 1 as [r e He Hp | r e p l He Hp Hc IH]; intros x Hx.
  - apply list_elem_of_singleton in Hx as ->.
    exists [r]. split; [by eapply chain_root | done].
  - apply elem_of_cons in Hx as [-> | Hx].
    + exists (r :: l). split; [by eapply chain_step | done].
    + destruct (IH x Hx) as (l' & Hc' & Hlen).
      exists l'. split; [done | simpl; lia].
Qed.

Lemma chain_NoDup h r l : chain h r l → NoDup l.
Proof.
  induction 1 as [r e He Hp | r e p l He Hp Hc IH].
  - apply NoDup_singleton.
  - apply NoDup_cons. split; [|done].
    intros Hr. destruct (chain_from_member _ _ _ Hc r Hr) as (l' & Hc' & Hlen).
    assert (l' = r :: l) as -> by (eapply chain_det; [done | by eapply chain_step]).
    simpl in Hlen. lia.
Qed.

Lemma chain_in_store h r l : chain h r l → ∀ x, x ∈ l → x < length h.
Proof.
  induction 1 as [r e He Hp | r e p l He Hp Hc IH]; intros x Hx.
  - apply list_elem_of_singleton in Hx as ->. by eapply lookup_lt_Some.
  - apply elem_of_cons in Hx as [-> | Hx]; [by eapply lookup_lt_Some | auto].
Qed.

(** A chain never visits more scopes than the store holds. *)
Lemma chain_length h r l : chain h r l → length l ≤ length h.
Proof.
  intros Hc. rewrite <- (length_seq (length h) 0).
  apply submseteq_length, NoDup_submseteq; [by eapply chain_NoDup|].
  intros x Hx. apply elem_of_seq. split; [lia|].
  simpl. by eapply chain_in_store.
Qed.

(** [__resolve] only reads. *)
Lemma resolve_pure fuel : ∀ self n s, final_state (Env.resolve fuel self n s) = s.
Proof.
  induction fuel as [|fuel IH]; intros self n s; simpl; [done|].
  destruct (env_store s !! self) as [e|]; [|done].
  destruct (records e !! n); [done|].
  destruct (parent e); [apply IH | done].
Qed.

(** With fuel for the whole chain, [__resolve] returns the binding of
    the nearest scope that has one. *)
Lemma resolve_nearest s n b pre a post : ∀ fuel self,
  chain (env_store s) self (pre ++ a :: post) →
  length (pre ++ a :: post) ≤ fuel →
  (∀ x, x ∈ pre → binding (env_store s) x n = None) →
  binding (env_store s) a n = Some b →
  Env.resolve fuel self n s = Ok (Some b) s.
Proof.
  induction pre as [|x pre IH]; intros fuel self Hc Hfuel Hpre Ha.
  - destruct fuel as [|fuel]; [simpl in Hfuel; lia|].
    assert (self = a) as -> by (inversion Hc; by subst).
    unfold binding in Ha. simpl.
    destruct (env_store s !! a) as [e|]; [|done]. simpl in Ha. by rewrite Ha.
  - destruct fuel as [|fuel]; [simpl in Hfuel; lia|].
    inversion Hc as [r e He Hp Hr Hl | r e p l He Hp Hc' Hr Hl]; subst.
    { by destruct pre. }
    assert (binding (env_store s) x n = None) as Hx by (apply Hpre; left).
    unfold binding in Hx. simpl. rewrite He in Hx |- *. simpl in Hx.
    rewrite Hx, Hp. apply IH; [done | simpl in Hfuel; lia | | done].
    intros y Hy. apply Hpre. by right.
Qed.

Lemma resolve_absent s n l : ∀ fuel self,
  chain (env_store s) self l →
  length l ≤ fuel →
  (∀ x, x ∈ l → binding (env_store s) x n = None) →
  Env.resolve fuel self n s = Ok None s.
Proof.
  induction l as [|x l IH]; intros fuel self Hc Hfuel Hl; [inversion Hc|].
  destruct fuel as [|fuel]; [simpl in Hfuel; lia|].
  assert (binding (env_store s) x n = None) as Hx by (apply Hl; left).
  inversion Hc as [r e He Hp Hr Hl' | r e p l' He Hp Hc' Hr Hl']; subst;
    unfold binding in Hx; simpl; rewrite He in Hx |- *; simpl in Hx;
    rewrite Hx, Hp; [done|].
  apply IH; [done | simpl in Hfuel; lia |].
  intros y Hy. apply Hl. by right.
Qed.

Lemma define_then_resolve s self n v t e fuel :
  env_store s !! self = Some e →
  ∃ s', Env.define self n v t s = Ok v s' ∧
        binding (env_store s') self n = Some (v, t) ∧
        Env.resolve (S fuel) self n s' = Ok (Some (v, t)) s'.
Proof.
  intros He. unfold Env.define. rewrite He. eexists. split; [done|].
  assert (self < length (env_store s)) by (by eapply lookup_lt_Some).
  unfold binding. simpl.
  rewrite list_lookup_insert_eq by done. simpl.
  by rewrite lookup_insert_eq.
Qed.

(** C8. In any environment store: [define] followed by [lookup] of the
    same name in the same scope returns the binding just defined; a
    [lookup] from a scope returns the binding of the nearest scope of
    its chain that has the name, so a name defined only in an ancestor
    is found from the descendant; a name that no scope of the chain
    defines is "not found" ([None]); and [lookup] leaves the whole
    state, and so every environment, as it was. *)
Theorem lookup_define_spec :
  (∀ s self n v t,
     is_Some (env_store s !! self) →
     ∃ s', Env.define self n v t s = Ok v s' ∧
           Env.lookup self n s' = Ok (Some (v, t)) s') ∧
  (∀ s self n pre a post b,
     chain (env_store s) self (pre ++ a :: post) →
     (∀ x, x ∈ pre → binding (env_store s) x n = None) →
     binding (env_store s) a n = Some b →
     Env.lookup self n s = Ok (Some b) s) ∧
  (∀ s self n l,
     chain (env_store s) self l →
     (∀ x, x ∈ l → binding (env_store s) x n = None) →
     Env.lookup self n s = Ok None s) ∧
  (∀ s self n, final_state (Env.lookup self n s) = s).
Proof.
  split_and!.
  - intros s self n v t [e He].
    assert (self < length (env_store s)) as Hlt by (by eapply lookup_lt_Some).
    destruct (define_then_resolve s self n v t e
                (pred (length (env_store s))) He) as (s' & Hd & _ & Hr).
    exists s'. split; [done|]. unfold Env.lookup.
    assert (length (env_store s') = length (env_store s)) as ->.
    { unfold Env.define in Hd. rewrite He in Hd. simplify_eq. simpl.
      by rewrite length_insert. }
    by replace (length (env_store s)) with (S (pred (length (env_store s)))) by lia.
  - intros s self n pre a post b Hc Hpre Ha. unfold Env.lookup.
    eapply resolve_nearest; eauto using chain_length.
  - intros s self n l Hc Hl. unfold Env.lookup.
    eapply resolve_absent; eauto using chain_length.
  - intros s self n. apply resolve_pure.
Qed.

Lemma lookup_define_spec_witness :
  (∃ s', Env.define 1 "x" (Constant (IntType 32) (CInt 5)) (Some (IntType 32))
           nested_scope = Ok (Constant (IntType 32) (CInt 5)) s' ∧
         Env.lookup 1 "x" s'
         = Ok (Some (Constant (IntType 32) (CInt 5), Some (IntType 32))) s') ∧
  Env.lookup 1 "printf" nested_scope
  = Ok (Some (Function "printf"
                (FunctionType (IntType 32) [PointerType (IntType 8)] true),
              Some (IntType 32))) nested_scope ∧
  Env.lookup 1 "x" nested_scope = Ok None nested_scope.
Proof.
  assert (chain (env_store nested_scope) 1 [1; 0]) as Hc.
  { eapply chain_step; [reflexivity | reflexivity |].
    eapply chain_root; reflexivity. }
  destruct lookup_define_spec as (Hdef & Hnear & Habs & _).
  split_and!.
  - apply Hdef. by eexists.
  - apply (Hnear nested_scope 1 "printf" [1] 0 []); [exact Hc | | reflexivity].
    intros x Hx. apply list_elem_of_singleton in Hx as ->. reflexivity.
  - apply (Habs nested_scope 1 "x" [1; 0]); [exact Hc |].
    intros x Hx. apply elem_of_cons in Hx as [-> | Hx]; [reflexivity|].
    apply list_elem_of_singleton in Hx as ->. reflexivity.
Defined.

End Environment.

(** ** Dispatch, operand types and error policy *)

(** C10. A node whose kind has no case in [compile]'s dispatch (the
    literal kinds and [FunctionParameter]) is compiled to nothing:
    [compile] returns without raising and leaves the whole compiler state
    (module, blocks, error list, ...) as it was; the same holds for such a
    node used as a statement. *)
Theorem compile_unmatched_is_noop (node : Node) (s : Compiler) :
  has_compile_case node = false →
  compile node s = Ok tt s ∧ compile (ExpressionStatement node) s = Ok tt s.
Proof.
  intros H. by destruct node.
Qed.

Lemma compile_unmatched_is_noop_witness :
  compile (IntegerLiteral 5) new_Compiler = Ok tt new_Compiler ∧
  compile (ExpressionStatement (IntegerLiteral 5)) new_Compiler
  = Ok tt new_Compiler.
Proof.
  apply compile_unmatched_is_noop. reflexivity.
Defined.

(** C4, as the code behaves. An infix expression with an integer literal
    on one side and a float literal on the other is not rejected: for
    every operator it yields the pair [(None, None)], returns normally,
    emits nothing and records no error. *)
Theorem infix_mixed_operands_not_rejected (z : Z) (f : PyFloat) (op : string)
    (s : Compiler) :
  resolve_value (InfixExpression (IntegerLiteral z) op (FloatLiteral f)) s
  = Ok (Some (PyNone, None)) s ∧
  resolve_value (InfixExpression (FloatLiteral f) op (IntegerLiteral z)) s
  = Ok (Some (PyNone, None)) s ∧
  compile (ExpressionStatement
             (InfixExpression (IntegerLiteral z) op (FloatLiteral f))) s
  = Ok tt s.
Proof. done. Qed.

(** C5, as the code behaves. Of the three scope errors only the
    assignment to an undeclared name is recorded and passed over. A call
    to a name that does not resolve and a read of an identifier that does
    not resolve raise [TypeError] (the unpacking of [None]); nothing is
    recorded and the statements after it are not compiled. *)
Theorem scope_errors_halt_generation :
  (∃ s, compile assign_twice new_Compiler = Ok tt s ∧
        errors s = [assign_error "x"; assign_error "y"]) ∧
  compile call_then_assign new_Compiler = Raise TypeError new_Compiler ∧
  (∃ s, compile return_undefined new_Compiler = Raise TypeError s ∧
        errors s = []).
Proof.
  split_and!.
  - eexists. split; [vm_compute; reflexivity | reflexivity].
  - vm_compute. reflexivity.
  - eexists. split; [vm_compute; reflexivity | reflexivity].
Qed.

(** C9, as the code behaves. Resolving a boolean literal prints it: one
    line, [True] or [False], is written to the standard output, and
    nothing else of the state changes; so compiling a program that holds
    a boolean literal writes to the standard output. *)
Theorem boolean_literal_prints (b : bool) (s : Compiler) :
  resolve_value (BooleanLiteral b) s
  = Ok (Some (Constant (IntType 1) (CInt (if b then 1 else 0)), Some (IntType 1)))
       (set_stdout (stdout s ++ [str_bool b ++ newline]) s) ∧
  stdout (final_state (resolve_value (BooleanLiteral b) s)) ≠ stdout s ∧
  ∃ s', compile fn_returns_true new_Compiler = Ok tt s' ∧
        stdout new_Compiler = [] ∧ stdout s' = ["True" ++ newline].
Proof.
  split_and!; [done | |].
  - simpl. intros H.
    apply (f_equal length) in H. rewrite length_app in H. simpl in H. lia.
  - eexists. split; [vm_compute; reflexivity|]. split; reflexivity.
Qed.

(** C3, as the code behaves. A [while] loop pushes nothing on the break
    and continue stacks. A [break] or [continue] whose innermost loop is
    a [while] not inside any [for] finds the stack empty ([IndexError]);
    inside a [for], the [break] branches to the exit block of the [for]
    and not to that of the [while]. *)
Theorem break_in_while_misses_its_loop :
  (∃ s, compile break_in_while new_Compiler = Raise IndexError s) ∧
  (∃ s, compile continue_in_while new_Compiler = Raise IndexError s) ∧
  (∃ s uid, compile break_in_while_in_for new_Compiler = Ok tt s ∧
        block_label s 5 = Some "while_loop_entry_2.if" ∧
        block_terminator s 5 = Some (Instruction uid Branch VoidType "br" [Block 2]) ∧
        block_label s 2 = Some "for_loop_otherwise_1" ∧
        block_label s 4 = Some "while_loop_otherwise_2").
Proof.
  split_and!.
  - eexists. vm_compute. reflexivity.
  - eexists. vm_compute. reflexivity.
  - do 2 eexists. split_and!; [vm_compute; reflexivity | reflexivity..].
Qed.

(** ** What every generator method preserves *)

Section Soundness.

Lemma extends_refl s : extends s s.
Proof.
  split_and!;
    [done | intros b o Ho; by exists o | intros fn f Hf; by exists f | done].
Qed.

Lemma extends_trans s1 s2 s3 : extends s1 s2 → extends s2 s3 → extends s1 s3.
Proof.
  intros (Ht1 & Hb1 & Hf1 & Hl1) (Ht2 & Hb2 & Hf2 & Hl2). split_and!.
  - auto.
  - intros b o Ho. destruct (Hb1 _ _ Ho) as (o1 & Ho1 & Hp1 & Hi1).
    destruct (Hb2 _ _ Ho1) as (o2 & Ho2 & Hp2 & Hi2). exists o2.
    split_and!; [done | congruence | auto].
  - intros fn f Hf. destruct (Hf1 _ _ Hf) as (f1 & Hf1').
    destruct (Hf2 _ _ Hf1') as (f2 & Hf2'). by exists f2.
  - auto.
Qed.

(** A state that differs only outside the block store and the module. *)
Lemma extends_same s s' :
  block_store s' = block_store s → module s' = module s → extends s s'.
Proof.
  intros Hb Hm. split_and!.
  - unfold terminators_ok. by rewrite Hb.
  - intros b o Ho. exists o. by rewrite Hb.
  - intros fn f Hf. exists f. by rewrite Hm.
  - unfold blocks_listed. by rewrite Hb, Hm.
Qed.

Lemma bind_Ok {A B} (m : M A) (f : A → M B) s a s1 :
  m s = Ok a s1 → (m ≫= f) s = f a s1.
Proof. unfold mbind, M_bind. by intros ->. Qed.

Lemma bind_Raise {A B} (m : M A) (f : A → M B) s e s1 :
  m s = Raise e s1 → (m ≫= f) s = Raise e s1.
Proof. unfold mbind, M_bind. by intros ->. Qed.

Lemma sound_ret {A} (a : A) : sound (mret a).
Proof. intros s. apply extends_refl. Qed.

Lemma sound_raise {A} e : sound (raise e : M A).
Proof. intros s. apply extends_refl. Qed.

Lemma sound_get {A} (f : Compiler → A) : sound (get f).
Proof. intros s. apply extends_refl. Qed.

Lemma sound_bind {A B} (m : M A) (f : A → M B) :
  sound m → (∀ a, sound (f a)) → sound (m ≫= f).
Proof.
  intros Hm Hf s. specialize (Hm s). unfold mbind, M_bind.
  destruct (m s) as [a s1 | e s1]; simpl in *; [|done].
  eapply extends_trans; [done | apply Hf].
Qed.

Lemma sound_unpack {A} (x : option A) : sound (unpack x).
Proof. destruct x; [apply sound_ret | apply sound_raise]. Qed.

Lemma sound_modify f :
  (∀ s, block_store (f s) = block_store s) → (∀ s, module (f s) = module s) →
  sound (modify f).
Proof. intros Hb Hm s. apply extends_same; simpl; auto. Qed.

End Soundness.

Section Primitives.

(** A computation that touches neither the block store nor the module. *)
Lemma sound_frame {A} (m : M A) :
  (∀ s, block_store (final_state (m s)) = block_store s ∧
        module (final_state (m s)) = module s) →
  sound m.
Proof. intros H s. destruct (H s). by apply extends_same. Qed.

Lemma sound_fresh_uid : sound fresh_uid.
Proof. by apply sound_frame. Qed.

Lemma sound_get_block b : sound (get_block b).
Proof. apply sound_frame. intros s. unfold get_block. by case_match. Qed.

Lemma find_app m n g k :
  Globals.find (m ++ [(n, g)]) k
  = match Globals.find m k with
    | Some x => Some x
    | None => if String.eqb n k then Some g else None
    end.
Proof.
  induction m as [|[k' g'] m IH]; simpl; [done|].
  by destruct (String.eqb k' k).
Qed.

Lemma find_replace m n g k :
  Globals.find (Globals.replace m n g) k
  = if String.eqb n k then
      match Globals.find m k with Some _ => Some g | None => None end
    else Globals.find m k.
Proof.
  induction m as [|[k' g'] m IH]; simpl; [by destruct (String.eqb n k)|].
  destruct (String.eqb k' n) eqn:Hk'n; simpl.
  - apply String.eqb_eq in Hk'n as ->. by destruct (String.eqb n k).
  - destruct (String.eqb k' k) eqn:Hk'k; [|done].
    apply String.eqb_eq in Hk'k as ->.
    by rewrite String.eqb_sym, Hk'n.
Qed.

Lemma functions_kept_replace s fn f' :
  functions_kept s (set_module (Globals.replace (module s) fn (GFunction f')) s).
Proof.
  intros k f Hf. simpl. rewrite find_replace.
  destruct (String.eqb fn k); [|by eexists]. rewrite Hf. by eexists.
Qed.

(** A global that brings no block with it. *)
Lemma sound_add_global n g :
  (∀ f, g = GFunction f → blocks f = []) → sound (Globals.add_global n g).
Proof.
  intros Hg s. unfold Globals.add_global.
  destruct (Globals.is_used (module s) n); simpl; [apply extends_refl|].
  split_and!; [done | intros b o Ho; by exists o | |].
  - intros k f Hf. simpl. rewrite find_app, Hf. by eexists.
  - intros Hl k f b. simpl. rewrite find_app.
    destruct (Globals.find (module s) k) as [g0|] eqn:Hk.
    + intros [= ->]. by eapply Hl.
    + destruct (String.eqb n k); [|done]. intros [= ->].
      rewrite (Hg f eq_refl). by intros ?%elem_of_nil.
Qed.

Lemma sound_get_global n : sound (Globals.get_global n).
Proof.
  apply sound_frame. intros s. unfold Globals.get_global.
  by repeat case_match.
Qed.

Lemma sound_new_Function fnty n : sound (Ir.new_Function fnty n).
Proof.
  apply sound_bind; [|intros; apply sound_ret].
  apply sound_add_global. by intros f [= <-].
Qed.

Lemma sound_new_GlobalVariable typ n init c l :
  sound (Ir.new_GlobalVariable typ n init c l).
Proof.
  apply sound_bind; [|intros; apply sound_ret].
  by apply sound_add_global.
Qed.

Lemma block_ok_empty p l :
  block_ok {| block_parent := p; block_name := l; instructions := [];
              terminator := None |}.
Proof. done. Qed.

Lemma sound_Function_append_basic_block fn label :
  sound (Ir.Function_append_basic_block fn label).
Proof.
  intros s. unfold Ir.Function_append_basic_block.
  destruct (Globals.find (module s) fn) as [[f|]|] eqn:Hf; simpl;
    try apply extends_refl.
  split_and!.
  - intros Hok b o. simpl. intros Ho.
    apply lookup_app_Some in Ho as [Ho | [_ Ho]]; [by eapply Hok|].
    destruct (b - length (block_store s)); simpl in Ho; [|done].
    simplify_eq. apply block_ok_empty.
  - intros b o Ho. exists o. simpl. split; [|done].
    apply lookup_app_l_Some. done.
  - intros k f0 Hf0. simpl. rewrite find_replace.
    destruct (String.eqb fn k); [|by eexists]. rewrite Hf0. by eexists.
  - intros Hl k f0 b. simpl. rewrite find_replace, length_app. simpl.
    destruct (String.eqb fn k) eqn:Hk.
    + apply String.eqb_eq in Hk as <-. rewrite Hf. intros [= <-]. simpl.
      intros [Hb | ->%list_elem_of_singleton]%elem_of_app; [|lia].
      specialize (Hl _ _ _ Hf Hb). lia.
    + intros Hf0 Hb. specialize (Hl _ _ _ Hf0 Hb). lia.
Qed.

Lemma sound_Block_delete b : sound (Ir.Block_delete b).
Proof. apply sound_raise. Qed.

Lemma sound_new_IRBuilder b : sound (Ir.new_IRBuilder b).
Proof.
  apply sound_bind; [apply sound_get_block | intros; apply sound_ret].
Qed.

Lemma sound_block : sound Ir.block.
Proof.
  apply sound_bind; [apply sound_get|]. intros [b|]; [apply sound_ret | apply sound_raise].
Qed.

Lemma sound_position_at_start b : sound (Ir.position_at_start b).
Proof. by apply sound_modify. Qed.

Lemma sound_position_at_end b : sound (Ir.position_at_end b).
Proof.
  apply sound_bind; [apply sound_get_block | intros; by apply sound_modify].
Qed.

Lemma sound_is_terminated : sound Ir.is_terminated.
Proof.
  apply sound_bind; [apply sound_block | intros].
  apply sound_bind; [apply sound_get_block | intros; apply sound_ret].
Qed.

End Primitives.

Section Emission.

Implicit Types (s : Compiler) (o : BlockObj) (i t : Value).

Lemma insert_Ok i s b o :
  _block (builder s) = Some b → block_store s !! b = Some o →
  Ir._insert i s = Ok tt (inserted i b o s).
Proof.
  intros Hb Ho. unfold Ir._insert, Ir.block, get_block, get, put_block, modify,
    mbind, M_bind, mret, M_ret. simpl. rewrite Hb. simpl. rewrite Ho. done.
Qed.

Lemma emit_Ok cls typ op ops s b o :
  _block (builder s) = Some b → block_store s !! b = Some o →
  (i ← Ir.new_instruction cls typ op ops; Ir._insert i;; mret i) s
  = Ok (Instruction (next_uid s) cls typ op ops) (emitted cls typ op ops b o s).
Proof.
  intros Hb Ho. unfold Ir.new_instruction, Ir._insert, Ir.block, get_block, get,
    put_block, modify, fresh_uid, mbind, M_bind, mret, M_ret.
  simpl. rewrite Hb. simpl. rewrite Hb. simpl. rewrite Ho. done.
Qed.

Lemma filter_inserted_other a i (l : list Value) :
  is_terminator i = false →
  List.filter is_terminator (take a l ++ i :: drop a l)
  = List.filter is_terminator l.
Proof.
  intros Hi. rewrite List.filter_app. simpl. rewrite Hi.
  rewrite <- List.filter_app. by rewrite take_drop.
Qed.

Lemma filter_inserted_terminator a t (l : list Value) :
  is_terminator t = true → List.filter is_terminator l = [] →
  List.filter is_terminator (take a l ++ t :: drop a l) = [t].
Proof.
  intros Ht Hl. rewrite List.filter_app. simpl. rewrite Ht.
  assert (List.filter is_terminator (take a l ++ drop a l) = []) as H
    by (by rewrite take_drop).
  rewrite List.filter_app in H. apply app_eq_nil in H as [-> ->]. done.
Qed.

Lemma elem_of_inserted a (i i' : Value) (l : list Value) :
  i' ∈ l → i' ∈ (take a l ++ i :: drop a l)%list.
Proof.
  intros H. rewrite <- (take_drop a l) in H.
  apply elem_of_app in H as [H | H]; apply elem_of_app; [by left|].
  right. by right.
Qed.

(** Replacing a block by one of the same function that holds the same
    instructions and more, and is again well terminated. *)
Lemma extends_update s s' b o o' :
  block_store s !! b = Some o →
  block_store s' = <[b := o']> (block_store s) →
  module s' = module s →
  block_parent o' = block_parent o →
  (∀ i, i ∈ instructions o → i ∈ instructions o') →
  (block_ok o → block_ok o') →
  extends s s'.
Proof.
  intros Ho Hs' Hm Hp Hin Hok.
  assert (b < length (block_store s)) as Hlt by (by eapply lookup_lt_Some).
  split_and!.
  - intros Hall b' o''. rewrite Hs'. intros Hb'.
    destruct (decide (b = b')) as [<- | Hne].
    + rewrite list_lookup_insert_eq in Hb' by done. simplify_eq.
      apply Hok. by eapply Hall.
    + rewrite list_lookup_insert_ne in Hb' by done. by eapply Hall.
  - intros b' o'' Hb'. rewrite Hs'.
    destruct (decide (b = b')) as [<- | Hne].
    + exists o'. rewrite list_lookup_insert_eq by done.
      simplify_eq. split_and!; [done | congruence | auto].
    + exists o''. by rewrite list_lookup_insert_ne by done.
  - intros fn f Hf. exists f. by rewrite Hm.
  - unfold blocks_listed. rewrite Hs', Hm, length_insert. done.
Qed.

Lemma extends_inserted i b o s :
  is_terminator i = false → block_store s !! b = Some o →
  extends s (inserted i b o s).
Proof.
  intros Hi Ho. eapply extends_update; [exact Ho | done.. | |].
  - intros i'. apply elem_of_inserted.
  - unfold block_ok. simpl. by rewrite filter_inserted_other.
Qed.

Lemma sound_insert i : is_terminator i = false → sound (Ir._insert i).
Proof.
  intros Hi s.
  destruct (_block (builder s)) as [b|] eqn:Hb.
  - destruct (block_store s !! b) as [o|] eqn:Ho.
    + rewrite (insert_Ok _ _ _ _ Hb Ho). by apply extends_inserted.
    + unfold Ir._insert, Ir.block, get_block, get, mbind, M_bind, mret, M_ret.
      simpl. rewrite Hb. simpl. rewrite Ho. apply extends_refl.
  - unfold Ir._insert, Ir.block, get_block, get, mbind, M_bind, mret, M_ret.
    simpl. rewrite Hb. apply extends_refl.
Qed.

Lemma sound_new_instruction cls typ op ops :
  sound (Ir.new_instruction cls typ op ops).
Proof.
  apply sound_bind; [apply sound_get | intros [b|]; [|apply sound_raise]].
  apply sound_bind; [apply sound_fresh_uid | intros; apply sound_ret].
Qed.

(** Creating and emitting an instruction that is not a terminator. *)
Lemma sound_emit cls typ op ops :
  is_terminator_class cls = false →
  sound (i ← Ir.new_instruction cls typ op ops; Ir._insert i;; mret i).
Proof.
  intros Hc s.
  destruct (_block (builder s)) as [b|] eqn:Hb.
  - unfold Ir.new_instruction, Ir.block, fresh_uid, get, mbind, M_bind, mret, M_ret.
    simpl. rewrite Hb. simpl.
    pose proof (sound_insert (Instruction (next_uid s) cls typ op ops) Hc
                  (set_next_uid (S (next_uid s)) s)) as H.
    destruct (Ir._insert _ _) as [[] s1 | e s1]; simpl in *;
      (eapply extends_trans; [|exact H]); by apply extends_same.
  - unfold Ir.new_instruction, Ir.block, get, mbind, M_bind, mret, M_ret.
    simpl. rewrite Hb. apply extends_refl.
Qed.

End Emission.

Section Termination.

Implicit Types (s : Compiler) (o : BlockObj) (i t : Value).

Lemma terminate_Ok cls op ops s b o :
  _block (builder s) = Some b → block_store s !! b = Some o →
  terminator o = None →
  (t ← Ir.new_instruction cls VoidType op ops; Ir._set_terminator t) s
  = Ok (Instruction (next_uid s) cls VoidType op ops) (terminated cls op ops b o s).
Proof.
  intros Hb Ho Ht.
  assert (b < length (block_store s)) as Hlt by (by eapply lookup_lt_Some).
  unfold Ir.new_instruction, Ir._set_terminator, Ir.is_terminated, Ir._insert,
    Ir.block, get_block, get, put_block, modify, fresh_uid,
    mbind, M_bind, mret, M_ret.
  simpl. rewrite Hb. simpl. rewrite Hb. simpl. rewrite Ho. simpl. rewrite Ht.
  simpl. rewrite Hb. simpl. rewrite Ho. simpl.
  rewrite list_lookup_insert_eq by done. simpl.
  unfold terminated. simpl. by rewrite list_insert_insert_eq.
Qed.

Lemma terminate_terminated cls op ops s b o t0 :
  _block (builder s) = Some b → block_store s !! b = Some o →
  terminator o = Some t0 →
  (t ← Ir.new_instruction cls VoidType op ops; Ir._set_terminator t) s
  = Raise AssertionError (set_next_uid (S (next_uid s)) s).
Proof.
  intros Hb Ho Ht.
  unfold Ir.new_instruction, Ir._set_terminator, Ir.is_terminated,
    Ir.block, get_block, get, fresh_uid, raise, mbind, M_bind, mret, M_ret.
  simpl. rewrite Hb. simpl. rewrite Hb. simpl. rewrite Ho. simpl. by rewrite Ht.
Qed.

Lemma extends_terminated cls op ops b o s :
  is_terminator_class cls = true →
  block_store s !! b = Some o → terminator o = None →
  extends s (terminated cls op ops b o s).
Proof.
  intros Hc Ho Ht. eapply extends_update; [exact Ho | done.. | |].
  - intros i'. apply elem_of_inserted.
  - unfold block_ok. simpl. rewrite Ht. intros Hnil.
    split; [done|]. by apply filter_inserted_terminator.
Qed.

(** Creating and emitting a terminator. *)
Lemma sound_terminate cls op ops :
  is_terminator_class cls = true →
  sound (t ← Ir.new_instruction cls VoidType op ops; Ir._set_terminator t).
Proof.
  intros Hc s.
  destruct (_block (builder s)) as [b|] eqn:Hb.
  - destruct (block_store s !! b) as [o|] eqn:Ho.
    + destruct (terminator o) as [t0|] eqn:Ht.
      * rewrite (terminate_terminated _ _ _ _ _ _ _ Hb Ho Ht).
        by apply extends_same.
      * rewrite (terminate_Ok _ _ _ _ _ _ Hb Ho Ht).
        by apply extends_terminated.
    + unfold Ir.new_instruction, Ir._set_terminator, Ir.is_terminated,
        Ir.block, get_block, get, fresh_uid, raise, mbind, M_bind, mret, M_ret.
      simpl. rewrite Hb. simpl. rewrite Hb. simpl. rewrite Ho.
      by apply extends_same.
  - unfold Ir.new_instruction, Ir.block, get, mbind, M_bind, mret, M_ret.
    simpl. rewrite Hb. apply extends_refl.
Qed.

Lemma sound_ret_instr v : sound (Ir.ret v).
Proof. by apply sound_terminate. Qed.

Lemma sound_branch b : sound (Ir.branch b).
Proof. by apply sound_terminate. Qed.

Lemma sound_cbranch c (b1 b2 : nat) : sound (Ir.cbranch c b1 b2).
Proof. by apply sound_terminate. Qed.

Lemma sound_alloca typ : sound (Ir.alloca typ).
Proof.
  destruct typ as [t|]; [|apply sound_raise].
  destruct t; first [apply sound_raise | by apply sound_emit].
Qed.

Lemma sound_store v ptr : sound (Ir.store v ptr).
Proof.
  unfold Ir.store. repeat case_match; try apply sound_raise. by apply sound_emit.
Qed.

Lemma sound_load ptr : sound (Ir.load ptr).
Proof.
  unfold Ir.load. repeat case_match; try apply sound_raise. by apply sound_emit.
Qed.

Lemma sound_binop op l r : sound (Ir._binop op l r).
Proof.
  unfold Ir._binop. repeat case_match; try apply sound_raise. by apply sound_emit.
Qed.

Lemma sound_icmp_signed op l r : sound (Ir.icmp_signed op l r).
Proof.
  unfold Ir.icmp_signed. repeat case_match; try apply sound_raise.
  all: by apply sound_emit.
Qed.

Lemma sound_fcmp_ordered op l r : sound (Ir.fcmp_ordered op l r).
Proof.
  unfold Ir.fcmp_ordered. repeat case_match; try apply sound_raise.
  all: by apply sound_emit.
Qed.

Lemma sound_castop op v typ : sound (Ir._castop op v typ).
Proof.
  unfold Ir._castop. repeat case_match; try apply sound_raise;
    try apply sound_ret. by apply sound_emit.
Qed.

Lemma sound_check_args ts : ∀ args0, sound (Ir.check_args ts args0).
Proof.
  induction ts as [|t ts IH]; intros args0; simpl; [apply sound_ret|].
  repeat case_match; try apply sound_raise. apply IH.
Qed.

Lemma sound_call fn args0 : sound (Ir.call fn args0).
Proof.
  apply sound_bind.
  { unfold Ir.function_type_of. repeat case_match;
      try apply sound_raise; apply sound_ret. }
  intros ft. destruct ft; try apply sound_raise.
  apply sound_bind; [apply sound_check_args | intros].
  by apply sound_emit.
Qed.

Lemma sound_append_basic_block label : sound (Ir.append_basic_block label).
Proof.
  apply sound_bind; [apply sound_block | intros].
  apply sound_bind; [apply sound_get_block | intros].
  apply sound_Function_append_basic_block.
Qed.

End Termination.

Section Visitors.

Lemma sound_Env_new r p n : sound (Env.new r p n).
Proof. by apply sound_frame. Qed.

Lemma sound_Env_define self n v t : sound (Env.define self n v t).
Proof.
  apply sound_frame. intros s. unfold Env.define. by case_match.
Qed.

Lemma sound_Env_resolve fuel : ∀ self n, sound (Env.resolve fuel self n).
Proof.
  intros self n. apply sound_frame. intros s. by rewrite resolve_pure.
Qed.

Lemma sound_Env_lookup self n : sound (Env.lookup self n).
Proof. intros s. apply sound_Env_resolve. Qed.

Lemma sound_increment_counter : sound increment_counter.
Proof. by apply sound_frame. Qed.

Lemma sound_print l : sound (print l).
Proof. by apply sound_frame. Qed.

Lemma sound_type_map k : sound (type_map k).
Proof. unfold type_map. repeat case_match; by apply sound_frame. Qed.

Lemma sound_set_builder b : sound (modify (set_builder b)).
Proof. by apply sound_frame. Qed.

Lemma sound_set_env e : sound (modify (set_env e)).
Proof. by apply sound_frame. Qed.

Lemma sound_set_breakpoints b : sound (modify (set_breakpoints b)).
Proof. by apply sound_frame. Qed.

Lemma sound_set_continues b : sound (modify (set_continues b)).
Proof. by apply sound_frame. Qed.

Lemma sound_push_breakpoints b :
  sound (modify (λ s, set_breakpoints (breakpoints s ++ [b]) s)).
Proof. by apply sound_frame. Qed.

Lemma sound_push_continues b :
  sound (modify (λ s, set_continues (continues s ++ [b]) s)).
Proof. by apply sound_frame. Qed.

Lemma sound_record_error e :
  sound (modify (λ s, set_errors (errors s ++ [e]) s)).
Proof. by apply sound_frame. Qed.

Lemma sound_top l : sound (top l).
Proof. unfold top. case_match; [apply sound_ret | apply sound_raise]. Qed.

Lemma sound_pop l : sound (pop l).
Proof. destruct l; [apply sound_raise | apply sound_ret]. Qed.

End Visitors.

Create HintDb sound discriminated.

#[local] Hint Resolve sound_ret sound_raise sound_get sound_unpack
  sound_fresh_uid sound_get_block sound_add_global sound_get_global
  sound_new_Function sound_new_GlobalVariable
  sound_Function_append_basic_block sound_Block_delete sound_new_IRBuilder
  sound_block sound_position_at_start sound_position_at_end
  sound_is_terminated sound_new_instruction sound_ret_instr sound_branch
  sound_cbranch sound_alloca sound_store sound_load sound_binop
  sound_icmp_signed sound_fcmp_ordered sound_castop sound_call
  sound_append_basic_block sound_Env_new sound_Env_define sound_Env_lookup
  sound_increment_counter sound_print sound_type_map sound_set_builder
  sound_set_env sound_set_breakpoints sound_set_continues
  sound_push_breakpoints sound_push_continues sound_record_error
  sound_top sound_pop : sound.

#[local] Hint Extern 1 (sound (Ir.new_instruction _ _ _ _ ≫= _)) =>
  first [ apply sound_emit; reflexivity | apply sound_terminate; reflexivity ]
  : sound.

(** Decomposes a computation along its binds and case distinctions. *)
Ltac sound_tac :=
  repeat first
    [ solve [eauto with sound]
    | match goal with
      | |- sound (match ?x with _ => _ end) => destruct x
      | |- sound (if ?x then _ else _) => destruct x
      end
    | apply sound_bind; [| intros ?] ].

Section Methods.

Lemma sound_convert_string str : sound (convert_string str).
Proof. unfold convert_string. sound_tac. Qed.

Lemma sound_power_operation_float b e t : sound (power_operation_float b e t).
Proof. unfold power_operation_float. sound_tac. Qed.

Lemma sound_power_operation b e t : sound (power_operation b e t).
Proof.
  unfold power_operation. pose proof sound_power_operation_float. sound_tac.
Qed.

Lemma sound_builtin_printf params t : sound (builtin_printf params t).
Proof. unfold builtin_printf. sound_tac. Qed.

Lemma sound_sequence (l : list (M unit)) :
  Forall sound l → sound (foldr (λ stmt rest, stmt;; rest) (mret tt) l).
Proof.
  induction 1 as [|m l Hm Hl IH]; simpl; [apply sound_ret|].
  apply sound_bind; [done | by intros].
Qed.

Lemma sound_visit_let_statement n (value : M Resolved) :
  sound value → sound (visit_let_statement n value).
Proof. intros H. unfold visit_let_statement. sound_tac. Qed.

Lemma sound_visit_return_statement (value : M Resolved) :
  sound value → sound (visit_return_statement value).
Proof. intros H. unfold visit_return_statement. sound_tac. Qed.

Lemma sound_store_params fn ts : ∀ i, sound (store_params fn i ts).
Proof. induction ts as [|t ts IH]; intros i; simpl; sound_tac. Qed.

Lemma sound_define_params e ts : ∀ ns ps, sound (define_params e ts ns ps).
Proof.
  induction ts as [|t ts IH]; intros ns ps; simpl; [sound_tac|].
  destruct ns, ps; sound_tac.
Qed.

Lemma sound_param_types_of ps : sound (param_types_of ps).
Proof. induction ps as [|p ps IH]; simpl; sound_tac. Qed.

Lemma sound_visit_function_statement n ps rt (body : M unit) :
  sound body → sound (visit_function_statement n ps rt body).
Proof.
  intros H. unfold visit_function_statement.
  pose proof sound_param_types_of. pose proof sound_store_params.
  pose proof sound_define_params. sound_tac.
Qed.

Lemma sound_visit_assign_statement n (value : M Resolved) :
  sound value → sound (visit_assign_statement n value).
Proof. intros H. unfold visit_assign_statement. sound_tac. Qed.

Lemma sound_if_then pred (body : M unit) : sound body → sound (Ir.if_then pred body).
Proof. intros H. unfold Ir.if_then. sound_tac. Qed.

Lemma sound_visit_if_statement (c : M Resolved) (cons : M unit) alt :
  sound c → sound cons → (∀ a, alt = Some a → sound a) →
  sound (visit_if_statement c cons alt).
Proof.
  intros Hc Hcons Halt. unfold visit_if_statement.
  pose proof sound_if_then.
  destruct alt as [a|]; [specialize (Halt a eq_refl)|]; sound_tac.
Qed.

Lemma sound_visit_while_statement (c : M Resolved) (body : M unit) :
  sound c → sound body → sound (visit_while_statement c body).
Proof. intros Hc Hb. unfold visit_while_statement. sound_tac. Qed.

Lemma sound_visit_break_statement : sound visit_break_statement.
Proof. unfold visit_break_statement. sound_tac. Qed.

Lemma sound_visit_continue_statement : sound visit_continue_statement.
Proof. unfold visit_continue_statement. sound_tac. Qed.

Lemma sound_visit_for_statement (v : M unit) (c : M Resolved) (a b : M unit) :
  sound v → sound c → sound a → sound b → sound (visit_for_statement v c a b).
Proof. intros Hv Hc Ha Hb. unfold visit_for_statement. sound_tac. Qed.

Lemma sound_visit_infix_expression op (l r : M Resolved) :
  sound l → sound r → sound (visit_infix_expression op l r).
Proof.
  intros Hl Hr. unfold visit_infix_expression.
  pose proof sound_power_operation. pose proof sound_power_operation_float.
  sound_tac.
Qed.

Lemma sound_resolve_arguments (ps : list (M Resolved)) :
  Forall sound ps → sound (resolve_arguments ps).
Proof. induction 1 as [|p ps Hp Hps IH]; simpl; sound_tac. Qed.

Lemma sound_visit_call_expression n (ps : list (M Resolved)) :
  Forall sound ps → sound (visit_call_expression n ps).
Proof.
  intros H. unfold visit_call_expression.
  pose proof (sound_resolve_arguments ps H). pose proof sound_builtin_printf.
  sound_tac.
Qed.

End Methods.

Section Traversal.

(** Induction on the tree, with the induction hypothesis for every
    child of a node, also inside statement and argument lists. *)
Lemma Node_ind' (P : Node → Prop) :
  (∀ l, Forall P l → P (Program l)) →
  (∀ e, P e → P (ExpressionStatement e)) →
  (∀ n v t, P v → P (LetStatement n v t)) →
  (∀ ps b n rt, P b → P (FunctionStatement ps b n rt)) →
  (∀ l, Forall P l → P (BlockStatement l)) →
  (∀ v, P v → P (ReturnStatement v)) →
  (∀ n v, P v → P (AssignStatement n v)) →
  (∀ c t e, P c → P t → (∀ a, e = Some a → P a) → P (IfStatement c t e)) →
  (∀ c b, P c → P b → P (WhileStatement c b)) →
  P BreakStatement →
  P ContinueStatement →
  (∀ v c a b, P v → P c → P a → P b → P (ForStatement v c a b)) →
  (∀ l op r, P l → P r → P (InfixExpression l op r)) →
  (∀ f l, Forall P l → P (CallExpression f l)) →
  (∀ z, P (IntegerLiteral z)) →
  (∀ f, P (FloatLiteral f)) →
  (∀ n, P (IdentifierLiteral n)) →
  (∀ b, P (BooleanLiteral b)) →
  (∀ s, P (StringLiteral s)) →
  (∀ p, P (FunctionParameter p)) →
  ∀ node, P node.
Proof.
  intros HProgram HExpr HLet HFun HBlock HRet HAssign HIf HWhile HBreak HCont
    HFor HInfix HCall HInt HFloat HIdent HBool HStr HParam.
  fix IH 1. intros node.
  destruct node as [l|e|n v t|ps b n rt|l|v|n v|c t e|c b| | |v c a b|l op r|f l
                   |z|f|n|b|s|p].
  - apply HProgram. induction l as [|x l IHl]; constructor; [apply IH | exact IHl].
  - apply HExpr, IH.
  - apply HLet, IH.
  - apply HFun, IH.
  - apply HBlock. induction l as [|x l IHl]; constructor; [apply IH | exact IHl].
  - apply HRet, IH.
  - apply HAssign, IH.
  - apply HIf; [apply IH | apply IH |].
    destruct e as [a|]; intros a' Ha; [|discriminate].
    injection Ha as <-. apply IH.
  - apply HWhile; apply IH.
  - exact HBreak.
  - exact HCont.
  - apply HFor; apply IH.
  - apply HInfix; apply IH.
  - apply HCall. induction l as [|x l IHl]; constructor; [apply IH | exact IHl].
  - apply HInt.
  - apply HFloat.
  - apply HIdent.
  - apply HBool.
  - apply HStr.
  - apply HParam.
Qed.

(** [__resolve_value] and [compile] are sound on every tree. *)
Lemma sound_resolve_value node : sound (resolve_value node).
Proof.
  induction node using Node_ind'; simpl; try apply sound_ret.
  - apply sound_bind; [|intros; apply sound_ret].
    by apply sound_visit_infix_expression.
  - apply sound_bind; [|intros; apply sound_ret].
    apply sound_visit_call_expression. by apply Forall_map.
  - sound_tac.
  - sound_tac.
  - pose proof sound_convert_string. sound_tac.
Qed.

Lemma sound_compile node : sound (compile node).
Proof.
  induction node using Node_ind'; simpl; try apply sound_ret.
  - apply sound_sequence. by apply Forall_map.
  - done.
  - apply sound_visit_let_statement, sound_resolve_value.
  - by apply sound_visit_function_statement.
  - apply sound_sequence. by apply Forall_map.
  - apply sound_visit_return_statement, sound_resolve_value.
  - apply sound_visit_assign_statement, sound_resolve_value.
  - apply sound_visit_if_statement; [apply sound_resolve_value | done |].
    intros a Ha. destruct e as [a'|]; [|discriminate].
    injection Ha as <-. by eapply H.
  - apply sound_visit_while_statement; [apply sound_resolve_value | done].
  - apply sound_visit_break_statement.
  - apply sound_visit_continue_statement.
  - apply sound_visit_for_statement; [done | apply sound_resolve_value | done..].
  - apply sound_bind; [|intros; apply sound_ret].
    apply sound_visit_infix_expression; apply sound_resolve_value.
  - apply sound_bind; [|intros; apply sound_ret].
    apply sound_visit_call_expression.
    apply Forall_map, Forall_forall. intros; apply sound_resolve_value.
Qed.

End Traversal.

(** ** Declarations and assignments *)

Section Statements.

Lemma IrType_eqb_refl : ∀ t, IrType_eqb t t = true.
Proof.
  fix IH 1. intros [n| | | |p|e n|r xs v]; simpl.
  - apply Nat.eqb_refl.
  - done.
  - done.
  - done.
  - apply IH.
  - by rewrite IH, Nat.eqb_refl.
  - rewrite IH. simpl.
    assert ((fix all2 (xs ys : list IrType) {struct xs} : bool :=
               match xs with
               | [] => match ys with [] => true | _ :: _ => false end
               | x :: xs' =>
                   match ys with
                   | [] => false
                   | y :: ys' => IrType_eqb x y && all2 xs' ys'
                   end
               end) xs xs = true) as ->.
    { induction xs as [|x xs IHxs]; [done|]. by rewrite IH, IHxs. }
    by destruct v.
Qed.

Lemma alloca_Ok t s b o :
  t ≠ VoidType →
  _block (builder s) = Some b → block_store s !! b = Some o →
  Ir.alloca (Some t) s
  = Ok (Instruction (next_uid s) AllocaInstr (PointerType t) "alloca" [])
       (emitted AllocaInstr (PointerType t) "alloca" [] b o s).
Proof.
  intros Hv Hb Ho. unfold Ir.alloca. destruct t; first [done | by apply emit_Ok].
Qed.

Lemma store_Ok v ptr pointee s b o :
  type_of ptr = Some (PointerType pointee) → type_of v = Some pointee →
  _block (builder s) = Some b → block_store s !! b = Some o →
  Ir.store v ptr s
  = Ok (Instruction (next_uid s) StoreInstr VoidType "store" [v; ptr])
       (emitted StoreInstr VoidType "store" [v; ptr] b o s).
Proof.
  intros Hp Hv Hb Ho. unfold Ir.store. rewrite Hp, Hv, IrType_eqb_refl.
  by apply emit_Ok.
Qed.

(** A [lookup] that returns has found the scope it started from. *)
Lemma lookup_Ok_scope self n s r s' :
  Env.lookup self n s = Ok r s' → is_Some (env_store s !! self).
Proof.
  unfold Env.lookup. destruct (length (env_store s)); simpl; [done|].
  destruct (env_store s !! self); [by eexists | done].
Qed.

(** C7, as the code behaves. For an assignment whose right-hand side
    has been evaluated to [v] (leaving the state [s1], with whatever
    that evaluation emitted): if the target name does not resolve, the
    only further change is the error message appended to the error
    list, so no store is emitted and the environment is untouched; if it
    resolves to a slot of the value's type, the only further change is
    the store of [v] into that slot, emitted at the cursor. *)
Theorem assign_statement_spec (n : string) (rhs : Node) (s s1 : Compiler)
    (v : Value) (T : PyType) :
  resolve_value rhs s = Ok (Some (v, T)) s1 →
  (Env.lookup (env s1) n s1 = Ok None s1 →
   compile (AssignStatement n rhs) s
   = Ok tt (set_errors (errors s1 ++ [assign_error n]) s1)) ∧
  (∀ ptr t pointee b o,
     Env.lookup (env s1) n s1 = Ok (Some (ptr, t)) s1 →
     type_of ptr = Some (PointerType pointee) → type_of v = Some pointee →
     _block (builder s1) = Some b → block_store s1 !! b = Some o →
     compile (AssignStatement n rhs) s
     = Ok tt (emitted StoreInstr VoidType "store" [v; ptr] b o s1)).
Proof.
  intros Hv. split.
  - intros Hl. simpl. unfold visit_assign_statement.
    rewrite (bind_Ok _ _ s (v, T) s1) by (by rewrite (bind_Ok _ _ _ _ _ Hv)).
    rewrite (bind_Ok _ _ s1 (env s1) s1) by done.
    by rewrite (bind_Ok _ _ _ _ _ Hl).
  - intros ptr t pointee b o Hl Hp Hvt Hb Ho. simpl.
    unfold visit_assign_statement.
    rewrite (bind_Ok _ _ s (v, T) s1) by (by rewrite (bind_Ok _ _ _ _ _ Hv)).
    rewrite (bind_Ok _ _ s1 (env s1) s1) by done.
    rewrite (bind_Ok _ _ _ _ _ Hl).
    rewrite (bind_Ok _ _ s1 (ptr, t) s1) by (by rewrite (bind_Ok _ _ _ _ _ Hl)).
    by rewrite (bind_Ok _ _ _ _ _ (store_Ok _ _ _ _ _ _ Hp Hvt Hb Ho)).
Qed.


End Statements.

Section StatementExamples.

Lemma assign_statement_spec_witness :
  compile (AssignStatement "x" (IntegerLiteral 1)) inside_main
  = Ok tt (set_errors (errors inside_main ++ [assign_error "x"]) inside_main) ∧
  ∃ ptr o,
    block_store main_with_x !! 0 = Some o ∧
    compile (AssignStatement "x" (IntegerLiteral 1)) main_with_x
    = Ok tt (emitted StoreInstr VoidType "store"
               [Constant (IntType 32) (CInt 1); ptr] 0 o main_with_x).
Proof.
  split.
  - apply (proj1 (assign_statement_spec "x" (IntegerLiteral 1)
                    inside_main inside_main _ _ eq_refl)).
    vm_compute. reflexivity.
  - do 2 eexists. split; [vm_compute; reflexivity|].
    eapply (proj2 (assign_statement_spec "x" (IntegerLiteral 1)
                     main_with_x main_with_x _ _ eq_refl)).
    + vm_compute. reflexivity.
    + reflexivity.
    + reflexivity.
    + reflexivity.
    + vm_compute. reflexivity.
Defined.

(** C7 as stated fails, in each of its halves.  [x = "hi";] with [x]
    undeclared records the error and yet changes the module, which gains
    the string's global constant (and the counter advances).  In
    [fn main() -> int { x = y; }] the target does not resolve and yet no
    error is recorded: evaluating [y] raises [TypeError] first.  In
    [fn main() -> int { let x: int = 5; x = 0.5; }] the target resolves
    and yet the new value is not stored: the slot holds an [i32], the
    store of a [float] raises [TypeError], and the alloca and the store
    of the [let] stay the only instructions of the block. *)
Lemma failed_assign_changes_module :
  (∃ s', compile (AssignStatement "x" (StringLiteral "hi")) new_Compiler = Ok tt s' ∧
         errors s' = [assign_error "x"] ∧
         Globals.find (module new_Compiler) "__str_1" = None ∧
         is_Some (Globals.find (module s') "__str_1") ∧
         module s' ≠ module new_Compiler) ∧
  (∃ s', compile assign_of_undeclared new_Compiler = Raise TypeError s' ∧
         errors s' = []) ∧
  (∃ s' o,
     let slot := Instruction 0 AllocaInstr (PointerType (IntType 32)) "alloca" [] in
     compile assign_retyped new_Compiler = Raise TypeError s' ∧
     errors s' = [] ∧
     block_store s' !! 0 = Some o ∧
     instructions o
     = [slot;
        Instruction 1 StoreInstr VoidType "store"
          [Constant (IntType 32) (CInt 5); slot]]).
Proof.
  split_and!.
  - eexists. split; [vm_compute; reflexivity|].
    split_and!; [reflexivity | reflexivity | by eexists | discriminate].
  - eexists. split; [vm_compute; reflexivity | reflexivity].
  - do 2 eexists. split; [vm_compute; reflexivity|].
    split_and!; reflexivity.
Qed.

(** C6 as stated fails for a [let] whose value and slot do not agree.
    In [fn main() -> int { let x: int = 5; let x: float = 0.5; }] the
    name resolves and yet the value is not stored: the store of a
    [float] into the [i32] slot raises [TypeError].  In
    [fn v() -> void { } fn main() -> int { let x: int = v(); }] the name
    does not resolve and yet no slot is allocated: a slot of type [void]
    trips an assertion, and the call is the only instruction of the
    block.  In [fn main() -> int { let x: int = true + true; }] the sum
    is an [i1] reported as [int]: the slot is allocated as [i32] and the
    store raises [TypeError].  Outside every function body a [let]
    trips the builder's assertion, and in
    [fn main() -> int { let x: int = y; }] the evaluation of [y] raises
    [TypeError]. *)
Lemma let_statement_raises :
  (∃ s' o,
     let slot := Instruction 0 AllocaInstr (PointerType (IntType 32)) "alloca" [] in
     compile let_retyped new_Compiler = Raise TypeError s' ∧
     block_store s' !! 0 = Some o ∧
     instructions o
     = [slot;
        Instruction 1 StoreInstr VoidType "store"
          [Constant (IntType 32) (CInt 5); slot]]) ∧
  (∃ s' o,
     compile let_of_void new_Compiler = Raise AssertionError s' ∧
     block_store s' !! 1 = Some o ∧
     instructions o
     = [Instruction 0 CallInstr VoidType "call"
          [Function "v" (FunctionType VoidType [] false)]] ∧
     Env.lookup (env s') "x" s' = Ok None s') ∧
  (∃ s' o,
     compile let_of_bool_sum new_Compiler = Raise TypeError s' ∧
     block_store s' !! 0 = Some o ∧
     instructions o
     = [Instruction 0 BinaryInstr (IntType 1) "add"
          [Constant (IntType 1) (CInt 1); Constant (IntType 1) (CInt 1)];
        Instruction 1 AllocaInstr (PointerType (IntType 32)) "alloca" []] ∧
     Env.lookup (env s') "x" s' = Ok None s') ∧
  compile (LetStatement "x" (IntegerLiteral 5) "int") new_Compiler
  = Raise AssertionError new_Compiler ∧
  (∃ s', compile let_of_undeclared new_Compiler = Raise TypeError s').
Proof.
  split_and!.
  - do 2 eexists. split; [vm_compute; reflexivity|]. split; reflexivity.
  - do 2 eexists. split; [vm_compute; reflexivity|].
    split_and!; [reflexivity | reflexivity | vm_compute; reflexivity].
  - do 2 eexists. split; [vm_compute; reflexivity|].
    split_and!; [reflexivity | reflexivity | vm_compute; reflexivity].
  - reflexivity.
  - eexists. vm_compute. reflexivity.
Qed.


End StatementExamples.

(** ** The lowering of [if] with an alternative *)

Section IfElse.

Lemma find_replace_same m fn g0 g :
  Globals.find m fn = Some g0 →
  Globals.find (Globals.replace m fn g) fn = Some g.
Proof. intros H. by rewrite find_replace, String.eqb_refl, H. Qed.

Lemma length_appended fn label f s :
  length (block_store (appended fn label f s)) = S (length (block_store s)).
Proof. unfold appended. simpl. rewrite length_app. simpl. lia. Qed.

Lemma append_basic_block_Ok label s b o f :
  _block (builder s) = Some b → block_store s !! b = Some o →
  Globals.find (module s) (block_parent o) = Some (GFunction f) →
  Ir.append_basic_block label s
  = Ok (length (block_store s)) (appended (block_parent o) label f s).
Proof.
  intros Hb Ho Hf.
  unfold Ir.append_basic_block, Ir.block, get_block, get, mbind, M_bind, mret, M_ret.
  simpl. rewrite Hb. simpl. rewrite Ho.
  unfold Ir.Function_append_basic_block. by rewrite Hf.
Qed.

Lemma cbranch_Ok c b1 b2 s b o :
  _block (builder s) = Some b → block_store s !! b = Some o →
  terminator o = None →
  Ir.cbranch c b1 b2 s
  = Ok (Instruction (next_uid s) ConditionalBranch VoidType "br" [c; Block b1; Block b2])
       (terminated ConditionalBranch "br" [c; Block b1; Block b2] b o s).
Proof. intros. by apply terminate_Ok. Qed.

Lemma branch_Ok target s b o :
  _block (builder s) = Some b → block_store s !! b = Some o →
  terminator o = None →
  Ir.branch target s
  = Ok (Instruction (next_uid s) Branch VoidType "br" [Block target])
       (terminated Branch "br" [Block target] b o s).
Proof. intros. by apply terminate_Ok. Qed.

(** The code between the two arms, and after the second. *)
Lemma arm_closed_Ok {A} endif_block s t s' (rest : bool → M A) :
  arm_closed endif_block s = Some (t, s') →
  (then_terminated ← Ir.is_terminated;
   (if then_terminated : bool then mret tt
    else Ir.branch endif_block;; mret tt);;
   rest then_terminated) s
  = rest t s'.
Proof.
  unfold arm_closed. intros H.
  destruct (_block (builder s)) as [b|] eqn:Hb; [|done]. simpl in H.
  destruct (block_store s !! b) as [o|] eqn:Ho; [|done]. simpl in H.
  assert (Ir.is_terminated s = Ok (bool_decide (is_Some (terminator o))) s) as Ht.
  { unfold Ir.is_terminated, Ir.block, get_block, get, mbind, M_bind, mret, M_ret.
    simpl. rewrite Hb. simpl. by rewrite Ho. }
  rewrite (bind_Ok _ _ _ _ _ Ht).
  destruct (terminator o) as [t0|] eqn:Hto; simplify_eq.
  - rewrite bool_decide_eq_true_2 by (by eexists). done.
  - rewrite bool_decide_eq_false_2 by (by intros [? ?]).
    erewrite (bind_Ok (Ir.branch endif_block;; mret tt)); [done|].
    by rewrite (bind_Ok _ _ _ _ _ (branch_Ok _ _ _ _ Hb Ho Hto)).
Qed.

Lemma arm_closed_extends endif_block s t s' :
  arm_closed endif_block s = Some (t, s') → extends s s'.
Proof.
  unfold arm_closed. intros H.
  destruct (_block (builder s)) as [b|] eqn:Hb; [|done]. simpl in H.
  destruct (block_store s !! b) as [o|] eqn:Ho; [|done]. simpl in H.
  destruct (terminator o) as [t0|] eqn:Hto; simplify_eq.
  - apply extends_refl.
  - by apply extends_terminated.
Qed.


Lemma if_entered_endif test b0 o0 f s0 :
  block_store s0 !! b0 = Some o0 →
  Globals.find (module s0) (block_parent o0) = Some (GFunction f) →
  let s1 := if_entered test b0 o0 f s0 in
  (∃ o, block_store s1 !! S (S (length (block_store s0))) = Some o ∧
        block_parent o = block_parent o0) ∧
  (∃ f', Globals.find (module s1) (block_parent o0) = Some (GFunction f')).
Proof.
  intros Ho Hf s1.
  assert (b0 < length (block_store s0)) as Hlt by (by eapply lookup_lt_Some).
  split.
  - eexists. split.
    + subst s1. unfold if_entered, terminated, appended. simpl.
      rewrite list_lookup_insert_ne by lia.
      rewrite lookup_app_r by (rewrite !length_app; simpl; lia).
      rewrite !length_app. simpl.
      replace (S (S (length (block_store s0))) - (length (block_store s0) + 1 + 1))
        with 0 by lia.
      reflexivity.
    + done.
  - subst s1. unfold if_entered, terminated, appended. simpl.
    eexists. eapply find_replace_same.
    eapply find_replace_same. eapply find_replace_same. exact Hf.
Qed.

End IfElse.

(** ** Predecessors of the emitted blocks *)

Section Rooted.

Lemma is_entry_mono s s' b : blocks_kept s s' → is_entry s b → is_entry s' b.
Proof.
  intros Hk (o & Ho & Hfirst).
  destruct (Hk _ _ Ho) as (o1 & Ho1 & Hp1 & _).
  exists o1. split; [done|]. intros b' o' Hlt Ho'.
  assert (b < length (block_store s)) by (by eapply lookup_lt_Some).
  destruct (lookup_lt_is_Some_2 (block_store s) b') as [o0 Ho0]; [lia|].
  destruct (Hk _ _ Ho0) as (o0' & Ho0' & Hp0' & _). simplify_eq.
  rewrite Hp0', Hp1. by eapply Hfirst.
Qed.

Lemma rooted_mono s s' b : blocks_kept s s' → rooted s b → rooted s' b.
Proof.
  intros Hk. induction 1 as [b He | b' o' i b Hr IH Ho' Hi Ht].
  - apply rooted_entry. by eapply is_entry_mono.
  - destruct (Hk _ _ Ho') as (o1 & Ho1 & _ & Hi1).
    eapply rooted_step; eauto.
Qed.

Lemma extends_rooted s s' b : extends s s' → rooted s b → rooted s' b.
Proof. intros (_ & Hk & _ & _). by apply rooted_mono. Qed.

Lemma blocks_kept_same s s' : block_store s' = block_store s → blocks_kept s s'.
Proof. intros H b o Ho. exists o. by rewrite H. Qed.

Lemma blocks_kept_update s s' b o o' :
  block_store s !! b = Some o →
  block_store s' = <[b := o']> (block_store s) →
  block_parent o' = block_parent o →
  (∀ i, i ∈ instructions o → i ∈ instructions o') →
  blocks_kept s s'.
Proof.
  intros Ho Hs' Hp Hin b' o'' Hb'. rewrite Hs'.
  assert (b < length (block_store s)) as Hlt by (by eapply lookup_lt_Some).
  destruct (decide (b = b')) as [<- | Hne].
  - exists o'. rewrite list_lookup_insert_eq by done.
    simplify_eq. split_and!; [done | congruence | auto].
  - exists o''. by rewrite list_lookup_insert_ne by done.
Qed.

(** A state that differs only outside the cursor's block, the block
    store and the globals. *)
Lemma well_rooted_same s s' :
  block_store s' = block_store s →
  _block (builder s') = _block (builder s) →
  (∀ n, is_Some (Globals.find (module s) n) → is_Some (Globals.find (module s') n)) →
  well_rooted s → well_rooted s'.
Proof.
  intros Hb Hc Hm (K1 & K2 & K3).
  pose proof (blocks_kept_same s s' Hb) as Hk.
  split_and!.
  - intros b. rewrite Hc. intros H. eapply rooted_mono; eauto.
  - intros b o. rewrite Hb. intros Ho Hne. eapply rooted_mono; eauto.
  - intros b o. rewrite Hb. intros Ho. eauto.
Qed.

(** The cursor's block, or any rooted block, gains instructions. *)
Lemma well_rooted_update s s' b o o' :
  well_rooted s → rooted s b →
  block_store s !! b = Some o →
  block_store s' = <[b := o']> (block_store s) →
  module s' = module s →
  _block (builder s') = _block (builder s) →
  block_parent o' = block_parent o →
  (∀ i, i ∈ instructions o → i ∈ instructions o') →
  well_rooted s'.
Proof.
  intros (K1 & K2 & K3) Hr Ho Hs' Hm Hc Hp Hin.
  pose proof (blocks_kept_update s s' b o o' Ho Hs' Hp Hin) as Hk.
  assert (b < length (block_store s)) as Hlt by (by eapply lookup_lt_Some).
  split_and!.
  - intros b'. rewrite Hc. intros H. eapply rooted_mono; eauto.
  - intros b' o''. rewrite Hs'. intros Hb' Hne.
    destruct (decide (b = b')) as [<- | Hneq].
    + by eapply rooted_mono.
    + rewrite list_lookup_insert_ne in Hb' by done. eapply rooted_mono; eauto.
  - intros b' o''. rewrite Hs', Hm. intros Hb'.
    destruct (decide (b = b')) as [<- | Hneq].
    + rewrite list_lookup_insert_eq in Hb' by done. simplify_eq.
      rewrite Hp. eauto.
    + rewrite list_lookup_insert_ne in Hb' by done. eauto.
Qed.

Lemma final_bind {A B} (m : M A) (f : A → M B) s :
  final_state ((m ≫= f) s)
  = match m s with
    | Ok a s1 => final_state (f a s1)
    | Raise _ s1 => s1
    end.
Proof. unfold mbind, M_bind. by destruct (m s). Qed.

Lemma keeps_ret {A} (a : A) : keeps (mret a).
Proof. by intros s. Qed.

Lemma keeps_raise {A} e : keeps (raise e : M A).
Proof. by intros s. Qed.

Lemma keeps_get {A} (f : Compiler → A) : keeps (get f).
Proof. by intros s. Qed.

Lemma keeps_bind {A B} (m : M A) (f : A → M B) :
  keeps m → (∀ a, keeps (f a)) → keeps (m ≫= f).
Proof.
  intros Hm Hf s HK. rewrite final_bind. specialize (Hm s HK).
  destruct (m s) as [a s1 | e s1]; simpl in *; [by apply Hf | done].
Qed.

Lemma keeps_unpack {A} (x : option A) : keeps (unpack x).
Proof. destruct x; [apply keeps_ret | apply keeps_raise]. Qed.

(** A computation that touches neither the block store, nor the module,
    nor the cursor. *)
Lemma keeps_frame {A} (m : M A) :
  (∀ s, block_store (final_state (m s)) = block_store s ∧
        module (final_state (m s)) = module s ∧
        builder (final_state (m s)) = builder s) →
  keeps m.
Proof.
  intros H s. destruct (H s) as (Hb & Hm & Hc).
  apply well_rooted_same; [done | by rewrite Hc | by rewrite Hm].
Qed.

Lemma keeps_fresh_uid : keeps fresh_uid.
Proof. by apply keeps_frame. Qed.

Lemma keeps_get_block b : keeps (get_block b).
Proof. apply keeps_frame. intros s. unfold get_block. by case_match. Qed.

Lemma keeps_add_global n g : keeps (Globals.add_global n g).
Proof.
  intros s. unfold Globals.add_global.
  destruct (Globals.is_used (module s) n); simpl; [done|].
  apply well_rooted_same; [done..|].
  intros k [x Hx]. simpl. rewrite find_app, Hx. by eexists.
Qed.

Lemma keeps_get_global n : keeps (Globals.get_global n).
Proof.
  apply keeps_frame. intros s. unfold Globals.get_global. by repeat case_match.
Qed.

Lemma keeps_new_Function fnty n : keeps (Ir.new_Function fnty n).
Proof. apply keeps_bind; [apply keeps_add_global | intros; apply keeps_ret]. Qed.

Lemma keeps_new_GlobalVariable typ n init c l :
  keeps (Ir.new_GlobalVariable typ n init c l).
Proof. apply keeps_bind; [apply keeps_add_global | intros; apply keeps_ret]. Qed.

Lemma is_Some_find_replace m fn g k :
  is_Some (Globals.find m k) → is_Some (Globals.find (Globals.replace m fn g) k).
Proof.
  intros [x Hx]. rewrite find_replace, Hx. by destruct (String.eqb fn k); eexists.
Qed.

Lemma keeps_Function_append_basic_block fn label :
  keeps (Ir.Function_append_basic_block fn label).
Proof.
  intros s (K1 & K2 & K3). unfold Ir.Function_append_basic_block.
  destruct (Globals.find (module s) fn) as [[f|]|] eqn:Hf; simpl; try done.
  set (s' := set_module _ _).
  assert (blocks_kept s s') as Hk.
  { intros b o Ho. exists o. split; [|done]. by apply lookup_app_l_Some. }
  split_and!.
  - intros b Hb. eapply rooted_mono; eauto.
  - intros b o Ho Hne. simpl in Ho.
    apply lookup_app_Some in Ho as [Ho | [_ Ho]]; [eapply rooted_mono; eauto|].
    destruct (b - length (block_store s)); simpl in Ho; [|done]. by simplify_eq.
  - intros b o Ho. simpl in Ho |- *.
    apply lookup_app_Some in Ho as [Ho | [_ Ho]].
    + apply is_Some_find_replace. eauto.
    + destruct (b - length (block_store s)); simpl in Ho; [|done]. simplify_eq.
      simpl. erewrite find_replace_same by exact Hf. by eexists.
Qed.

Lemma keeps_Block_delete b : keeps (Ir.Block_delete b).
Proof. apply keeps_raise. Qed.

Lemma keeps_new_IRBuilder b : keeps (Ir.new_IRBuilder b).
Proof. apply keeps_bind; [apply keeps_get_block | intros; apply keeps_ret]. Qed.

Lemma keeps_block : keeps Ir.block.
Proof.
  apply keeps_bind; [apply keeps_get|]. intros [b|]; [apply keeps_ret | apply keeps_raise].
Qed.

Lemma keeps_is_terminated : keeps Ir.is_terminated.
Proof.
  apply keeps_bind; [apply keeps_block | intros].
  apply keeps_bind; [apply keeps_get_block | intros; apply keeps_ret].
Qed.

End Rooted.

Section RootedEmission.

Implicit Types (s : Compiler) (o : BlockObj) (i t : Value).

Lemma well_rooted_set_next_uid n s : well_rooted s → well_rooted (set_next_uid n s).
Proof. by apply well_rooted_same. Qed.

Lemma well_rooted_emitted cls typ op ops b o s :
  well_rooted s → _block (builder s) = Some b → block_store s !! b = Some o →
  well_rooted (emitted cls typ op ops b o s).
Proof.
  intros HK Hb Ho.
  eapply (well_rooted_update s _ b o); [done | by apply HK | done | done..|].
  intros i'. apply elem_of_inserted.
Qed.

Lemma well_rooted_terminated cls op ops b o s :
  well_rooted s → _block (builder s) = Some b → block_store s !! b = Some o →
  well_rooted (terminated cls op ops b o s).
Proof.
  intros HK Hb Ho.
  eapply (well_rooted_update s _ b o); [done | by apply HK | done | done..|].
  intros i'. apply elem_of_inserted.
Qed.

(** Creating and emitting an instruction, whatever its class. *)
Lemma keeps_emit cls typ op ops :
  keeps (i ← Ir.new_instruction cls typ op ops; Ir._insert i;; mret i).
Proof.
  intros s HK.
  destruct (_block (builder s)) as [b|] eqn:Hb.
  - destruct (block_store s !! b) as [o|] eqn:Ho.
    + rewrite (emit_Ok _ _ _ _ _ _ _ Hb Ho). by apply well_rooted_emitted.
    + unfold Ir.new_instruction, Ir._insert, Ir.block, get_block, get, fresh_uid,
        mbind, M_bind, mret, M_ret.
      simpl. rewrite Hb. simpl. rewrite Hb. simpl. rewrite Ho.
      by apply well_rooted_set_next_uid.
  - unfold Ir.new_instruction, Ir.block, get, mbind, M_bind, mret, M_ret.
    simpl. by rewrite Hb.
Qed.

(** A terminator that was emitted: where it went, and the state after. *)
Lemma terminate_inv cls op ops s a s1 :
  (t ← Ir.new_instruction cls VoidType op ops; Ir._set_terminator t) s = Ok a s1 →
  ∃ b o, _block (builder s) = Some b ∧ block_store s !! b = Some o ∧
         terminator o = None ∧ s1 = terminated cls op ops b o s.
Proof.
  intros H.
  destruct (_block (builder s)) as [b|] eqn:Hb.
  - destruct (block_store s !! b) as [o|] eqn:Ho.
    + destruct (terminator o) as [t0|] eqn:Ht.
      * by rewrite (terminate_terminated _ _ _ _ _ _ _ Hb Ho Ht) in H.
      * rewrite (terminate_Ok _ _ _ _ _ _ Hb Ho Ht) in H. simplify_eq.
        by exists b, o.
    + unfold Ir.new_instruction, Ir._set_terminator, Ir.is_terminated,
        Ir.block, get_block, get, fresh_uid, raise, mbind, M_bind, mret, M_ret in H.
      simpl in H. rewrite Hb in H. simpl in H. rewrite Hb in H. simpl in H.
      by rewrite Ho in H.
  - unfold Ir.new_instruction, Ir.block, get, mbind, M_bind, mret, M_ret in H.
    simpl in H. by rewrite Hb in H.
Qed.

Lemma keeps_terminate cls op ops :
  keeps (t ← Ir.new_instruction cls VoidType op ops; Ir._set_terminator t).
Proof.
  intros s HK.
  destruct (_block (builder s)) as [b|] eqn:Hb.
  - destruct (block_store s !! b) as [o|] eqn:Ho.
    + destruct (terminator o) as [t0|] eqn:Ht.
      * rewrite (terminate_terminated _ _ _ _ _ _ _ Hb Ho Ht).
        by apply well_rooted_set_next_uid.
      * rewrite (terminate_Ok _ _ _ _ _ _ Hb Ho Ht).
        by apply well_rooted_terminated.
    + unfold Ir.new_instruction, Ir._set_terminator, Ir.is_terminated,
        Ir.block, get_block, get, fresh_uid, raise, mbind, M_bind, mret, M_ret.
      simpl. rewrite Hb. simpl. rewrite Hb. simpl. rewrite Ho.
      by apply well_rooted_set_next_uid.
  - unfold Ir.new_instruction, Ir.block, get, mbind, M_bind, mret, M_ret.
    simpl. by rewrite Hb.
Qed.

(** The blocks a terminator names can be reached once it is emitted
    into a block that can. *)
Lemma terminated_targets cls op ops b o s target :
  is_terminator_class cls = true →
  rooted s b → block_store s !! b = Some o → Block target ∈ ops →
  rooted (terminated cls op ops b o s) target.
Proof.
  intros Hc Hr Ho Hin.
  assert (b < length (block_store s)) by (by eapply lookup_lt_Some).
  eapply (rooted_step _ b _ (Instruction (next_uid s) cls VoidType op ops)).
  - eapply rooted_mono; [|exact Hr].
    eapply (blocks_kept_update s _ b o); [done | done | done |].
    intros i'. apply elem_of_inserted.
  - unfold terminated. simpl. by rewrite list_lookup_insert_eq.
  - simpl. apply elem_of_app. right. by left.
  - done.
Qed.

Lemma branch_rooted target s a s1 :
  well_rooted s → Ir.branch target s = Ok a s1 → rooted s1 target.
Proof.
  intros HK H. apply terminate_inv in H as (b & o & Hb & Ho & Ht & ->).
  apply terminated_targets; [done | by apply HK | done |]. by left.
Qed.

Lemma cbranch_rooted c b1 b2 s a s1 :
  well_rooted s → Ir.cbranch c b1 b2 s = Ok a s1 → rooted s1 b1 ∧ rooted s1 b2.
Proof.
  intros HK H. apply terminate_inv in H as (b & o & Hb & Ho & Ht & ->).
  split; (apply terminated_targets; [done | by apply HK | done |]).
  - right. by left.
  - right. right. by left.
Qed.

Lemma keeps_ret_instr v : keeps (Ir.ret v).
Proof. apply keeps_terminate. Qed.

Lemma keeps_branch b : keeps (Ir.branch b).
Proof. apply keeps_terminate. Qed.

Lemma keeps_cbranch c (b1 b2 : nat) : keeps (Ir.cbranch c b1 b2).
Proof. apply keeps_terminate. Qed.

Lemma keeps_alloca typ : keeps (Ir.alloca typ).
Proof.
  destruct typ as [t|]; [|apply keeps_raise].
  destruct t; first [apply keeps_raise | apply keeps_emit].
Qed.

Lemma keeps_store v ptr : keeps (Ir.store v ptr).
Proof.
  unfold Ir.store. repeat case_match; try apply keeps_raise. apply keeps_emit.
Qed.

Lemma keeps_load ptr : keeps (Ir.load ptr).
Proof.
  unfold Ir.load. repeat case_match; try apply keeps_raise. apply keeps_emit.
Qed.

Lemma keeps_binop op l r : keeps (Ir._binop op l r).
Proof.
  unfold Ir._binop. repeat case_match; try apply keeps_raise. apply keeps_emit.
Qed.

Lemma keeps_icmp_signed op l r : keeps (Ir.icmp_signed op l r).
Proof.
  unfold Ir.icmp_signed. repeat case_match; try apply keeps_raise.
  all: apply keeps_emit.
Qed.

Lemma keeps_fcmp_ordered op l r : keeps (Ir.fcmp_ordered op l r).
Proof.
  unfold Ir.fcmp_ordered. repeat case_match; try apply keeps_raise.
  all: apply keeps_emit.
Qed.

Lemma keeps_castop op v typ : keeps (Ir._castop op v typ).
Proof.
  unfold Ir._castop. repeat case_match; try apply keeps_raise;
    try apply keeps_ret. apply keeps_emit.
Qed.

Lemma keeps_check_args ts : ∀ args0, keeps (Ir.check_args ts args0).
Proof.
  induction ts as [|t ts IH]; intros args0; simpl; [apply keeps_ret|].
  repeat case_match; try apply keeps_raise. apply IH.
Qed.

Lemma keeps_call fn args0 : keeps (Ir.call fn args0).
Proof.
  apply keeps_bind.
  { unfold Ir.function_type_of. repeat case_match;
      try apply keeps_raise; apply keeps_ret. }
  intros ft. destruct ft; try apply keeps_raise.
  apply keeps_bind; [apply keeps_check_args | intros].
  apply keeps_emit.
Qed.

Lemma keeps_append_basic_block label : keeps (Ir.append_basic_block label).
Proof.
  apply keeps_bind; [apply keeps_block | intros].
  apply keeps_bind; [apply keeps_get_block | intros].
  apply keeps_Function_append_basic_block.
Qed.

Lemma keeps_Env_new r p n : keeps (Env.new r p n).
Proof. by apply keeps_frame. Qed.

Lemma keeps_Env_define self n v (ty : PyType) : keeps (Env.define self n v ty).
Proof. apply keeps_frame. intros s. unfold Env.define. by case_match. Qed.

Lemma keeps_Env_lookup self n : keeps (Env.lookup self n).
Proof.
  apply keeps_frame. intros s. unfold Env.lookup. by rewrite resolve_pure.
Qed.

Lemma keeps_increment_counter : keeps increment_counter.
Proof. by apply keeps_frame. Qed.

Lemma keeps_print l : keeps (print l).
Proof. by apply keeps_frame. Qed.

Lemma keeps_type_map k : keeps (type_map k).
Proof. unfold type_map. repeat case_match; by apply keeps_frame. Qed.

Lemma keeps_set_env e : keeps (modify (set_env e)).
Proof. by apply keeps_frame. Qed.

Lemma keeps_set_breakpoints b : keeps (modify (set_breakpoints b)).
Proof. by apply keeps_frame. Qed.

Lemma keeps_set_continues b : keeps (modify (set_continues b)).
Proof. by apply keeps_frame. Qed.

Lemma keeps_push_breakpoints b :
  keeps (modify (λ s, set_breakpoints (breakpoints s ++ [b]) s)).
Proof. by apply keeps_frame. Qed.

Lemma keeps_push_continues b :
  keeps (modify (λ s, set_continues (continues s ++ [b]) s)).
Proof. by apply keeps_frame. Qed.

Lemma keeps_record_error e :
  keeps (modify (λ s, set_errors (errors s ++ [e]) s)).
Proof. by apply keeps_frame. Qed.

Lemma keeps_top l : keeps (top l).
Proof. unfold top. case_match; [apply keeps_ret | apply keeps_raise]. Qed.

Lemma keeps_pop l : keeps (pop l).
Proof. destruct l; [apply keeps_raise | apply keeps_ret]. Qed.

End RootedEmission.

Create HintDb keeps discriminated.

#[local] Hint Resolve keeps_ret keeps_raise keeps_get keeps_unpack
  keeps_fresh_uid keeps_get_block keeps_add_global keeps_get_global
  keeps_new_Function keeps_new_GlobalVariable
  keeps_Function_append_basic_block keeps_Block_delete keeps_new_IRBuilder
  keeps_block keeps_is_terminated keeps_ret_instr keeps_branch
  keeps_cbranch keeps_alloca keeps_store keeps_load keeps_binop
  keeps_icmp_signed keeps_fcmp_ordered keeps_castop keeps_call
  keeps_append_basic_block keeps_Env_new keeps_Env_define keeps_Env_lookup
  keeps_increment_counter keeps_print keeps_type_map
  keeps_set_env keeps_set_breakpoints keeps_set_continues
  keeps_push_breakpoints keeps_push_continues keeps_record_error
  keeps_top keeps_pop : keeps.

#[local] Hint Extern 1 (keeps (Ir.new_instruction _ _ _ _ ≫= _)) =>
  first [ apply keeps_emit | apply keeps_terminate ] : keeps.

Ltac keeps_tac :=
  repeat first
    [ solve [eauto with keeps]
    | match goal with
      | |- keeps (match ?x with _ => _ end) => destruct x
      | |- keeps (if ?x then _ else _) => destruct x
      end
    | apply keeps_bind; [| intros ?] ].

Section RootedMethods.

Lemma keeps_convert_string str : keeps (convert_string str).
Proof. unfold convert_string. keeps_tac. Qed.

Lemma keeps_power_operation_float b e t : keeps (power_operation_float b e t).
Proof. unfold power_operation_float. keeps_tac. Qed.

Lemma keeps_power_operation b e t : keeps (power_operation b e t).
Proof.
  unfold power_operation. pose proof keeps_power_operation_float. keeps_tac.
Qed.

Lemma keeps_builtin_printf params t : keeps (builtin_printf params t).
Proof. unfold builtin_printf. keeps_tac. Qed.

Lemma keeps_sequence (l : list (M unit)) :
  Forall keeps l → keeps (foldr (λ stmt rest, stmt;; rest) (mret tt) l).
Proof.
  induction 1 as [|m l Hm Hl IH]; simpl; [apply keeps_ret|].
  apply keeps_bind; [done | by intros].
Qed.

Lemma keeps_visit_let_statement n (value : M Resolved) :
  keeps value → keeps (visit_let_statement n value).
Proof. intros H. unfold visit_let_statement. keeps_tac. Qed.

Lemma keeps_visit_return_statement (value : M Resolved) :
  keeps value → keeps (visit_return_statement value).
Proof. intros H. unfold visit_return_statement. keeps_tac. Qed.

Lemma keeps_store_params fn ts : ∀ i, keeps (store_params fn i ts).
Proof. induction ts as [|t ts IH]; intros i; simpl; keeps_tac. Qed.

Lemma keeps_define_params e ts : ∀ ns ps, keeps (define_params e ts ns ps).
Proof.
  induction ts as [|t ts IH]; intros ns ps; simpl; [keeps_tac|].
  destruct ns, ps; keeps_tac.
Qed.

Lemma keeps_param_types_of ps : keeps (param_types_of ps).
Proof. induction ps as [|p ps IH]; simpl; keeps_tac. Qed.

Lemma keeps_visit_assign_statement n (value : M Resolved) :
  keeps value → keeps (visit_assign_statement n value).
Proof. intros H. unfold visit_assign_statement. keeps_tac. Qed.

Lemma keeps_visit_break_statement : keeps visit_break_statement.
Proof. unfold visit_break_statement. keeps_tac. Qed.

Lemma keeps_visit_continue_statement : keeps visit_continue_statement.
Proof. unfold visit_continue_statement. keeps_tac. Qed.

Lemma keeps_visit_infix_expression op (l r : M Resolved) :
  keeps l → keeps r → keeps (visit_infix_expression op l r).
Proof.
  intros Hl Hr. unfold visit_infix_expression.
  pose proof keeps_power_operation. pose proof keeps_power_operation_float.
  keeps_tac.
Qed.

Lemma keeps_resolve_arguments (ps : list (M Resolved)) :
  Forall keeps ps → keeps (resolve_arguments ps).
Proof. induction 1 as [|p ps Hp Hps IH]; simpl; keeps_tac. Qed.

Lemma keeps_visit_call_expression n (ps : list (M Resolved)) :
  Forall keeps ps → keeps (visit_call_expression n ps).
Proof.
  intros H. unfold visit_call_expression.
  pose proof (keeps_resolve_arguments ps H). pose proof keeps_builtin_printf.
  keeps_tac.
Qed.

End RootedMethods.

Section CursorMoves.

Lemma well_rooted_position b a s :
  well_rooted s → rooted s b →
  well_rooted (set_builder {| _block := Some b; _anchor := a |} s).
Proof.
  intros (K1 & K2 & K3) Hr.
  assert (blocks_kept s (set_builder {| _block := Some b; _anchor := a |} s)) as Hk
    by (by apply blocks_kept_same).
  split_and!.
  - intros b' [= <-]. by eapply rooted_mono.
  - intros b' o Ho Hne. eapply rooted_mono; eauto.
  - intros b' o Ho. eauto.
Qed.

Lemma rooted_set_builder x s :
  well_rooted s → (∀ b, _block x = Some b → rooted s b) →
  well_rooted (final_state (modify (set_builder x) s)).
Proof.
  intros HK Hx. destruct x as [[b|] a]; simpl.
  - apply well_rooted_position; auto.
  - destruct HK as (K1 & K2 & K3).
    assert (blocks_kept s (set_builder {| _block := None; _anchor := a |} s)) as Hk
      by (by apply blocks_kept_same).
    split_and!; [done | | exact K3].
    intros b o Ho Hne. eapply rooted_mono; eauto.
Qed.

Lemma rooted_position_at_start b s :
  well_rooted s → rooted s b →
  well_rooted (final_state (Ir.position_at_start b s)).
Proof. intros. by apply well_rooted_position. Qed.

Lemma rooted_position_at_end b s :
  well_rooted s → rooted s b →
  well_rooted (final_state (Ir.position_at_end b s)).
Proof.
  intros HK Hr. unfold Ir.position_at_end, get_block, mbind, M_bind.
  destruct (block_store s !! b); simpl; [|done]. by apply well_rooted_position.
Qed.

Lemma branch_then_rooted target s a s1 :
  well_rooted s → (Ir.branch target;; mret tt) s = Ok a s1 → rooted s1 target.
Proof.
  intros HK. unfold mbind, M_bind.
  destruct (Ir.branch target s) as [v s'|] eqn:E; [|done].
  intros [= _ <-]. by eapply branch_rooted.
Qed.

Lemma new_IRBuilder_inv b s x s1 :
  Ir.new_IRBuilder b s = Ok x s1 → _block x = Some b.
Proof.
  unfold Ir.new_IRBuilder, get_block, mbind, M_bind.
  destruct (block_store s !! b); [|done]. by intros [= <- _].
Qed.

(** The first block appended to a function that was just declared is
    its entry. *)
Lemma function_entry_rooted fnty n label s a s1 b s2 :
  well_rooted s →
  Ir.new_Function fnty n s = Ok a s1 →
  Ir.Function_append_basic_block n label s1 = Ok b s2 →
  rooted s2 b.
Proof.
  intros (_ & _ & K3) Hnew Happ. apply rooted_entry.
  unfold Ir.new_Function, Globals.add_global, mbind, M_bind in Hnew.
  destruct (Globals.is_used (module s) n) eqn:Hused; [done|].
  injection Hnew as _ <-.
  unfold Globals.is_used in Hused. apply orb_false_iff in Hused as [_ Hfind].
  apply bool_decide_eq_false in Hfind.
  unfold Ir.Function_append_basic_block in Happ. simpl in Happ.
  match type of Happ with
  | context [Globals.find ?m n] => destruct (Globals.find m n) as [[f|]|]
  end; try done.
  injection Happ as <- <-. simpl.
  eexists. split.
  - by apply list_lookup_middle.
  - intros b' o' Hlt Ho'. simpl in Ho'. rewrite lookup_app_l in Ho' by done.
    simpl. intros Hp. apply Hfind. rewrite <- Hp. by eapply K3.
Qed.

End CursorMoves.

(** One step of a computation: the run of its first part either raised,
    which ends it, or returned, and the facts about rooted blocks are
    carried over to the state it left. *)
Ltac carry Hext :=
  repeat match type of Hext with
         | extends ?s0 ?s1 =>
             match goal with
             | H : rooted s0 ?b |- _ => apply (extends_rooted s0 s1 b Hext) in H
             end
         end.

Ltac kroot :=
  lazymatch goal with
  | |- well_rooted (final_state (?m ?s)) =>
      first
        [ let Hk := fresh "Hk" in
          assert (keeps m) as Hk by keeps_tac; apply Hk; assumption
        | apply rooted_position_at_start; assumption
        | apply rooted_position_at_end; assumption
        | apply rooted_set_builder;
          [assumption | intros ? ?; simplify_eq/=; assumption] ]
  end.

Ltac kstep :=
  rewrite final_bind;
  lazymatch goal with
  | |- well_rooted (match ?m ?s with _ => _ end) =>
      let Hs := fresh "Hs" in
      let Hext := fresh "Hext" in
      let HK := fresh "HK" in
      let E := fresh "E" in
      assert (sound m) as Hs by sound_tac;
      assert (well_rooted (final_state (m s))) as HK by kroot;
      pose proof (Hs s) as Hext;
      clear Hs;
      destruct (m s) as [? ?|? ?] eqn:E; simpl in Hext, HK; [| exact HK];
      carry Hext
  end.

(** Steps whose result tells that a block has a predecessor. *)
Ltac kcbranch :=
  kstep;
  match goal with
  | E : Ir.cbranch _ _ _ ?s = Ok _ _, HK : well_rooted ?s |- _ =>
      apply (cbranch_rooted _ _ _ _ _ _ HK) in E as [? ?]
  end.

Ltac kbranch :=
  kstep;
  match goal with
  | E : Ir.branch _ ?s = Ok _ _, HK : well_rooted ?s |- _ =>
      apply (branch_rooted _ _ _ _ HK) in E
  end.

Ltac kpair :=
  match goal with
  | |- context [let '(_, _) := ?a in _] => destruct a
  end.

(** The step that closes an arm: nothing if the block is terminated, a
    branch to [endif] otherwise. *)
Ltac karm :=
  kstep;
  match goal with
  | |- context [if ?t then mret tt else _] =>
      destruct t; kstep;
      try match goal with
          | E : (Ir.branch _ ≫= _) ?s = Ok _ _, HK : well_rooted ?s |- _ =>
              apply (branch_then_rooted _ _ _ _ HK) in E
          end
  end.

Section RootedControlFlow.

Lemma keeps_visit_while_statement (c : M Resolved) (body : M unit) :
  sound c → keeps c → sound body → keeps body →
  keeps (visit_while_statement c body).
Proof.
  intros Hsc Hkc Hsb Hkb s HK. unfold visit_while_statement.
  kstep. kpair. kstep. kstep. kstep. kstep.
  kcbranch. kstep. kstep. kstep. kpair.
  kstep. kroot.
Qed.

Lemma keeps_visit_for_statement (v : M unit) (c : M Resolved) (a b : M unit) :
  sound v → keeps v → sound c → keeps c → sound a → keeps a →
  sound b → keeps b →
  keeps (visit_for_statement v c a b).
Proof.
  intros Hsv Hkv Hsc Hkc Hsa Hka Hsb Hkb s HK. unfold visit_for_statement.
  do 10 kstep. kbranch. kstep. kstep. kstep. kstep. kpair.
  kcbranch. kstep. kstep. kstep. kstep. kroot.
Qed.

Lemma keeps_if_then pred (body : M unit) :
  sound body → keeps body → keeps (Ir.if_then pred body).
Proof.
  intros Hsb Hkb s HK. unfold Ir.if_then.
  kstep. kstep. kstep. kstep. kcbranch. kstep. kstep. karm; kroot.
Qed.

Lemma keeps_visit_if_statement (c : M Resolved) (cons : M unit) alt :
  sound c → keeps c → sound cons → keeps cons →
  (∀ a, alt = Some a → sound a ∧ keeps a) →
  keeps (visit_if_statement c cons alt).
Proof.
  intros Hsc Hkc Hscons Hkcons Halt s HK. unfold visit_if_statement.
  kstep. kpair. destruct alt as [a|].
  - destruct (Halt a eq_refl) as [Hsa Hka].
    do 6 kstep. kcbranch. kstep. kstep.
    karm; kstep; kstep; karm; cbn [negb orb]; kroot.
  - by apply keeps_if_then.
Qed.

Lemma keeps_visit_function_statement n ps rt (body : M unit) :
  sound body → keeps body → keeps (visit_function_statement n ps rt body).
Proof.
  intros Hsb Hkb s HK. unfold visit_function_statement.
  pose proof sound_param_types_of. pose proof sound_store_params.
  pose proof sound_define_params. pose proof keeps_param_types_of.
  pose proof keeps_store_params. pose proof keeps_define_params.
  kstep. kstep. kstep. kstep.
  match goal with
  | E1 : Ir.new_Function _ _ ?s1 = Ok _ _,
    E2 : Ir.Function_append_basic_block _ _ _ = Ok _ _,
    HK1 : well_rooted ?s1 |- _ =>
      pose proof (function_entry_rooted _ _ _ _ _ _ _ _ HK1 E1 E2) as Hentry
  end.
  (* the builder that is restored at the end *)
  rewrite final_bind.
  match goal with
  | |- context [get builder ?s0] =>
      change (get builder s0) with (Ok (builder s0) s0); cbv iota beta;
      assert (∀ b, _block (builder s0) = Some b → rooted s0 b) as Hprev
        by (intros b Hb; match goal with HK : well_rooted s0 |- _ => by apply HK end);
      generalize dependent (builder s0); intros previous_builder Hprev
  end.
  destruct previous_builder as [[pb|] pa]; [specialize (Hprev pb eq_refl)|clear Hprev].
  - kstep.
    match goal with
    | E : Ir.new_IRBuilder _ _ = Ok _ _ |- _ =>
        pose proof (new_IRBuilder_inv _ _ _ _ E) as Hcur
    end.
    do 10 kstep. kroot.
  - kstep.
    match goal with
    | E : Ir.new_IRBuilder _ _ = Ok _ _ |- _ =>
        pose proof (new_IRBuilder_inv _ _ _ _ E) as Hcur
    end.
    do 10 kstep. kroot.
Qed.

End RootedControlFlow.

Section RootedTraversal.

Lemma keeps_resolve_value node : keeps (resolve_value node).
Proof.
  induction node using Node_ind'; simpl; try apply keeps_ret.
  - apply keeps_bind; [|intros; apply keeps_ret].
    by apply keeps_visit_infix_expression.
  - apply keeps_bind; [|intros; apply keeps_ret].
    apply keeps_visit_call_expression. by apply Forall_map.
  - keeps_tac.
  - keeps_tac.
  - pose proof keeps_convert_string. keeps_tac.
Qed.

Lemma keeps_compile node : keeps (compile node).
Proof.
  induction node using Node_ind'; simpl; try apply keeps_ret.
  - apply keeps_sequence. by apply Forall_map.
  - done.
  - apply keeps_visit_let_statement, keeps_resolve_value.
  - apply keeps_visit_function_statement; [apply sound_compile | done].
  - apply keeps_sequence. by apply Forall_map.
  - apply keeps_visit_return_statement, keeps_resolve_value.
  - apply keeps_visit_assign_statement, keeps_resolve_value.
  - apply keeps_visit_if_statement;
      [apply sound_resolve_value | apply keeps_resolve_value
      | apply sound_compile | done |].
    intros a Ha. destruct e as [a'|]; [|discriminate].
    injection Ha as <-. split; [apply sound_compile | by eapply H].
  - apply keeps_visit_while_statement;
      [apply sound_resolve_value | apply keeps_resolve_value
      | apply sound_compile | done].
  - apply keeps_visit_break_statement.
  - apply keeps_visit_continue_statement.
  - apply keeps_visit_for_statement;
      [apply sound_compile | done
      | apply sound_resolve_value | apply keeps_resolve_value
      | apply sound_compile | done | apply sound_compile | done].
  - apply keeps_bind; [|intros; apply keeps_ret].
    apply keeps_visit_infix_expression; apply keeps_resolve_value.
  - apply keeps_bind; [|intros; apply keeps_ret].
    apply keeps_visit_call_expression.
    apply Forall_map, Forall_forall. intros; apply keeps_resolve_value.
Qed.

Lemma well_rooted_new_Compiler : well_rooted new_Compiler.
Proof.
  split_and!.
  - intros b H. change (_block (builder new_Compiler)) with (@None nat) in H. done.
  - intros b o H. change (block_store new_Compiler) with (@nil BlockObj) in H. done.
  - intros b o H. change (block_store new_Compiler) with (@nil BlockObj) in H. done.
Qed.

End RootedTraversal.

(** ** Terminators of the emitted blocks *)

Section Blocks.

Lemma terminators_ok_new_Compiler : terminators_ok new_Compiler.
Proof. intros b o H. change (block_store new_Compiler) with (@nil BlockObj) in H. done. Qed.

(** C1, at the failing input. [fn f() -> void { let x: int = 5; }]
    compiles without error, and the entry block of [f] is in the module
    with two instructions, none of them a terminator: the function
    visitor leaves the block its body ends in open, where the [if]/[else]
    visitor closes the blocks its arms end in. *)
Lemma entry_block_left_open :
  ∃ s fobj o,
    compile fn_without_return new_Compiler = Ok tt s ∧
    errors s = [] ∧
    Globals.find (module s) "f" = Some (GFunction fobj) ∧
    blocks fobj = [0] ∧
    block_store s !! 0 = Some o ∧
    block_name o = "f_entry" ∧
    length (instructions o) = 2 ∧
    List.filter is_terminator (instructions o) = [] ∧
    terminator o = None.
Proof.
  do 3 eexists. split; [vm_compute; reflexivity|].
  split_and!; reflexivity.
Qed.

Lemma find_Some_elem m n g : Globals.find m n = Some g → ∃ k, (k, g) ∈ m.
Proof.
  induction m as [|[k g0] m IH]; simpl; [done|].
  destruct (String.eqb k n).
  - intros [= ->]. exists k. by left.
  - intros H. destruct (IH H) as [k' Hk']. exists k'. by right.
Qed.

Lemma blocks_listed_new_Compiler : blocks_listed new_Compiler.
Proof.
  intros fn f b Hf Hb. apply find_Some_elem in Hf as [k Hk].
  assert (Forall (λ p, ∀ f0, p.2 = GFunction f0 → blocks f0 = [])
            (module new_Compiler)) as Hall.
  { change (module new_Compiler) with
      [("printf",
        GFunction {| function_type :=
                       FunctionType (IntType 32) [PointerType (IntType 8)] true;
                     function_args := [Argument "printf" 0 (PointerType (IntType 8))];
                     blocks := [] |});
       ("true",
        GVariable {| gv_type := PointerType (IntType 1);
                     initializer := Some (Constant (IntType 1) (CInt 1));
                     global_constant := true; linkage := "" |});
       ("false",
        GVariable {| gv_type := PointerType (IntType 1);
                     initializer := Some (Constant (IntType 1) (CInt 0));
                     global_constant := true; linkage := "" |})].
    repeat constructor; simpl; intros f0 [= <-]; done. }
  rewrite Forall_forall in Hall. specialize (Hall _ Hk f eq_refl).
  rewrite Hall in Hb. by apply elem_of_nil in Hb.
Qed.

(** X1. What the generator does guarantee of the blocks it emits. Whatever
    program is compiled, and whether compilation returns or raises, every
    basic block of every function of the module holds at most one
    terminator instruction: none while its [terminator] field is unset,
    and exactly the recorded one once it is set; and if it holds an
    instruction at all, it can be reached from the entry block of a
    function along the branches the blocks end in ([rooted]). *)
Theorem blocks_have_at_most_one_terminator (program : Node) (fn : string)
    (f : FunctionObj) (b : nat) :
  let s := final_state (compile program new_Compiler) in
  Globals.find (module s) fn = Some (GFunction f) → b ∈ blocks f →
  ∃ o, block_store s !! b = Some o ∧
       length (List.filter is_terminator (instructions o)) ≤ 1 ∧
       (terminator o = None → List.filter is_terminator (instructions o) = []) ∧
       (∀ t, terminator o = Some t →
             is_terminator t = true ∧
             List.filter is_terminator (instructions o) = [t]) ∧
       (instructions o ≠ [] → rooted s b).
Proof.
  intros s Hf Hb.
  destruct (sound_compile program new_Compiler) as (Hok & _ & _ & Hlisted).
  specialize (Hlisted blocks_listed_new_Compiler fn f b Hf Hb).
  apply lookup_lt_is_Some in Hlisted as [o Ho]. exists o. split; [exact Ho|].
  specialize (Hok terminators_ok_new_Compiler b o Ho).
  destruct (keeps_compile program new_Compiler well_rooted_new_Compiler)
    as (_ & Hrooted & _).
  specialize (Hrooted b o Ho).
  unfold block_ok in Hok.
  destruct (terminator o) as [t|].
  - destruct Hok as [Ht Hfil]. rewrite Hfil.
    split_and!; [simpl; lia | done | | done]. by intros ? [= <-].
  - rewrite Hok. split_and!; [simpl; lia | done | done | done].
Qed.

Lemma blocks_have_at_most_one_terminator_witness :
  let s := final_state (compile fn_if_else_returns new_Compiler) in
  ∃ o, block_store s !! 1 = Some o ∧
       length (List.filter is_terminator (instructions o)) ≤ 1 ∧
       (terminator o = None → List.filter is_terminator (instructions o) = []) ∧
       (∀ t, terminator o = Some t →
             is_terminator t = true ∧
             List.filter is_terminator (instructions o) = [t]) ∧
       (instructions o ≠ [] → rooted s 1).
Proof.
  intros s.
  eapply (blocks_have_at_most_one_terminator fn_if_else_returns "main" _ 1).
  - vm_compute. reflexivity.
  - simpl. right. left.
Defined.

End Blocks.
(** ** Relations that every generator method respects *)

Create HintDb respects discriminated.

Section Frame.

Context (R Q : Compiler → Compiler → Prop).

Hypothesis R_refl : ∀ s, R s s.
Hypothesis R_trans : ∀ s1 s2 s3, R s1 s2 → R s2 s3 → R s1 s3.
Hypothesis Q_refl : ∀ s, Q s s.
Hypothesis RQ_trans : ∀ s1 s2 s3, R s1 s2 → Q s2 s3 → Q s1 s3.

(** The state changes the methods are made of. *)
Hypothesis L_builder : ∀ b s, R s (set_builder b s).
Hypothesis L_next_uid : ∀ s, R s (set_next_uid (S (next_uid s)) s).
Hypothesis L_put_block :
  ∀ b o s, R s (set_block_store (<[b := o]> (block_store s)) s).
Hypothesis L_append_block :
  ∀ fn label f s, Globals.find (module s) fn = Some (GFunction f) →
                  R s (appended fn label f s).
Hypothesis L_add_global :
  ∀ n g s, Globals.is_used (module s) n = false →
           R s (set_module (module s ++ [(n, g)]) s).
Hypothesis L_define :
  ∀ r e n v t s, env_store s !! r = Some e → R s (defined r e n v t s).
Hypothesis L_counter : ∀ s, R s (set_counter (counter s + 1) s).
Hypothesis L_stdout : ∀ l s, R s (set_stdout (stdout s ++ [l]) s).
Hypothesis L_errors : ∀ e s, R s (set_errors (errors s ++ [e]) s).
Hypothesis L_enter :
  ∀ e s, R s (set_env (length (env_store s)) (set_env_store (env_store s ++ [e]) s)).
Hypothesis L_restore : ∀ s1 s2, R s1 s2 → R s1 (set_env (env s1) s2).
Hypothesis L_breakpoints : ∀ b s, R s (set_breakpoints b s).
Hypothesis L_continues : ∀ b s, R s (set_continues b s).

Lemma respects_ret {A} (a : A) : respects R Q (mret a).
Proof. intros s. apply R_refl. Qed.

Lemma respects_raise {A} e : respects R Q (raise e : M A).
Proof. intros s. apply Q_refl. Qed.

Lemma respects_get {A} (f : Compiler → A) : respects R Q (get f).
Proof. intros s. apply R_refl. Qed.

Lemma respects_bind {A B} (m : M A) (f : A → M B) :
  respects R Q m → (∀ a, respects R Q (f a)) → respects R Q (m ≫= f).
Proof.
  intros Hm Hf s. specialize (Hm s). unfold mbind, M_bind.
  destruct (m s) as [a s1 | e s1]; [|done].
  specialize (Hf a s1). destruct (f a s1); eauto.
Qed.

(** One step of a computation, seen from the state [s0] it is compared
    with. *)
Lemma ends_bind {A B} (m : M A) (f : A → M B) s0 s (G H : Compiler → Prop) :
  respects R Q m → R s0 s →
  (∀ s1, Q s0 s1 → H s1) →
  (∀ a s1, m s = Ok a s1 → R s0 s1 → ends (f a s1) G H) →
  ends ((m ≫= f) s) G H.
Proof.
  intros Hm H0 HH Hf. specialize (Hm s). unfold mbind, M_bind.
  destruct (m s) as [a s1 | e s1]; simpl; eauto.
Qed.

Lemma bind_inv {A B} (m : M A) (f : A → M B) s b s' :
  (m ≫= f) s = Ok b s' → ∃ a s1, m s = Ok a s1 ∧ f a s1 = Ok b s'.
Proof.
  unfold mbind, M_bind. destruct (m s) as [a s1|]; [|done]. by exists a, s1.
Qed.

Lemma respects_Ok {A} (m : M A) s a s' :
  respects R Q m → m s = Ok a s' → R s s'.
Proof. intros H Hm. specialize (H s). by rewrite Hm in H. Qed.

Lemma respects_ends {A} (m : M A) :
  (∀ s, ends (m s) (R s) (Q s)) → respects R Q m.
Proof. done. Qed.

Lemma respects_unpack {A} (x : option A) : respects R Q (unpack x).
Proof. destruct x; [apply respects_ret | apply respects_raise]. Qed.

Lemma respects_fresh_uid : respects R Q fresh_uid.
Proof. intros s. apply L_next_uid. Qed.

Lemma respects_get_block b : respects R Q (get_block b).
Proof.
  intros s. unfold get_block.
  destruct (block_store s !! b); [apply R_refl | apply Q_refl].
Qed.

Lemma respects_put_block b o : respects R Q (put_block b o).
Proof. intros s. apply L_put_block. Qed.

Lemma respects_add_global n g : respects R Q (Globals.add_global n g).
Proof.
  intros s. unfold Globals.add_global.
  destruct (Globals.is_used (module s) n) eqn:Hu; [apply Q_refl | by apply L_add_global].
Qed.

Lemma respects_get_global n : respects R Q (Globals.get_global n).
Proof.
  intros s. unfold Globals.get_global.
  destruct (Globals.find (module s) n) as [[f|g]|];
    first [apply R_refl | apply Q_refl].
Qed.

Lemma respects_Function_append_basic_block fn label :
  respects R Q (Ir.Function_append_basic_block fn label).
Proof.
  intros s. unfold Ir.Function_append_basic_block.
  destruct (Globals.find (module s) fn) as [[f|]|] eqn:Hf; try apply Q_refl.
  by apply (L_append_block fn label f s).
Qed.

Lemma respects_Block_delete b : respects R Q (Ir.Block_delete b).
Proof. apply respects_raise. Qed.

Lemma respects_set_builder b : respects R Q (modify (set_builder b)).
Proof. intros s. apply L_builder. Qed.

Lemma respects_Env_define self n v t : respects R Q (Env.define self n v t).
Proof.
  intros s. unfold Env.define.
  destruct (env_store s !! self) as [e|] eqn:He; [|apply Q_refl].
  by apply (L_define self e n v t s).
Qed.

Lemma respects_Env_lookup self n : respects R Q (Env.lookup self n).
Proof.
  intros s. unfold Env.lookup.
  pose proof (resolve_pure (length (env_store s)) self n s) as Hp.
  destruct (Env.resolve _ self n s); simpl in Hp; subst;
    [apply R_refl | apply Q_refl].
Qed.

Lemma respects_increment_counter : respects R Q increment_counter.
Proof. intros s. apply L_counter. Qed.

Lemma respects_print l : respects R Q (print l).
Proof. intros s. apply L_stdout. Qed.

Lemma respects_type_map k : respects R Q (type_map k).
Proof.
  unfold type_map.
  repeat (destruct (String.eqb k _); [apply respects_ret|]).
  apply respects_raise.
Qed.

Lemma respects_record_error e :
  respects R Q (modify (λ s, set_errors (errors s ++ [e]) s)).
Proof. intros s. apply L_errors. Qed.

Lemma respects_top l : respects R Q (top l).
Proof. unfold top. case_match; [apply respects_ret | apply respects_raise]. Qed.

Lemma respects_pop l : respects R Q (pop l).
Proof. destruct l; [apply respects_raise | apply respects_ret]. Qed.

Lemma respects_position_at_start b : respects R Q (Ir.position_at_start b).
Proof. apply respects_set_builder. Qed.

#[local] Hint Resolve respects_ret respects_raise respects_get respects_unpack
  respects_fresh_uid respects_get_block respects_put_block respects_add_global
  respects_get_global respects_Function_append_basic_block
  respects_Block_delete respects_set_builder respects_Env_define
  respects_Env_lookup respects_increment_counter respects_print
  respects_type_map respects_record_error respects_top respects_pop
  respects_position_at_start : respects.

(** Decomposes a computation along its binds and case distinctions. *)
Ltac respects_tac :=
  repeat first
    [ solve [eauto with respects]
    | match goal with
      | |- respects _ _ (match ?x with _ => _ end) => destruct x
      | |- respects _ _ (if ?x then _ else _) => destruct x
      end
    | apply respects_bind; [| intros ?] ].

Lemma respects_new_Function fnty n : respects R Q (Ir.new_Function fnty n).
Proof. unfold Ir.new_Function. respects_tac. Qed.

Lemma respects_new_GlobalVariable typ n init c l :
  respects R Q (Ir.new_GlobalVariable typ n init c l).
Proof. unfold Ir.new_GlobalVariable. respects_tac. Qed.

Lemma respects_new_IRBuilder b : respects R Q (Ir.new_IRBuilder b).
Proof. unfold Ir.new_IRBuilder. respects_tac. Qed.

Lemma respects_block : respects R Q Ir.block.
Proof. unfold Ir.block. respects_tac. Qed.

#[local] Hint Resolve respects_new_Function respects_new_GlobalVariable
  respects_new_IRBuilder respects_block : respects.

Lemma respects_position_at_end b : respects R Q (Ir.position_at_end b).
Proof. unfold Ir.position_at_end. respects_tac. Qed.

Lemma respects_is_terminated : respects R Q Ir.is_terminated.
Proof. unfold Ir.is_terminated. respects_tac. Qed.

Lemma respects_insert i : respects R Q (Ir._insert i).
Proof. unfold Ir._insert. respects_tac. Qed.

Lemma respects_new_instruction cls typ op ops :
  respects R Q (Ir.new_instruction cls typ op ops).
Proof. unfold Ir.new_instruction. respects_tac. Qed.

#[local] Hint Resolve respects_position_at_end respects_is_terminated
  respects_insert respects_new_instruction : respects.

Lemma respects_set_terminator t : respects R Q (Ir._set_terminator t).
Proof. unfold Ir._set_terminator. respects_tac. Qed.

#[local] Hint Resolve respects_set_terminator : respects.

Lemma respects_alloca typ : respects R Q (Ir.alloca typ).
Proof. unfold Ir.alloca. respects_tac. Qed.

Lemma respects_store v ptr : respects R Q (Ir.store v ptr).
Proof. unfold Ir.store. respects_tac. Qed.

Lemma respects_load ptr : respects R Q (Ir.load ptr).
Proof. unfold Ir.load. respects_tac. Qed.

Lemma respects_binop op l r : respects R Q (Ir._binop op l r).
Proof. unfold Ir._binop. respects_tac. Qed.

Lemma respects_icmp_signed op l r : respects R Q (Ir.icmp_signed op l r).
Proof. unfold Ir.icmp_signed. respects_tac. Qed.

Lemma respects_fcmp_ordered op l r : respects R Q (Ir.fcmp_ordered op l r).
Proof. unfold Ir.fcmp_ordered. respects_tac. Qed.

Lemma respects_castop op v typ : respects R Q (Ir._castop op v typ).
Proof. unfold Ir._castop. respects_tac. Qed.

Lemma respects_check_args ts : ∀ args0, respects R Q (Ir.check_args ts args0).
Proof.
  induction ts as [|t ts IH]; intros args0; simpl; [apply respects_ret|].
  respects_tac.
Qed.

Lemma respects_function_type_of fn : respects R Q (Ir.function_type_of fn).
Proof. unfold Ir.function_type_of. respects_tac. Qed.

#[local] Hint Resolve respects_check_args respects_function_type_of : respects.

Lemma respects_call fn args0 : respects R Q (Ir.call fn args0).
Proof. unfold Ir.call. respects_tac. Qed.

Lemma respects_ret_instr v : respects R Q (Ir.ret v).
Proof. unfold Ir.ret. respects_tac. Qed.

Lemma respects_branch b : respects R Q (Ir.branch b).
Proof. unfold Ir.branch. respects_tac. Qed.

Lemma respects_cbranch c (b1 b2 : nat) : respects R Q (Ir.cbranch c b1 b2).
Proof. unfold Ir.cbranch. respects_tac. Qed.

Lemma respects_append_basic_block label :
  respects R Q (Ir.append_basic_block label).
Proof. unfold Ir.append_basic_block. respects_tac. Qed.

#[local] Hint Resolve respects_alloca respects_store respects_load
  respects_binop respects_icmp_signed respects_fcmp_ordered respects_castop
  respects_call respects_ret_instr respects_branch respects_cbranch
  respects_append_basic_block : respects.

Lemma respects_if_then pred (body : M unit) :
  respects R Q body → respects R Q (Ir.if_then pred body).
Proof. intros H. unfold Ir.if_then. respects_tac. Qed.

Lemma respects_convert_string str : respects R Q (convert_string str).
Proof. unfold convert_string. respects_tac. Qed.

Lemma respects_power_operation_float b e t :
  respects R Q (power_operation_float b e t).
Proof. unfold power_operation_float. respects_tac. Qed.

Lemma respects_power_operation b e t : respects R Q (power_operation b e t).
Proof.
  unfold power_operation. pose proof respects_power_operation_float.
  respects_tac.
Qed.

Lemma respects_builtin_printf params t : respects R Q (builtin_printf params t).
Proof. unfold builtin_printf. respects_tac. Qed.

#[local] Hint Resolve respects_if_then respects_convert_string
  respects_power_operation_float respects_power_operation
  respects_builtin_printf : respects.

Lemma respects_sequence (l : list (M unit)) :
  Forall (respects R Q) l →
  respects R Q (foldr (λ stmt rest, stmt;; rest) (mret tt) l).
Proof.
  induction 1 as [|m l Hm Hl IH]; simpl; [apply respects_ret|].
  apply respects_bind; [done | by intros].
Qed.

Lemma respects_visit_let_statement n (value : M Resolved) :
  respects R Q value → respects R Q (visit_let_statement n value).
Proof. intros H. unfold visit_let_statement. respects_tac. Qed.

Lemma respects_visit_return_statement (value : M Resolved) :
  respects R Q value → respects R Q (visit_return_statement value).
Proof. intros H. unfold visit_return_statement. respects_tac. Qed.

Lemma respects_visit_assign_statement n (value : M Resolved) :
  respects R Q value → respects R Q (visit_assign_statement n value).
Proof. intros H. unfold visit_assign_statement. respects_tac. Qed.

Lemma respects_visit_if_statement (c : M Resolved) (cons : M unit) alt :
  respects R Q c → respects R Q cons → (∀ a, alt = Some a → respects R Q a) →
  respects R Q (visit_if_statement c cons alt).
Proof.
  intros Hc Hcons Halt. unfold visit_if_statement.
  destruct alt as [a|]; [specialize (Halt a eq_refl)|]; respects_tac.
Qed.

Lemma respects_visit_while_statement (c : M Resolved) (body : M unit) :
  respects R Q c → respects R Q body →
  respects R Q (visit_while_statement c body).
Proof. intros Hc Hb. unfold visit_while_statement. respects_tac. Qed.

Lemma respects_visit_break_statement : respects R Q visit_break_statement.
Proof. unfold visit_break_statement. respects_tac. Qed.

Lemma respects_visit_continue_statement : respects R Q visit_continue_statement.
Proof. unfold visit_continue_statement. respects_tac. Qed.

Lemma respects_visit_infix_expression op (l r : M Resolved) :
  respects R Q l → respects R Q r →
  respects R Q (visit_infix_expression op l r).
Proof. intros Hl Hr. unfold visit_infix_expression. respects_tac. Qed.

Lemma respects_resolve_arguments (ps : list (M Resolved)) :
  Forall (respects R Q) ps → respects R Q (resolve_arguments ps).
Proof. induction 1 as [|p ps Hp Hps IH]; simpl; respects_tac. Qed.

Lemma respects_visit_call_expression n (ps : list (M Resolved)) :
  Forall (respects R Q) ps → respects R Q (visit_call_expression n ps).
Proof.
  intros H. unfold visit_call_expression.
  pose proof (respects_resolve_arguments ps H). respects_tac.
Qed.

Lemma respects_store_params fn ts : ∀ i, respects R Q (store_params fn i ts).
Proof. induction ts as [|t ts IH]; intros i; simpl; respects_tac. Qed.

Lemma respects_define_params e ts :
  ∀ ns ps, respects R Q (define_params e ts ns ps).
Proof.
  induction ts as [|t ts IH]; intros ns ps; simpl; [respects_tac|].
  destruct ns, ps; respects_tac.
Qed.

Lemma respects_param_types_of ps : respects R Q (param_types_of ps).
Proof. induction ps as [|p ps IH]; simpl; respects_tac. Qed.

(** Opening a scope: [Environment(parent=previous_env)] and the
    assignment to [self.env]. *)
Lemma ends_enter {A} p (k : nat → M A) s0 s (G H : Compiler → Prop) :
  R s0 s →
  (∀ s1, R s0 s1 → ends (k (length (env_store s)) s1) G H) →
  ends ((e ← Env.new None (Some p) "global"; modify (set_env e);; k e) s) G H.
Proof.
  intros H0 Hk. unfold Env.new, modify, mbind, M_bind. simpl.
  apply Hk. eapply R_trans; [done | apply L_enter].
Qed.

Lemma ends_respects {A} (m : M A) s0 s :
  respects R Q m → R s0 s → ends (m s) (R s0) (Q s0).
Proof.
  intros Hm H0. specialize (Hm s). destruct (m s); simpl; eauto.
Qed.

Lemma respects_visit_function_statement n ps rt (body : M unit) :
  respects R Q body → respects R Q (visit_function_statement n ps rt body).
Proof.
  intros Hbody. apply respects_ends. intros s.
  unfold visit_function_statement.
  apply (ends_bind _ _ s); [apply respects_param_types_of | done | done |].
  intros pts s1 _ H1.
  apply (ends_bind _ _ s); [apply respects_type_map | done | done |].
  intros ty s2 _ H2.
  apply (ends_bind _ _ s); [apply respects_new_Function | done | done |].
  intros func s3 _ H3.
  apply (ends_bind _ _ s);
    [apply respects_Function_append_basic_block | done | done |].
  intros blk s4 _ H4.
  apply (ends_bind _ _ s); [apply respects_get | done | done |].
  intros pb s5 _ H5.
  apply (ends_bind _ _ s); [apply respects_new_IRBuilder | done | done |].
  intros b s6 _ H6.
  apply (ends_bind _ _ s); [apply respects_set_builder | done | done |].
  intros _ s7 _ H7.
  apply (ends_bind _ _ s); [apply respects_store_params | done | done |].
  intros ptrs s8 _ H8.
  apply (ends_bind _ _ s); [apply respects_get | done | done |].
  intros pe s9 [= <- <-] _.
  (* from here on the state is compared with [s8], whose scope is put
     back at the end *)
  assert (∀ s1, Q s8 s1 → Q s s1) as HQ by eauto.
  apply (ends_bind _ _ s8); [apply respects_Env_define | done | done |].
  intros _ s10 _ H10.
  apply (ends_enter _ _ s8); [done|]. intros s11 H11.
  apply (ends_bind _ _ s8); [apply respects_define_params | done | done |].
  intros _ s12 _ H12.
  apply (ends_bind _ _ s8); [apply respects_Env_define | done | done |].
  intros _ s13 _ H13.
  apply (ends_bind _ _ s8); [apply Hbody | done | done |].
  intros _ s14 _ H14. simpl.
  eapply R_trans; [exact H8|]. eapply R_trans; [|apply L_builder].
  by apply L_restore.
Qed.

(** What a function statement that returns has gone through: the
    declaration of the function, then the definition of its name in the
    scope of the statement, and from there on nothing but what respects
    the relations. *)
Lemma visit_function_statement_inv n ps rt (body : M unit) s s' :
  respects R Q body →
  visit_function_statement n ps rt body s = Ok tt s' →
  ∃ pts ty func s1 s2 s3 blk s4 b ptrs s8 e8,
    param_types_of ps s = Ok pts s1 ∧ type_map rt s1 = Ok ty s2 ∧
    Ir.new_Function (FunctionType ty pts false) n s2 = Ok func s3 ∧
    Ir.Function_append_basic_block n (n ++ "_entry") s3 = Ok blk s4 ∧
    Ir.new_IRBuilder blk s4 = Ok b s4 ∧
    store_params n 0 pts (set_builder b s4) = Ok ptrs s8 ∧
    R s3 s8 ∧ env_store s8 !! env s8 = Some e8 ∧
    R (defined (env s8) e8 n func (Some ty) s8) s'.
Proof.
  intros Hbody. unfold visit_function_statement. intros H.
  apply bind_inv in H; destruct H as (pts & s1 & H1 & H).
  apply bind_inv in H; destruct H as (ty & s2 & H2 & H).
  apply bind_inv in H; destruct H as (func & s3 & H3 & H).
  apply bind_inv in H; destruct H as (blk & s4 & H4 & H).
  apply bind_inv in H; destruct H as (pb & s5 & [= <- <-] & H).
  apply bind_inv in H; destruct H as (b & s6 & H6 & H).
  apply bind_inv in H; destruct H as (? & s7 & H7 & H).
  apply bind_inv in H; destruct H as (ptrs & s8 & H8 & H).
  apply bind_inv in H; destruct H as (pe & s9 & [= <- <-] & H).
  apply bind_inv in H; destruct H as (? & s10 & H10 & H).
  apply bind_inv in H; destruct H as (e & s11 & [= <- <-] & H).
  apply bind_inv in H; destruct H as (? & s12 & [= <- <-] & H).
  apply bind_inv in H; destruct H as (? & s13 & H13 & H).
  apply bind_inv in H; destruct H as (? & s14 & H14 & H).
  apply bind_inv in H; destruct H as (? & s15 & H15 & H).
  apply bind_inv in H; destruct H as (? & s16 & [= <- <-] & H).
  injection H as <-.
  unfold Env.define in H10.
  destruct (env_store s8 !! env s8) as [e8|] eqn:He8; [|done].
  injection H10 as <- <-.
  assert (s6 = s4) as ->.
  { unfold Ir.new_IRBuilder, get_block, mbind, M_bind in H6.
    destruct (block_store s4 !! blk); [|done].
    simpl in H6. by injection H6 as _ ->. }
  injection H7 as _ <-.
  exists pts, ty, func, s1, s2, s3, blk, s4, b, ptrs, s8, e8.
  split_and!; try done.
  - eapply R_trans;
      [exact (respects_Ok _ _ _ _ (respects_Function_append_basic_block _ _) H4)|].
    eapply R_trans; [apply L_builder|].
    exact (respects_Ok _ _ _ _ (respects_store_params _ _ _) H8).
  - apply respects_Ok in H13; [|apply respects_define_params].
    apply respects_Ok in H14; [|apply respects_Env_define].
    apply respects_Ok in H15; [|apply Hbody].
    eapply R_trans; [|apply L_builder].
    apply (L_restore (defined (env s8) e8 n func (Some ty) s8)).
    eapply R_trans; [apply L_enter|]. eauto.
Qed.

Lemma respects_set_breakpoints b : respects R Q (modify (set_breakpoints b)).
Proof. intros s. apply L_breakpoints. Qed.

Lemma respects_set_continues b : respects R Q (modify (set_continues b)).
Proof. intros s. apply L_continues. Qed.

Lemma respects_push_breakpoints b :
  respects R Q (modify (λ s, set_breakpoints (breakpoints s ++ [b]) s)).
Proof. intros s. apply L_breakpoints. Qed.

Lemma respects_push_continues b :
  respects R Q (modify (λ s, set_continues (continues s ++ [b]) s)).
Proof. intros s. apply L_continues. Qed.

#[local] Hint Resolve respects_set_breakpoints respects_set_continues
  respects_push_breakpoints respects_push_continues : respects.

(** [for]: once the scope of the loop is opened, nothing but methods
    that respect the relations. *)
Lemma visit_for_statement_entered (v : M unit) (c : M Resolved) (a b : M unit) s :
  respects R Q v → respects R Q c → respects R Q a → respects R Q b →
  ends (visit_for_statement v c a b s) (R (entered s)) (Q (entered s)).
Proof.
  intros Hv Hc Ha Hb. unfold visit_for_statement.
  unfold get at 1, Env.new, modify at 1, mbind at 1 2 3, M_bind at 1 2 3.
  simpl. apply ends_respects; [|apply R_refl]. respects_tac.
Qed.

Lemma respects_visit_for_statement (v : M unit) (c : M Resolved) (a b : M unit) :
  respects R Q v → respects R Q c → respects R Q a → respects R Q b →
  respects R Q (visit_for_statement v c a b).
Proof.
  intros Hv Hc Ha Hb. apply respects_ends. intros s.
  pose proof (visit_for_statement_entered v c a b s Hv Hc Ha Hb) as H.
  destruct (visit_for_statement v c a b s); simpl in *.
  - eapply R_trans; [apply L_enter | done].
  - eapply RQ_trans; [apply L_enter | done].
Qed.

Section Traversal.

(** The two statements that change [self.env] are taken as given here:
    a relation that speaks of the active scope needs its own argument
    for them. *)
Hypothesis respects_function :
  ∀ n ps rt (body : M unit),
    respects R Q body → respects R Q (visit_function_statement n ps rt body).
Hypothesis respects_for :
  ∀ (v : M unit) (c : M Resolved) (a b : M unit),
    respects R Q v → respects R Q c → respects R Q a → respects R Q b →
    respects R Q (visit_for_statement v c a b).

Lemma respects_resolve_value node : respects R Q (resolve_value node).
Proof.
  induction node using Node_ind'; simpl; try apply respects_ret.
  - apply respects_bind; [|intros; apply respects_ret].
    by apply respects_visit_infix_expression.
  - apply respects_bind; [|intros; apply respects_ret].
    apply respects_visit_call_expression. by apply Forall_map.
  - respects_tac.
  - respects_tac.
  - respects_tac.
Qed.

Lemma respects_compile node : respects R Q (compile node).
Proof.
  induction node using Node_ind'; simpl; try apply respects_ret.
  - apply respects_sequence. by apply Forall_map.
  - done.
  - apply respects_visit_let_statement, respects_resolve_value.
  - by apply respects_function.
  - apply respects_sequence. by apply Forall_map.
  - apply respects_visit_return_statement, respects_resolve_value.
  - apply respects_visit_assign_statement, respects_resolve_value.
  - apply respects_visit_if_statement; [apply respects_resolve_value | done |].
    intros a Ha. destruct e as [a'|]; [|discriminate].
    injection Ha as <-. by eapply H.
  - apply respects_visit_while_statement; [apply respects_resolve_value | done].
  - apply respects_visit_break_statement.
  - apply respects_visit_continue_statement.
  - apply respects_for; [done | apply respects_resolve_value | done..].
  - apply respects_bind; [|intros; apply respects_ret].
    apply respects_visit_infix_expression; apply respects_resolve_value.
  - apply respects_bind; [|intros; apply respects_ret].
    apply respects_visit_call_expression.
    apply Forall_map, Forall_forall. intros; apply respects_resolve_value.
Qed.

End Traversal.

End Frame.

(** ** What a compilation only adds to *)

Section Growth.

Lemma same_global_refl g : same_global g g.
Proof. by destruct g. Qed.

Lemma same_global_trans g1 g2 g3 :
  same_global g1 g2 → same_global g2 g3 → same_global g1 g3.
Proof.
  destruct g1, g2, g3; simpl; try done.
  - intros [-> ->] [-> ->]. done.
  - by intros -> ->.
Qed.

Lemma globals_kept_refl s : globals_kept s s.
Proof. intros n g Hg. exists g. split; [done | apply same_global_refl]. Qed.

Lemma scopes_kept_refl s : scopes_kept s s.
Proof. intros r e He. by exists e. Qed.

Lemma globals_kept_same s s' : module s' = module s → globals_kept s s'.
Proof. intros H. unfold globals_kept. rewrite H. apply globals_kept_refl. Qed.

Lemma scopes_kept_same s s' : env_store s' = env_store s → scopes_kept s s'.
Proof. intros H. unfold scopes_kept. rewrite H. apply scopes_kept_refl. Qed.

Lemma grows_refl s : grows s s.
Proof.
  split_and!; [done.. | apply globals_kept_refl | apply scopes_kept_refl].
Qed.

Lemma grows_trans s1 s2 s3 : grows s1 s2 → grows s2 s3 → grows s1 s3.
Proof.
  intros (He1 & Ho1 & Hc1 & Hg1 & Hs1) (He2 & Ho2 & Hc2 & Hg2 & Hs2).
  split_and!.
  - by etrans.
  - by etrans.
  - lia.
  - intros n g Hg. destruct (Hg1 _ _ Hg) as (g' & Hg' & Hk1).
    destruct (Hg2 _ _ Hg') as (g'' & Hg'' & Hk2).
    exists g''. split; [done | by eapply same_global_trans].
  - intros r e He. destruct (Hs1 _ _ He) as (e' & He' & Hp1 & Hr1).
    destruct (Hs2 _ _ He') as (e'' & He'' & Hp2 & Hr2).
    exists e''. split_and!; [done | congruence | auto].
Qed.

(** A state that differs in none of the parts [grows] speaks of. *)
Lemma grows_same s s' :
  errors s' = errors s → stdout s' = stdout s → counter s' = counter s →
  module s' = module s → env_store s' = env_store s → grows s s'.
Proof.
  intros He Ho Hc Hm Hs. unfold grows, globals_kept, scopes_kept.
  rewrite He, Ho, Hc, Hm, Hs. apply grows_refl.
Qed.

Lemma globals_kept_replace s fn f bs :
  Globals.find (module s) fn = Some (GFunction f) →
  globals_kept s
    (set_module (Globals.replace (module s) fn (GFunction (with_blocks f bs))) s).
Proof.
  intros Hf n g Hg. simpl. rewrite find_replace.
  destruct (String.eqb fn n) eqn:Hn.
  - apply String.eqb_eq in Hn as <-. rewrite Hg. simplify_eq.
    by eexists.
  - exists g. split; [done | apply same_global_refl].
Qed.

Lemma grows_appended fn label f s :
  Globals.find (module s) fn = Some (GFunction f) → grows s (appended fn label f s).
Proof.
  intros Hf. split_and!; [done.. | | by apply scopes_kept_same].
  by apply (globals_kept_replace s fn f).
Qed.

Lemma grows_add_global n g s :
  grows s (set_module (module s ++ [(n, g)]) s).
Proof.
  split_and!; [done.. | | by apply scopes_kept_same].
  intros k g0 Hg0. simpl. rewrite find_app, Hg0.
  exists g0. split; [done | apply same_global_refl].
Qed.

Lemma grows_defined r e n v t s :
  env_store s !! r = Some e → grows s (defined r e n v t s).
Proof.
  intros He. split_and!; [done.. | by apply globals_kept_same |].
  intros r' e' He'. simpl.
  destruct (decide (r' = r)) as [->|Hne].
  - simplify_eq. eexists.
    split; [apply list_lookup_insert_eq; by eapply lookup_lt_Some|].
    simpl. split; [done|].
    intros k Hk. destruct (decide (n = k)) as [->|Hnk].
    + rewrite lookup_insert_eq. by eexists.
    + by rewrite lookup_insert_ne.
  - exists e'. by rewrite list_lookup_insert_ne.
Qed.

Lemma grows_enter e s :
  grows s (set_env (length (env_store s)) (set_env_store (env_store s ++ [e]) s)).
Proof.
  split_and!; [done.. | by apply globals_kept_same |].
  intros r e' He'. exists e'. simpl. split; [|done].
  by apply lookup_app_l_Some.
Qed.

Lemma grows_counter s : grows s (set_counter (counter s + 1) s).
Proof.
  split_and!; [done | done | simpl; lia | by apply globals_kept_same
              | by apply scopes_kept_same].
Qed.

Lemma grows_stdout l s : grows s (set_stdout (stdout s ++ [l]) s).
Proof.
  split_and!; [done | by apply prefix_app_r | done | by apply globals_kept_same
              | by apply scopes_kept_same].
Qed.

Lemma grows_errors e s : grows s (set_errors (errors s ++ [e]) s).
Proof.
  split_and!; [by apply prefix_app_r | done | done | by apply globals_kept_same
              | by apply scopes_kept_same].
Qed.

Lemma grows_restore s1 s2 : grows s1 s2 → grows s1 (set_env (env s1) s2).
Proof. intros H. eapply grows_trans; [exact H | by apply grows_same]. Qed.

(** Every method leaves a state grown from the one it started in,
    whether it returns or raises. *)
Lemma grows_compile node : respects grows grows (compile node).
Proof.
  assert (∀ n ps rt (body : M unit), respects grows grows body →
    respects grows grows (visit_function_statement n ps rt body)) as Hfun.
  { apply respects_visit_function_statement;
      eauto using grows_refl, grows_trans, grows_appended, grows_add_global,
        grows_defined, grows_enter, grows_restore;
      intros; by apply grows_same. }
  assert (∀ (v : M unit) (c : M Resolved) (a b : M unit),
    respects grows grows v → respects grows grows c →
    respects grows grows a → respects grows grows b →
    respects grows grows (visit_for_statement v c a b)) as Hfor.
  { apply respects_visit_for_statement;
      eauto using grows_refl, grows_trans, grows_appended, grows_counter,
        grows_enter;
      intros; by apply grows_same. }
  apply respects_compile;
    eauto using grows_refl, grows_trans, grows_appended,
      grows_add_global, grows_defined, grows_counter, grows_stdout,
      grows_errors;
    intros; by apply grows_same.
Qed.

Lemma grows_final node s : grows s (final_state (compile node s)).
Proof.
  pose proof (grows_compile node s) as H. by destruct (compile node s).
Qed.

(** A name found from a scope is still found from it when the scopes
    have only gained bindings. *)
Lemma resolve_kept s s' n :
  scopes_kept s s' →
  ∀ k r b, Env.resolve k r n s = Ok (Some b) s →
  ∀ k', k ≤ k' → ∃ b', Env.resolve k' r n s' = Ok (Some b') s'.
Proof.
  intros Hk. induction k as [|k IH]; intros r b Hr k' Hle; [done|].
  destruct k' as [|k']; [lia|]. simpl in *.
  destruct (env_store s !! r) as [e|] eqn:He; [|done].
  destruct (Hk _ _ He) as (e' & He' & Hp & Hrec). rewrite He'.
  destruct (records e !! n) as [b0|] eqn:Hb0.
  - destruct (Hrec n) as [b' Hb']; [by eexists|]. rewrite Hb'. by eexists.
  - destruct (records e' !! n) as [b'|]; [by eexists|].
    rewrite Hp. destruct (parent e) as [p|]; [|done].
    pose proof (resolve_pure k p n s) as Hpure.
    destruct (Env.resolve k p n s) as [o s1|] eqn:Hres; [|done].
    simpl in Hpure. subst s1. simplify_eq.
    eapply IH; [done | lia].
Qed.

End Growth.
(** ** The loop stacks *)

Section Stacks.

Lemma same_stacks_same s s' :
  breakpoints s' = breakpoints s → continues s' = continues s → same_stacks s s'.
Proof. done. Qed.

Lemma same_stacks_trans s1 s2 s3 :
  same_stacks s1 s2 → same_stacks s2 s3 → same_stacks s1 s3.
Proof. intros [? ?] [? ?]. split; congruence. Qed.

(** Discharges the state changes that leave the stacks alone. *)
Ltac stacks_leaf :=
  first [ exact same_stacks_trans
        | by (intros; first [exact I | apply same_stacks_same])
        | by (intros ? ? [? ?]; split) ].

Lemma stacks_step {A B} (m : M A) (f : A → M B) s0 s (G : Compiler → Prop) :
  respects same_stacks any_state m → same_stacks s0 s →
  (∀ a s1, m s = Ok a s1 → same_stacks s0 s1 → ends (f a s1) G (λ _, True)) →
  ends ((m ≫= f) s) G (λ _, True).
Proof.
  intros Hm H0 Hf. apply (ends_bind same_stacks any_state) with (s0 := s0);
    [stacks_leaf.. | done | done | done | done].
Qed.

Lemma pop_snoc (l : list nat) x s : pop (l ++ [x])%list s = Ok l s.
Proof.
  unfold pop. rewrite removelast_last. by destruct l.
Qed.

Lemma stacks_modify {B} (f : Compiler → Compiler) (k : unit → M B) s
    (G : Compiler → Prop) :
  ends (k tt (f s)) G (λ _, True) → ends ((modify f ≫= k) s) G (λ _, True).
Proof. done. Qed.

(** [for]: what it pushes on the two stacks it pops at the end. *)
Lemma stacks_visit_for_statement (v : M unit) (c : M Resolved) (a b : M unit) :
  respects same_stacks any_state v → respects same_stacks any_state c →
  respects same_stacks any_state a → respects same_stacks any_state b →
  respects same_stacks any_state (visit_for_statement v c a b).
Proof.
  intros Hv Hc Ha Hb s. change (ends (visit_for_statement v c a b s)
    (same_stacks s) (λ _, True)).
  unfold visit_for_statement.
  apply (stacks_step _ _ s); [apply respects_get; stacks_leaf | done |].
  intros pe s1 [= <- <-] _.
  apply (stacks_step _ _ s); [by intros ? | done |].
  intros e s2 _ H2. apply stacks_modify.
  apply (stacks_step _ _ s); [done | done |]. intros _ s3 _ H3.
  apply (stacks_step _ _ s);
    [apply respects_increment_counter; stacks_leaf | done |].
  intros n s4 _ H4.
  apply (stacks_step _ _ s);
    [apply respects_append_basic_block; stacks_leaf | done |].
  intros entry s5 _ H5.
  apply (stacks_step _ _ s); [apply respects_get; stacks_leaf | done |].
  intros k s6 _ H6.
  apply (stacks_step _ _ s);
    [apply respects_append_basic_block; stacks_leaf | done |].
  intros otherwise s7 _ H7.
  do 2 apply stacks_modify.
  (* the body is compiled with both stacks one entry longer *)
  match goal with |- ends (_ ?s8) _ _ => set (s8' := s8) end.
  assert (same_stacks s8' s8') as H8 by done.
  apply (stacks_step _ _ s8'); [apply respects_branch; stacks_leaf | done |].
  intros _ s9 _ H9. apply stacks_modify.
  apply (stacks_step _ _ s8'); [done | done |]. intros _ s10 _ H10.
  apply (stacks_step _ _ s8'); [done | done |]. intros _ s11 _ H11.
  apply (stacks_step _ _ s8').
  { apply respects_bind; [stacks_leaf.. | done |].
    intros r. apply respects_unpack; stacks_leaf. }
  { done. }
  intros [test ty] s12 _ H12.
  apply (stacks_step _ _ s8'); [apply respects_cbranch; stacks_leaf | done |].
  intros _ s13 _ H13. apply stacks_modify.
  destruct H13 as [Hb13 Hc13]. destruct H7 as [Hb7 Hc7].
  subst s8'. clear H8 H9 H10 H11 H12. simpl in Hb13, Hc13.
  unfold get, modify, mbind, M_bind. simpl.
  rewrite Hb13, pop_snoc. simpl. rewrite Hc13, pop_snoc. simpl.
  by split.
Qed.

Lemma stacks_resolve_value node :
  respects same_stacks any_state (resolve_value node).
Proof. apply respects_resolve_value; stacks_leaf. Qed.

(** The stacks a method returns with are those it was called with. *)
Lemma stacks_compile node : respects same_stacks any_state (compile node).
Proof.
  apply respects_compile; try stacks_leaf.
  - apply respects_visit_function_statement; stacks_leaf.
  - apply stacks_visit_for_statement.
Qed.

End Stacks.

(** ** The active scope *)

Section Scopes.

Lemma scope_opened_same s s' :
  env_store s' = env_store s → env s' = env s → scope_opened s s'.
Proof. intros Hs He. split; [by rewrite Hs | by left]. Qed.

Lemma scope_opened_trans s1 s2 s3 :
  scope_opened s1 s2 → scope_opened s2 s3 → scope_opened s1 s3.
Proof.
  intros [Hl1 He1] [Hl2 He2]. split; [lia|].
  destruct He2 as [-> | He2]; [done | right; lia].
Qed.

Lemma scope_opened_defined r e n v t s :
  env_store s !! r = Some e → scope_opened s (defined r e n v t s).
Proof. intros _. split; [simpl; by rewrite length_insert | by left]. Qed.

Lemma scope_opened_enter e s :
  scope_opened s
    (set_env (length (env_store s)) (set_env_store (env_store s ++ [e]) s)).
Proof. split; simpl; [rewrite length_app; lia | by right]. Qed.

Lemma scope_opened_restore s1 s2 :
  scope_opened s1 s2 → scope_opened s1 (set_env (env s1) s2).
Proof. intros [Hl _]. split; [done | by left]. Qed.

(** Discharges the state changes that touch neither the scopes nor the
    active one. *)
Ltac scopes_leaf :=
  first [ exact scope_opened_trans | exact scope_opened_defined
        | exact scope_opened_enter | exact scope_opened_restore
        | by (intros; first [exact I | apply scope_opened_same]) ].

Lemma scope_opened_resolve_value node :
  respects scope_opened any_state (resolve_value node).
Proof. apply respects_resolve_value; scopes_leaf. Qed.

Lemma scope_opened_compile node : respects scope_opened any_state (compile node).
Proof.
  apply respects_compile; try scopes_leaf.
  - apply respects_visit_function_statement; scopes_leaf.
  - apply respects_visit_for_statement; scopes_leaf.
Qed.

Lemma same_env_builder_trans s1 s2 s3 :
  same_env_builder s1 s2 → same_env_builder s2 s3 → same_env_builder s1 s3.
Proof. intros [? ?] [? ?]. split; congruence. Qed.

Lemma same_env_trans s1 s2 s3 : same_env s1 s2 → same_env s2 s3 → same_env s1 s3.
Proof. unfold same_env. congruence. Qed.

Ltac same_leaf :=
  first [ exact same_env_builder_trans | exact same_env_trans
        | by (intros; first [exact I | split]) | by intros ].

Lemma scope_opened_for (v c a b : Node) s :
  ends (compile (ForStatement v c a b) s)
       (scope_opened (entered s)) (any_state (entered s)).
Proof.
  change (ends (visit_for_statement (compile v) (resolve_value c) (compile a)
                  (compile b) s)
               (scope_opened (entered s)) (any_state (entered s))).
  apply visit_for_statement_entered; try scopes_leaf;
    first [apply scope_opened_compile | apply scope_opened_resolve_value].
Qed.

Lemma same_env_new_Function fnty n :
  respects same_env any_state (Ir.new_Function fnty n).
Proof. apply respects_new_Function; same_leaf. Qed.

Lemma same_env_Function_append_basic_block fn label :
  respects same_env any_state (Ir.Function_append_basic_block fn label).
Proof. apply respects_Function_append_basic_block; same_leaf. Qed.

Lemma same_env_store_params fn ts i :
  respects same_env any_state (store_params fn i ts).
Proof. apply respects_store_params; same_leaf. Qed.

(** A function statement puts back the scope and the cursor it found. *)
Lemma visit_function_statement_restores n ps rt (body : M unit) s s' :
  visit_function_statement n ps rt body s = Ok tt s' →
  env s' = env s ∧ builder s' = builder s.
Proof.
  unfold visit_function_statement. intros H.
  apply bind_inv in H; destruct H as (pts & s1 & H1 & H).
  apply bind_inv in H; destruct H as (ty & s2 & H2 & H).
  apply bind_inv in H; destruct H as (func & s3 & H3 & H).
  apply bind_inv in H; destruct H as (blk & s4 & H4 & H).
  apply bind_inv in H; destruct H as (pb & s5 & [= <- <-] & H).
  apply bind_inv in H; destruct H as (b & s6 & H6 & H).
  apply bind_inv in H; destruct H as (? & s7 & H7 & H).
  apply bind_inv in H; destruct H as (ptrs & s8 & H8 & H).
  apply bind_inv in H; destruct H as (pe & s9 & [= <- <-] & H).
  apply bind_inv in H; destruct H as (? & s10 & _ & H).
  apply bind_inv in H; destruct H as (e & s11 & _ & H).
  apply bind_inv in H; destruct H as (? & s12 & _ & H).
  apply bind_inv in H; destruct H as (? & s13 & _ & H).
  apply bind_inv in H; destruct H as (? & s14 & _ & H).
  apply bind_inv in H; destruct H as (? & s15 & _ & H).
  apply bind_inv in H; destruct H as (? & s16 & [= <-] & H).
  injection H as <-. simpl.
  eapply (respects_Ok same_env_builder any_state) in H1;
    [|apply respects_param_types_of; same_leaf].
  eapply (respects_Ok same_env_builder any_state) in H2;
    [|apply respects_type_map; same_leaf].
  eapply (respects_Ok same_env_builder any_state) in H3;
    [|apply respects_new_Function; same_leaf].
  eapply (respects_Ok same_env_builder any_state) in H4;
    [|apply respects_Function_append_basic_block; same_leaf].
  eapply (respects_Ok same_env any_state) in H6;
    [|apply respects_new_IRBuilder; same_leaf].
  injection H7 as <-.
  eapply (respects_Ok same_env any_state) in H8;
    [|apply respects_store_params; same_leaf].
  destruct H1 as [? ?], H2 as [? ?], H3 as [? ?], H4 as [? ?].
  unfold same_env in *. subst s7 s16. simpl in *. split; congruence.
Qed.

End Scopes.

(** ** Properties of a whole compilation *)

Section Compilation.

(** X2. Whether [compile] returns or raises, it has only appended to
    the error list: the errors recorded before are the first of those
    recorded after. *)
Theorem errors_only_appended (node : Node) (s : Compiler) :
  errors s `prefix_of` errors (final_state (compile node s)).
Proof. apply grows_final. Qed.

(** X3. Whether [compile] returns or raises, every global of the module
    is still in it under its name: a function with its type and
    arguments, a variable as it was. *)
Theorem globals_never_dropped (node : Node) (s : Compiler) (n : string)
    (g : GlobalObj) :
  Globals.find (module s) n = Some g →
  ∃ g', Globals.find (module (final_state (compile node s))) n = Some g' ∧
        same_global g g'.
Proof.
  intros Hg. destruct (grows_final node s) as (_ & _ & _ & Hk & _).
  by apply Hk.
Qed.

Lemma globals_never_dropped_witness :
  ∃ g', Globals.find (module (final_state (compile fn_without_return new_Compiler)))
          "printf" = Some g' ∧
        same_global
          (GFunction {| function_type :=
                          FunctionType (IntType 32) [PointerType (IntType 8)] true;
                        function_args :=
                          [Argument "printf" 0 (PointerType (IntType 8))];
                        blocks := [] |}) g'.
Proof.
  apply (globals_never_dropped fn_without_return new_Compiler "printf").
  reflexivity.
Defined.

(** X4. A name that [lookup] finds from a scope before a compilation is
    found from that scope after it, whether [compile] returned or
    raised. *)
Theorem lookup_survives_compile (node : Node) (s : Compiler) (r : nat)
    (n : string) (b : Value * PyType) :
  Env.lookup r n s = Ok (Some b) s →
  ∃ b', Env.lookup r n (final_state (compile node s))
        = Ok (Some b') (final_state (compile node s)).
Proof.
  intros Hl. destruct (grows_final node s) as (_ & _ & _ & _ & Hk).
  eapply resolve_kept; [exact Hk | exact Hl |].
  destruct (length (env_store s)) as [|k] eqn:Hlen; [lia|].
  assert (env_store s !! k = Some (default {| records := ∅; parent := None; name := "" |}
            (env_store s !! k)) ) as Hlast.
  { destruct (env_store s !! k) eqn:Hk'; [done|].
    apply lookup_ge_None in Hk'. lia. }
  destruct (Hk _ _ Hlast) as (e' & He' & _).
  apply lookup_lt_Some in He'. lia.
Qed.

Lemma lookup_survives_compile_witness :
  Env.lookup 0 "printf" new_Compiler
  = Ok (Some (Function "printf"
                (FunctionType (IntType 32) [PointerType (IntType 8)] true),
              Some (IntType 32))) new_Compiler ∧
  ∃ b', Env.lookup 0 "printf" (final_state (compile fn_without_return new_Compiler))
        = Ok (Some b') (final_state (compile fn_without_return new_Compiler)).
Proof.
  split; [reflexivity|].
  eapply (lookup_survives_compile fn_without_return new_Compiler 0 "printf").
  reflexivity.
Defined.

(** X5. When [compile] returns, the stack of break targets and the
    stack of continue targets are as they were before: what a [for]
    statement pushes it pops, and nothing else touches them. *)
Theorem loop_stacks_restored (node : Node) (s s' : Compiler) :
  compile node s = Ok tt s' →
  breakpoints s' = breakpoints s ∧ continues s' = continues s.
Proof. intros H. exact (respects_Ok _ _ _ _ _ _ (stacks_compile node) H). Qed.

Lemma loop_stacks_restored_witness :
  breakpoints (final_state (compile break_in_while_in_for new_Compiler))
  = breakpoints new_Compiler ∧
  continues (final_state (compile break_in_while_in_for new_Compiler))
  = continues new_Compiler.
Proof.
  apply (loop_stacks_restored break_in_while_in_for new_Compiler).
  vm_compute. reflexivity.
Defined.

(** X6. When a [for] statement returns, the scope it opened is still
    the active one, or a scope opened later is: the active scope is not
    one that existed before the statement.  The source puts the previous
    scope back after a function body, not after a loop. *)
Theorem for_statement_leaves_scope_open (v c a b : Node) (s s' : Compiler) :
  compile (ForStatement v c a b) s = Ok tt s' →
  length (env_store s) ≤ env s'.
Proof.
  intros H. pose proof (scope_opened_for v c a b s) as Hf.
  rewrite H in Hf. destruct Hf as [_ [-> | He]].
  - done.
  - unfold entered in He. simpl in He. rewrite length_app in He. lia.
Qed.

Lemma for_statement_leaves_scope_open_witness :
  length (env_store inside_main) ≤ env (final_state (compile count_to_three inside_main)).
Proof.
  apply (for_statement_leaves_scope_open
           (LetStatement "i" (IntegerLiteral 0) "int")
           (InfixExpression (IdentifierLiteral "i") "<" (IntegerLiteral 3))
           (AssignStatement "i"
              (InfixExpression (IdentifierLiteral "i") "+" (IntegerLiteral 1)))
           (BlockStatement []) inside_main).
  vm_compute. reflexivity.
Defined.

(** X7. When a function statement returns, the active scope and the
    cursor are the ones it found: the body's scope is closed and the
    builder of the enclosing code is put back. *)
Theorem function_statement_restores (ps : list Param.t) (body : Node)
    (n rt : string) (s s' : Compiler) :
  compile (FunctionStatement ps body n rt) s = Ok tt s' →
  env s' = env s ∧ builder s' = builder s.
Proof. apply visit_function_statement_restores. Qed.

Lemma function_statement_restores_witness :
  env (final_state (compile fn_identity new_Compiler)) = env new_Compiler ∧
  builder (final_state (compile fn_identity new_Compiler)) = builder new_Compiler.
Proof.
  apply (function_statement_restores
           [{| Param.name := "a"; Param.value_type := "int" |}]
           (BlockStatement [ReturnStatement (IdentifierLiteral "a")]) "id" "int"
           new_Compiler).
  vm_compute. reflexivity.
Defined.

End Compilation.
(** ** Code outside a function body *)

Create HintDb detached discriminated.

Section Detached.

Lemma stays_of_needs {A} (m : M A) : needs_block m → stays_detached m.
Proof. intros H s Hs. specialize (H s Hs). by destruct (m s). Qed.

Lemma stays_bind {A B} (m : M A) (f : A → M B) :
  stays_detached m → (∀ a, stays_detached (f a)) → stays_detached (m ≫= f).
Proof.
  intros Hm Hf s Hs. specialize (Hm s Hs). unfold mbind, M_bind.
  destruct (m s) as [a s1|]; [|done]. by apply Hf.
Qed.

Lemma needs_bind_l {A B} (m : M A) (f : A → M B) :
  needs_block m → needs_block (m ≫= f).
Proof.
  intros Hm s Hs. specialize (Hm s Hs). unfold mbind, M_bind.
  by destruct (m s).
Qed.

Lemma needs_bind_r {A B} (m : M A) (f : A → M B) :
  stays_detached m → (∀ a, needs_block (f a)) → needs_block (m ≫= f).
Proof.
  intros Hm Hf s Hs. specialize (Hm s Hs). unfold mbind, M_bind.
  destruct (m s) as [a s1|]; [|done]. by apply Hf.
Qed.

Lemma needs_raise {A} e : needs_block (raise e : M A).
Proof. by intros s Hs. Qed.

Lemma stays_ret {A} (a : A) : stays_detached (mret a).
Proof. by intros s Hs. Qed.

Lemma same_builder_trans s1 s2 s3 :
  same_builder s1 s2 → same_builder s2 s3 → same_builder s1 s3.
Proof. unfold same_builder. congruence. Qed.

(** A method that leaves the cursor alone. *)
Lemma stays_frame {A} (m : M A) :
  respects same_builder any_state m → stays_detached m.
Proof.
  intros H s Hs. specialize (H s). destruct (m s); [|done].
  unfold no_block, same_builder in *. simpl. congruence.
Qed.

Lemma stays_modify f : (∀ s, builder (f s) = builder s) → stays_detached (modify f).
Proof. intros H s Hs. unfold no_block in *. simpl. by rewrite H. Qed.

Ltac builder_leaf :=
  first [ exact same_builder_trans | by (intros; first [exact I | reflexivity]) ].

Lemma stays_get {A} (f : Compiler → A) : stays_detached (get f).
Proof. by intros s Hs. Qed.

Lemma stays_unpack {A} (x : option A) : stays_detached (unpack x).
Proof. apply stays_frame, respects_unpack; builder_leaf. Qed.

Lemma stays_get_global n : stays_detached (Globals.get_global n).
Proof. apply stays_frame, respects_get_global; builder_leaf. Qed.

Lemma stays_new_Function fnty n : stays_detached (Ir.new_Function fnty n).
Proof. apply stays_frame, respects_new_Function; builder_leaf. Qed.

Lemma stays_Function_append_basic_block fn label :
  stays_detached (Ir.Function_append_basic_block fn label).
Proof.
  apply stays_frame, respects_Function_append_basic_block; builder_leaf.
Qed.

Lemma stays_Env_new r p n : stays_detached (Env.new r p n).
Proof. by intros s Hs. Qed.

Lemma stays_Env_define self n v t : stays_detached (Env.define self n v t).
Proof. apply stays_frame, respects_Env_define; builder_leaf. Qed.

Lemma stays_Env_lookup self n : stays_detached (Env.lookup self n).
Proof. apply stays_frame, respects_Env_lookup; builder_leaf. Qed.

Lemma stays_increment_counter : stays_detached increment_counter.
Proof. apply stays_frame, respects_increment_counter; builder_leaf. Qed.

Lemma stays_print l : stays_detached (print l).
Proof. apply stays_frame, respects_print; builder_leaf. Qed.

Lemma stays_type_map k : stays_detached (type_map k).
Proof. apply stays_frame, respects_type_map; builder_leaf. Qed.

Lemma stays_top l : stays_detached (top l).
Proof. apply stays_frame, respects_top; builder_leaf. Qed.

Lemma stays_convert_string str : stays_detached (convert_string str).
Proof. apply stays_frame, respects_convert_string; builder_leaf. Qed.

Lemma stays_check_args ts args0 : stays_detached (Ir.check_args ts args0).
Proof. apply stays_frame, respects_check_args; builder_leaf. Qed.

Lemma stays_function_type_of fn : stays_detached (Ir.function_type_of fn).
Proof. apply stays_frame, respects_function_type_of; builder_leaf. Qed.

Lemma stays_param_types_of ps : stays_detached (param_types_of ps).
Proof. apply stays_frame, respects_param_types_of; builder_leaf. Qed.

Lemma stays_record_error e :
  stays_detached (modify (λ s, set_errors (errors s ++ [e]) s)).
Proof. by apply stays_modify. Qed.

Lemma stays_set_env e : stays_detached (modify (set_env e)).
Proof. by apply stays_modify. Qed.

Lemma needs_block_block : needs_block Ir.block.
Proof.
  intros s Hs. unfold Ir.block, get, mbind, M_bind. simpl.
  unfold no_block in Hs. by rewrite Hs.
Qed.

#[local] Hint Resolve needs_raise stays_ret stays_get stays_unpack
  stays_get_global stays_new_Function stays_Function_append_basic_block
  stays_Env_new stays_Env_define stays_Env_lookup stays_increment_counter
  stays_print stays_type_map stays_top stays_convert_string stays_check_args
  stays_function_type_of stays_param_types_of stays_record_error
  stays_set_env needs_block_block : detached.

(** Decompose a method along its binds and case distinctions: to show
    that it raises, find the first step that needs a block. *)
Ltac needs_tac :=
  first
    [ solve [eauto with detached]
    | match goal with
      | |- needs_block (match ?x with _ => _ end) => destruct x; needs_tac
      | |- needs_block (if ?x then _ else _) => destruct x; needs_tac
      end
    | apply needs_bind_l; needs_tac
    | apply needs_bind_r; [stays_tac | intros ?; needs_tac] ]
with stays_tac :=
  first
    [ solve [eauto with detached]
    | match goal with
      | |- stays_detached (match ?x with _ => _ end) => destruct x; stays_tac
      | |- stays_detached (if ?x then _ else _) => destruct x; stays_tac
      end
    | apply stays_of_needs; needs_tac
    | apply stays_bind; [stays_tac | intros ?; stays_tac] ].

Lemma needs_new_instruction cls typ op ops :
  needs_block (Ir.new_instruction cls typ op ops).
Proof.
  intros s Hs. unfold Ir.new_instruction, get, mbind, M_bind. simpl.
  unfold no_block in Hs. by rewrite Hs.
Qed.

Lemma needs_insert i : needs_block (Ir._insert i).
Proof. unfold Ir._insert. needs_tac. Qed.

Lemma needs_is_terminated : needs_block Ir.is_terminated.
Proof. unfold Ir.is_terminated. needs_tac. Qed.

Lemma needs_append_basic_block label : needs_block (Ir.append_basic_block label).
Proof. unfold Ir.append_basic_block. needs_tac. Qed.

#[local] Hint Resolve needs_new_instruction needs_insert needs_is_terminated
  needs_append_basic_block : detached.

Lemma needs_alloca typ : needs_block (Ir.alloca typ).
Proof. unfold Ir.alloca. needs_tac. Qed.

Lemma needs_store v ptr : needs_block (Ir.store v ptr).
Proof. unfold Ir.store. needs_tac. Qed.

Lemma needs_load ptr : needs_block (Ir.load ptr).
Proof. unfold Ir.load. needs_tac. Qed.

Lemma needs_binop op l r : needs_block (Ir._binop op l r).
Proof. unfold Ir._binop. needs_tac. Qed.

Lemma needs_icmp_signed op l r : needs_block (Ir.icmp_signed op l r).
Proof. unfold Ir.icmp_signed. needs_tac. Qed.

Lemma needs_fcmp_ordered op l r : needs_block (Ir.fcmp_ordered op l r).
Proof. unfold Ir.fcmp_ordered. needs_tac. Qed.

Lemma stays_castop op v typ : stays_detached (Ir._castop op v typ).
Proof. unfold Ir._castop. stays_tac. Qed.

Lemma needs_call fn args0 : needs_block (Ir.call fn args0).
Proof. unfold Ir.call. needs_tac. Qed.

Lemma needs_ret v : needs_block (Ir.ret v).
Proof. unfold Ir.ret. needs_tac. Qed.

Lemma needs_branch b : needs_block (Ir.branch b).
Proof. unfold Ir.branch. needs_tac. Qed.

Lemma needs_cbranch c (b1 b2 : nat) : needs_block (Ir.cbranch c b1 b2).
Proof. unfold Ir.cbranch. needs_tac. Qed.

Lemma needs_if_then pred (body : M unit) : needs_block (Ir.if_then pred body).
Proof. unfold Ir.if_then. needs_tac. Qed.

#[local] Hint Resolve needs_alloca needs_store needs_load needs_binop
  needs_icmp_signed needs_fcmp_ordered stays_castop needs_call needs_ret
  needs_branch needs_cbranch needs_if_then : detached.

Lemma needs_power_operation_float b e t :
  needs_block (power_operation_float b e t).
Proof. unfold power_operation_float. needs_tac. Qed.

#[local] Hint Resolve needs_power_operation_float : detached.

Lemma needs_power_operation b e t : needs_block (power_operation b e t).
Proof. unfold power_operation. needs_tac. Qed.

Lemma needs_builtin_printf params t : needs_block (builtin_printf params t).
Proof. unfold builtin_printf. needs_tac. Qed.

#[local] Hint Resolve needs_power_operation needs_builtin_printf : detached.

Lemma stays_sequence (l : list (M unit)) :
  Forall stays_detached l →
  stays_detached (foldr (λ stmt rest, stmt;; rest) (mret tt) l).
Proof.
  induction 1 as [|m l Hm Hl IH]; simpl; [apply stays_ret|].
  apply stays_bind; [done | by intros].
Qed.

Lemma needs_visit_let_statement n (value : M Resolved) :
  stays_detached value → needs_block (visit_let_statement n value).
Proof. intros H. unfold visit_let_statement. needs_tac. Qed.

Lemma needs_visit_return_statement (value : M Resolved) :
  stays_detached value → needs_block (visit_return_statement value).
Proof. intros H. unfold visit_return_statement. needs_tac. Qed.

Lemma stays_visit_assign_statement n (value : M Resolved) :
  stays_detached value → stays_detached (visit_assign_statement n value).
Proof. intros H. unfold visit_assign_statement. stays_tac. Qed.

Lemma needs_visit_if_statement (c : M Resolved) (cons : M unit) alt :
  stays_detached c → needs_block (visit_if_statement c cons alt).
Proof. intros H. unfold visit_if_statement. needs_tac. Qed.

Lemma needs_visit_while_statement (c : M Resolved) (body : M unit) :
  stays_detached c → needs_block (visit_while_statement c body).
Proof. intros H. unfold visit_while_statement. needs_tac. Qed.

Lemma needs_visit_break_statement : needs_block visit_break_statement.
Proof. unfold visit_break_statement. needs_tac. Qed.

Lemma needs_visit_continue_statement : needs_block visit_continue_statement.
Proof. unfold visit_continue_statement. needs_tac. Qed.

Lemma needs_visit_for_statement (v : M unit) (c : M Resolved) (a b : M unit) :
  stays_detached v → needs_block (visit_for_statement v c a b).
Proof. intros H. unfold visit_for_statement. needs_tac. Qed.

Lemma stays_visit_infix_expression op (l r : M Resolved) :
  stays_detached l → stays_detached r →
  stays_detached (visit_infix_expression op l r).
Proof. intros Hl Hr. unfold visit_infix_expression. stays_tac. Qed.

Lemma stays_resolve_arguments (ps : list (M Resolved)) :
  Forall stays_detached ps → stays_detached (resolve_arguments ps).
Proof. induction 1 as [|p ps Hp Hps IH]; simpl; stays_tac. Qed.

Lemma needs_visit_call_expression n (ps : list (M Resolved)) :
  Forall stays_detached ps → needs_block (visit_call_expression n ps).
Proof.
  intros H. unfold visit_call_expression.
  pose proof (stays_resolve_arguments ps H). needs_tac.
Qed.

(** A function statement works on a builder of its own and puts the
    one it found back. *)
Lemma stays_visit_function_statement n ps rt (body : M unit) :
  stays_detached (visit_function_statement n ps rt body).
Proof.
  intros s Hs.
  destruct (visit_function_statement n ps rt body s) as [[] s'|] eqn:H; [|done].
  apply visit_function_statement_restores in H as [_ H].
  unfold no_block in *. simpl. by rewrite H.
Qed.

Lemma stays_resolve_value node : stays_detached (resolve_value node).
Proof.
  induction node using Node_ind'; simpl; try apply stays_ret.
  - apply stays_bind; [|intros; apply stays_ret].
    by apply stays_visit_infix_expression.
  - apply stays_bind; [|intros; apply stays_ret].
    apply stays_of_needs, needs_visit_call_expression. by apply Forall_map.
  - stays_tac.
  - stays_tac.
  - stays_tac.
Qed.

Lemma stays_compile node : stays_detached (compile node).
Proof.
  induction node using Node_ind'; simpl; try apply stays_ret.
  - apply stays_sequence. by apply Forall_map.
  - done.
  - apply stays_of_needs, needs_visit_let_statement, stays_resolve_value.
  - apply stays_visit_function_statement.
  - apply stays_sequence. by apply Forall_map.
  - apply stays_of_needs, needs_visit_return_statement, stays_resolve_value.
  - apply stays_visit_assign_statement, stays_resolve_value.
  - apply stays_of_needs, needs_visit_if_statement, stays_resolve_value.
  - apply stays_of_needs, needs_visit_while_statement, stays_resolve_value.
  - apply stays_of_needs, needs_visit_break_statement.
  - apply stays_of_needs, needs_visit_continue_statement.
  - by apply stays_of_needs, needs_visit_for_statement.
  - apply stays_bind; [|intros; apply stays_ret].
    apply stays_visit_infix_expression; apply stays_resolve_value.
  - apply stays_bind; [|intros; apply stays_ret].
    apply stays_of_needs, needs_visit_call_expression.
    apply Forall_map, Forall_forall. intros; apply stays_resolve_value.
Qed.

Lemma needs_compile node : emits_at_cursor node = true → needs_block (compile node).
Proof.
  destruct node; try done; intros _; simpl.
  - apply needs_visit_let_statement, stays_resolve_value.
  - apply needs_visit_return_statement, stays_resolve_value.
  - apply needs_visit_if_statement, stays_resolve_value.
  - apply needs_visit_while_statement, stays_resolve_value.
  - apply needs_visit_break_statement.
  - apply needs_visit_continue_statement.
  - apply needs_visit_for_statement, stays_compile.
  - apply needs_bind_l, needs_visit_call_expression.
    apply Forall_map, Forall_forall. intros; apply stays_resolve_value.
Qed.

End Detached.

Section TopLevel.

(** X8. Compiled with no block at the cursor, as the statements of a
    program outside every function body are, a tree that [compile]
    returns from leaves the cursor without a block: instructions are only
    ever emitted inside a function body. *)
Theorem cursor_stays_detached (node : Node) (s s' : Compiler) :
  _block (builder s) = None → compile node s = Ok tt s' →
  _block (builder s') = None.
Proof.
  intros Hs H. pose proof (stays_compile node s Hs) as Hd.
  by rewrite H in Hd.
Qed.

Lemma cursor_stays_detached_witness :
  _block (builder (final_state (compile fn_without_return new_Compiler))) = None.
Proof.
  apply (cursor_stays_detached fn_without_return new_Compiler);
    [reflexivity | vm_compute; reflexivity].
Defined.

(** X9. Compiled with no block at the cursor, a [let], [return], [if],
    [while], [for], [break] or [continue] statement or a call raises,
    whatever its parts are: the builder has no block to put its
    instructions or its new blocks in. *)
Theorem statement_outside_function_raises (node : Node) (s : Compiler) :
  _block (builder s) = None → emits_at_cursor node = true →
  ∃ e s', compile node s = Raise e s'.
Proof.
  intros Hs Hn. pose proof (needs_compile node Hn s Hs) as Hd.
  destruct (compile node s) as [|e s']; [done | by exists e, s'].
Qed.

Lemma statement_outside_function_raises_witness :
  ∃ e s', compile (LetStatement "x" (IntegerLiteral 5) "int") new_Compiler
          = Raise e s'.
Proof.
  apply (statement_outside_function_raises
           (LetStatement "x" (IntegerLiteral 5) "int") new_Compiler);
    reflexivity.
Defined.

End TopLevel.
(** ** Function declarations *)

Section Declarations.

Lemma type_map_pure k s : final_state (type_map k s) = s.
Proof.
  unfold type_map. repeat (destruct (String.eqb k _); [done|]). done.
Qed.

Lemma type_map_unknown k s : k ∉ type_names → type_map k s = Raise KeyError s.
Proof.
  intros Hk. unfold type_map.
  repeat match goal with
         | |- context [String.eqb k ?x] =>
             destruct (String.eqb_spec k x) as [->|_];
               [exfalso; apply Hk; unfold type_names; set_solver|]
         end.
  done.
Qed.

Lemma type_map_known k s : k ∈ type_names → ∃ t, type_map k s = Ok t s.
Proof.
  unfold type_names. intros Hk.
  repeat (apply elem_of_cons in Hk as [->|Hk]; [by eexists|]).
  by apply elem_of_nil in Hk.
Qed.

Lemma type_map_raises k s : k ∈ type_names ∨ type_map k s = Raise KeyError s.
Proof.
  destruct (decide (k ∈ type_names)); [by left | right].
  by apply type_map_unknown.
Qed.

Lemma param_types_of_pure ps : ∀ s, final_state (param_types_of ps s) = s.
Proof.
  induction ps as [|p ps IH]; intros s; simpl; [done|].
  unfold mbind, M_bind.
  pose proof (type_map_pure (Param.value_type p) s) as Hp.
  destruct (type_map (Param.value_type p) s) as [t s1|]; simpl in Hp; subst;
    [|done].
  specialize (IH s). by destruct (param_types_of ps s).
Qed.

Lemma param_types_of_known ps s :
  Forall (λ p, Param.value_type p ∈ type_names) ps →
  ∃ ts, param_types_of ps s = Ok ts s.
Proof.
  induction 1 as [|p ps Hp Hps [ts IH]]; simpl; [by eexists|].
  destruct (type_map_known _ s Hp) as [t Ht].
  unfold mbind, M_bind. rewrite Ht, IH. by eexists.
Qed.

Lemma param_types_of_unknown ps s :
  Exists (λ p, Param.value_type p ∉ type_names) ps →
  param_types_of ps s = Raise KeyError s.
Proof.
  induction 1 as [p ps Hp | p ps Hps IH]; simpl; unfold mbind, M_bind.
  - by rewrite type_map_unknown.
  - destruct (type_map_raises (Param.value_type p) s) as [Hk | ->]; [|done].
    destruct (type_map_known _ s Hk) as [t ->]. by rewrite IH.
Qed.

Lemma new_Function_Ok fnty n s func s' :
  Ir.new_Function fnty n s = Ok func s' →
  func = Function n fnty ∧ Globals.is_used (module s) n = false ∧
  ∃ f, Globals.find (module s') n = Some (GFunction f) ∧
       function_type f = fnty ∧
       function_args f = match fnty with
                         | FunctionType _ ts _ => imap (λ i t, Argument n i t) ts
                         | _ => []
                         end.
Proof.
  unfold Ir.new_Function, Globals.add_global, mbind, M_bind.
  destruct (Globals.is_used (module s) n) eqn:Hu; [done|].
  intros [= <- <-]. split_and!; [done..|].
  eexists. simpl. rewrite find_app.
  unfold Globals.is_used in Hu. apply orb_false_elim in Hu as [_ Hu].
  apply bool_decide_eq_false in Hu.
  destruct (Globals.find (module s) n); [exfalso; by apply Hu|].
  rewrite String.eqb_refl. done.
Qed.

Lemma new_Function_used fnty n s :
  Globals.is_used (module s) n = true →
  Ir.new_Function fnty n s = Raise DuplicatedNameError s.
Proof.
  intros Hu. unfold Ir.new_Function, Globals.add_global, mbind, M_bind.
  by rewrite Hu.
Qed.

Lemma lookup_defined r e n v t s :
  env_store s !! r = Some e →
  Env.lookup r n (defined r e n v t s) = Ok (Some (v, t)) (defined r e n v t s).
Proof.
  intros He. unfold Env.lookup. simpl. rewrite length_insert.
  destruct (length (env_store s)) as [|k] eqn:Hk.
  { apply lookup_lt_Some in He. lia. }
  simpl. rewrite list_lookup_insert_eq by (by eapply lookup_lt_Some).
  simpl. by rewrite lookup_insert_eq.
Qed.

Lemma scopes_kept_length s s' :
  scopes_kept s s' → length (env_store s) ≤ length (env_store s').
Proof.
  intros Hk. destruct (length (env_store s)) as [|k] eqn:Hlen; [lia|].
  destruct (env_store s !! k) as [e|] eqn:He.
  - destruct (Hk _ _ He) as (e' & He' & _). apply lookup_lt_Some in He'. lia.
  - apply lookup_ge_None in He. lia.
Qed.

Lemma lookup_kept s s' r n b :
  scopes_kept s s' → Env.lookup r n s = Ok (Some b) s →
  ∃ b', Env.lookup r n s' = Ok (Some b') s'.
Proof.
  intros Hk Hl. eapply resolve_kept; [exact Hk | exact Hl |].
  by apply scopes_kept_length.
Qed.

(** What a function statement that returns has declared. *)
Lemma visit_function_statement_declares n ps rt (body : M unit) s s' :
  respects grows grows body →
  visit_function_statement n ps rt body s = Ok tt s' →
  ∃ pts ty f,
    param_types_of ps s = Ok pts s ∧ type_map rt s = Ok ty s ∧
    Globals.is_used (module s) n = false ∧
    Globals.find (module s') n = Some (GFunction f) ∧
    function_type f = FunctionType ty pts false ∧
    function_args f = imap (λ i t, Argument n i t) pts ∧
    ∃ b, Env.lookup (env s') n s' = Ok (Some b) s'.
Proof.
  intros Hbody H.
  pose proof (visit_function_statement_restores _ _ _ _ _ _ H) as [Henv _].
  eapply (visit_function_statement_inv grows grows) in H;
    eauto using grows_refl, grows_trans, grows_appended, grows_add_global,
      grows_defined, grows_enter, grows_restore;
    try (intros; by apply grows_same).
  destruct H as (pts & ty & func & s1 & s2 & s3 & blk & s4 & b0 & ptrs & s8 & e8 &
                 H1 & H2 & H3 & H4 & _ & H8 & H38 & He8 & H8').
  pose proof (param_types_of_pure ps s) as Hp1. rewrite H1 in Hp1.
  simpl in Hp1. subst s1.
  pose proof (type_map_pure rt s) as Hp2. rewrite H2 in Hp2.
  simpl in Hp2. subst s2.
  assert (env s8 = env s) as He.
  { pose proof (respects_Ok _ _ _ _ _ _ (same_env_new_Function _ _) H3).
    pose proof (respects_Ok _ _ _ _ _ _
                  (same_env_Function_append_basic_block _ _) H4).
    pose proof (respects_Ok _ _ _ _ _ _ (same_env_store_params _ _ _) H8).
    unfold same_env in *. simpl in *. congruence. }
  apply new_Function_Ok in H3 as (-> & Hu & f & Hf & Hft & Hfa).
  exists pts, ty.
  destruct H38 as (_ & _ & _ & Hg38 & _).
  destruct H8' as (_ & _ & _ & Hg8' & Hs8').
  destruct (Hg38 _ _ Hf) as (g8 & Hg8 & Hsame8).
  assert (globals_kept s8 (defined (env s8) e8 n (Function n (FunctionType ty pts false))
                             (Some ty) s8)) as Hgd by (by apply globals_kept_same).
  destruct (Hgd _ _ Hg8) as (g9 & Hg9 & Hsame9).
  destruct (Hg8' _ _ Hg9) as (g' & Hg' & Hsame').
  pose proof (same_global_trans _ _ _ Hsame8
                (same_global_trans _ _ _ Hsame9 Hsame')) as Hsame.
  destruct g' as [f'|]; [|done]. destruct Hsame as [Hft' Hfa'].
  exists f'. split_and!; try done; try congruence.
  pose proof (lookup_defined (env s8) e8 n (Function n (FunctionType ty pts false))
                (Some ty) s8 He8) as Hl.
  destruct (lookup_kept _ _ _ _ _ Hs8' Hl) as [b' Hb'].
  exists b'. rewrite Henv, <- He. exact Hb'.
Qed.

Lemma is_used_kept s s' n :
  globals_kept s s' → Globals.is_used (module s) n = true →
  Globals.is_used (module s') n = true.
Proof.
  intros Hk. unfold Globals.is_used.
  intros [Hn | Hf%bool_decide_eq_true]%orb_true_iff; apply orb_true_iff;
    [by left | right].
  apply bool_decide_eq_true. destruct Hf as [g Hg].
  destruct (Hk _ _ Hg) as (g' & Hg' & _). by eexists.
Qed.

Lemma visit_function_statement_used n ps rt (body : M unit) s :
  Globals.is_used (module s) n = true →
  Forall (λ k, k ∈ type_names) (rt :: map Param.value_type ps) →
  visit_function_statement n ps rt body s = Raise DuplicatedNameError s.
Proof.
  intros Hu Hk. apply Forall_cons in Hk as [Hrt Hps].
  apply Forall_map in Hps.
  destruct (param_types_of_known ps s Hps) as [pts Hpts].
  destruct (type_map_known rt s Hrt) as [ty Hty].
  unfold visit_function_statement.
  rewrite (bind_Ok _ _ _ _ _ Hpts), (bind_Ok _ _ _ _ _ Hty).
  apply bind_Raise. by apply new_Function_used.
Qed.

Lemma visit_function_statement_unknown n ps rt (body : M unit) s :
  Exists (λ k, k ∉ type_names) (map Param.value_type ps ++ [rt]) →
  visit_function_statement n ps rt body s = Raise KeyError s.
Proof.
  intros Hk. unfold visit_function_statement.
  destruct (decide (Exists (λ p, Param.value_type p ∉ type_names) ps))
    as [Hps | Hps].
  - apply bind_Raise. by apply param_types_of_unknown.
  - apply Exists_app in Hk as [Hk | Hk].
    { exfalso. apply Hps. by apply (Exists_map Param.value_type) in Hk. }
    apply Exists_cons in Hk as [Hk | Hk]; [|by apply Exists_nil in Hk].
    apply not_Exists_Forall in Hps; [|intros p; apply _].
    destruct (param_types_of_known ps s) as [pts Hpts].
    { eapply Forall_impl; [exact Hps|]. intros p Hp. simpl in Hp.
      by apply dec_stable. }
    rewrite (bind_Ok _ _ _ _ _ Hpts).
    apply bind_Raise. by apply type_map_unknown.
Qed.

End Declarations.

Section DeclarationTheorems.

(** X10. A function statement that returns has declared the function in
    the module under its name, which was not in use before, with the
    return type and the parameter types that the type map gives for the
    declared type names, without variable arguments and with one argument
    for each parameter; and has left the name bound in the scope of the
    statement, which is the active scope again. *)
Theorem function_statement_declares (ps : list Param.t) (body : Node)
    (n rt : string) (s s' : Compiler) :
  compile (FunctionStatement ps body n rt) s = Ok tt s' →
  ∃ pts ty f,
    param_types_of ps s = Ok pts s ∧ type_map rt s = Ok ty s ∧
    Globals.is_used (module s) n = false ∧
    Globals.find (module s') n = Some (GFunction f) ∧
    function_type f = FunctionType ty pts false ∧
    function_args f = imap (λ i t, Argument n i t) pts ∧
    ∃ b, Env.lookup (env s') n s' = Ok (Some b) s'.
Proof. apply visit_function_statement_declares, grows_compile. Qed.

Lemma function_statement_declares_witness :
  ∃ pts ty f,
    param_types_of [{| Param.name := "a"; Param.value_type := "int" |};
                    {| Param.name := "b"; Param.value_type := "int" |}] new_Compiler
    = Ok pts new_Compiler ∧
    type_map "int" new_Compiler = Ok ty new_Compiler ∧
    Globals.is_used (module new_Compiler) "add" = false ∧
    Globals.find (module (final_state (compile fn_add new_Compiler))) "add"
    = Some (GFunction f) ∧
    function_type f = FunctionType ty pts false ∧
    function_args f = imap (λ i t, Argument "add" i t) pts ∧
    ∃ b, Env.lookup (env (final_state (compile fn_add new_Compiler))) "add"
           (final_state (compile fn_add new_Compiler))
         = Ok (Some b) (final_state (compile fn_add new_Compiler)).
Proof.
  apply (function_statement_declares
           [{| Param.name := "a"; Param.value_type := "int" |};
            {| Param.name := "b"; Param.value_type := "int" |}]
           (BlockStatement
              [ReturnStatement
                 (InfixExpression (IdentifierLiteral "a") "+"
                    (IdentifierLiteral "b"))])
           "add" "int" new_Compiler).
  vm_compute. reflexivity.
Defined.

(** X11. A function statement whose name is in use in the module (a
    function declared before, [printf], [true], [false], a string
    constant) raises [DuplicatedNameError] and changes nothing, however
    much was compiled since the name came into use; its type names are
    looked up first. *)
Theorem function_redeclared_raises (ps : list Param.t) (body mid : Node)
    (n rt : string) (s : Compiler) :
  Globals.is_used (module s) n = true →
  Forall (λ k, k ∈ type_names) (rt :: map Param.value_type ps) →
  compile (FunctionStatement ps body n rt) (final_state (compile mid s))
  = Raise DuplicatedNameError (final_state (compile mid s)).
Proof.
  intros Hu Hk. apply visit_function_statement_used; [|done].
  eapply is_used_kept; [|exact Hu].
  by destruct (grows_final mid s) as (_ & _ & _ & Hg & _).
Qed.

Lemma function_redeclared_raises_witness :
  compile (FunctionStatement [] (BlockStatement []) "printf" "void")
    (final_state (compile fn_add new_Compiler))
  = Raise DuplicatedNameError (final_state (compile fn_add new_Compiler)).
Proof.
  apply (function_redeclared_raises [] (BlockStatement []) fn_add
           "printf" "void" new_Compiler).
  - reflexivity.
  - apply (bool_decide_unpack _). vm_compute. reflexivity.
Defined.

(** X12. A function statement that names a type outside the type map,
    for a parameter or for its result, raises [KeyError] before it
    declares anything: the state is unchanged. *)
Theorem unknown_type_name_raises (ps : list Param.t) (body : Node)
    (n rt : string) (s : Compiler) :
  Exists (λ k, k ∉ type_names) (map Param.value_type ps ++ [rt]) →
  compile (FunctionStatement ps body n rt) s = Raise KeyError s.
Proof. apply visit_function_statement_unknown. Qed.

Lemma unknown_type_name_raises_witness :
  compile (FunctionStatement [{| Param.name := "a"; Param.value_type := "int" |}]
             (BlockStatement []) "f" "string") new_Compiler
  = Raise KeyError new_Compiler.
Proof.
  apply unknown_type_name_raises. simpl.
  apply (bool_decide_unpack _). vm_compute. reflexivity.
Defined.

End DeclarationTheorems.
(** ** Infix expressions *)

Section Infix.

Lemma resolved_Ok (m : M Resolved) s v s1 :
  m s = Ok (Some v) s1 → (r ← m; unpack r) s = Ok v s1.
Proof. intros H. by rewrite (bind_Ok _ _ _ _ _ H). Qed.

Lemma wrapped_Ok {A} (m : M A) s v s' :
  m s = Ok v s' → (r ← m; mret (Some r)) s = Ok (Some v) s'.
Proof. intros H. by rewrite (bind_Ok _ _ _ _ _ H). Qed.

Lemma binop_Ok op l r t s b o :
  type_of l = Some t → type_of r = Some t →
  _block (builder s) = Some b → block_store s !! b = Some o →
  Ir._binop op l r s
  = Ok (Instruction (next_uid s) BinaryInstr t op [l; r])
       (emitted BinaryInstr t op [l; r] b o s).
Proof.
  intros Hl Hr Hb Ho. unfold Ir._binop. rewrite Hl, Hr, IrType_eqb_refl.
  by apply emit_Ok.
Qed.

Lemma binop_mismatch op l r tl tr s :
  type_of l = Some tl → type_of r = Some tr → IrType_eqb tl tr = false →
  Ir._binop op l r s = Raise ValueError s.
Proof. intros Hl Hr Hne. unfold Ir._binop. by rewrite Hl, Hr, Hne. Qed.

(** The two operands of an infix expression are evaluated left to
    right; what follows depends on their values and types only. *)
Lemma infix_operands op (l r : M Resolved) s lv lt s1 rv rt s2 :
  l s = Ok (Some (lv, lt)) s1 → r s1 = Ok (Some (rv, rt)) s2 →
  visit_infix_expression op l r s
  = visit_infix_expression op (mret (Some (lv, lt))) (mret (Some (rv, rt))) s2.
Proof.
  intros Hl Hr. unfold visit_infix_expression.
  rewrite (bind_Ok _ _ _ _ _ (resolved_Ok _ _ _ _ Hl)).
  by rewrite (bind_Ok _ _ _ _ _ (resolved_Ok _ _ _ _ Hr)).
Qed.

Lemma icmp_signed_Ok op pred l r tl s b o :
  (op, pred) ∈ comparisons → type_of l = Some tl →
  _block (builder s) = Some b → block_store s !! b = Some o →
  Ir.icmp_signed op l r s
  = Ok (Instruction (next_uid s) (ICMPInstr pred) (IntType 1) "icmp" [l; r])
       (emitted (ICMPInstr pred) (IntType 1) "icmp" [l; r] b o s).
Proof.
  intros Hop Hl Hb Ho. unfold comparisons in Hop.
  repeat (apply elem_of_cons in Hop as [[= -> ->] | Hop];
          [unfold Ir.icmp_signed; simpl; rewrite Hl; by apply emit_Ok|]).
  by apply elem_of_nil in Hop.
Qed.

Lemma fcmp_ordered_Ok op pred l r tl s b o :
  (op, pred) ∈ float_comparisons → type_of l = Some tl →
  _block (builder s) = Some b → block_store s !! b = Some o →
  Ir.fcmp_ordered op l r s
  = Ok (Instruction (next_uid s) (FCMPInstr pred) (IntType 1) "fcmp" [l; r])
       (emitted (FCMPInstr pred) (IntType 1) "fcmp" [l; r] b o s).
Proof.
  intros Hop Hl Hb Ho. unfold float_comparisons in Hop.
  repeat (apply elem_of_cons in Hop as [[= -> ->] | Hop];
          [unfold Ir.fcmp_ordered; simpl; rewrite Hl; by apply emit_Ok|]).
  by apply elem_of_nil in Hop.
Qed.

Lemma visit_infix_arithmetic op opname lv lt rv rt t s b o :
  (is_IntType lt = true ∧ is_IntType rt = true ∧ (op, opname) ∈ int_arithmetic) ∨
  (is_FloatType lt = true ∧ is_FloatType rt = true ∧
   (op, opname) ∈ float_arithmetic) →
  type_of lv = Some t → type_of rv = Some t →
  _block (builder s) = Some b → block_store s !! b = Some o →
  visit_infix_expression op (mret (Some (lv, lt))) (mret (Some (rv, rt))) s
  = Ok (Instruction (next_uid s) BinaryInstr t opname [lv; rv],
        Some (if is_IntType lt then IntType 32 else FloatType))
       (emitted BinaryInstr t opname [lv; rv] b o s).
Proof.
  intros Hop Hlv Hrv Hb Ho.
  unfold visit_infix_expression.
  rewrite (bind_Ok _ _ s (lv, lt) s) by reflexivity.
  rewrite (bind_Ok _ _ s (rv, rt) s) by reflexivity.
  destruct Hop as [(Hli & Hri & Hop) | (Hlf & Hrf & Hop)].
  - rewrite Hri, Hli. unfold int_arithmetic in Hop.
    repeat (apply elem_of_cons in Hop as [[= -> ->] | Hop];
            [simpl; by rewrite (bind_Ok _ _ _ _ _ (binop_Ok _ _ _ _ _ _ _ Hlv Hrv Hb Ho))|]).
    by apply elem_of_nil in Hop.
  - assert (is_IntType lt = false) as Hli by (by destruct lt as [[]|]).
    rewrite Hrf, Hlf, Hli, andb_false_r. unfold float_arithmetic in Hop.
    repeat (apply elem_of_cons in Hop as [[= -> ->] | Hop];
            [simpl; by rewrite (bind_Ok _ _ _ _ _ (binop_Ok _ _ _ _ _ _ _ Hlv Hrv Hb Ho))|]).
    by apply elem_of_nil in Hop.
Qed.

Lemma visit_infix_comparison op pred lv lt rv rt tl s b o :
  (op, pred) ∈ comparisons → is_IntType lt = true → is_IntType rt = true →
  type_of lv = Some tl →
  _block (builder s) = Some b → block_store s !! b = Some o →
  visit_infix_expression op (mret (Some (lv, lt))) (mret (Some (rv, rt))) s
  = Ok (Instruction (next_uid s) (ICMPInstr pred) (IntType 1) "icmp" [lv; rv],
        Some (IntType 1))
       (emitted (ICMPInstr pred) (IntType 1) "icmp" [lv; rv] b o s).
Proof.
  intros Hop Hli Hri Hlv Hb Ho.
  unfold visit_infix_expression.
  rewrite (bind_Ok _ _ s (lv, lt) s) by reflexivity.
  rewrite (bind_Ok _ _ s (rv, rt) s) by reflexivity.
  rewrite Hri, Hli. pose proof Hop as Hop'. unfold comparisons in Hop.
  repeat (apply elem_of_cons in Hop as [[= -> ->] | Hop];
          [simpl;
           by rewrite (bind_Ok _ _ _ _ _
                         (icmp_signed_Ok _ _ _ _ _ _ _ _ Hop' Hlv Hb Ho))|]).
  by apply elem_of_nil in Hop.
Qed.

Lemma visit_infix_float_comparison op pred lv lt rv rt tl s b o :
  (op, pred) ∈ float_comparisons →
  is_FloatType lt = true → is_FloatType rt = true →
  type_of lv = Some tl →
  _block (builder s) = Some b → block_store s !! b = Some o →
  visit_infix_expression op (mret (Some (lv, lt))) (mret (Some (rv, rt))) s
  = Ok (Instruction (next_uid s) (FCMPInstr pred) (IntType 1) "fcmp" [lv; rv],
        Some (IntType 1))
       (emitted (FCMPInstr pred) (IntType 1) "fcmp" [lv; rv] b o s).
Proof.
  intros Hop Hlf Hrf Hlv Hb Ho.
  unfold visit_infix_expression.
  rewrite (bind_Ok _ _ s (lv, lt) s) by reflexivity.
  rewrite (bind_Ok _ _ s (rv, rt) s) by reflexivity.
  assert (is_IntType lt = false) as Hli by (by destruct lt as [[]|]).
  rewrite Hrf, Hlf, Hli, andb_false_r.
  pose proof Hop as Hop'. unfold float_comparisons in Hop.
  repeat (apply elem_of_cons in Hop as [[= -> ->] | Hop];
          [simpl;
           by rewrite (bind_Ok _ _ _ _ _
                         (fcmp_ordered_Ok _ _ _ _ _ _ _ _ Hop' Hlv Hb Ho))|]).
  by apply elem_of_nil in Hop.
Qed.

Lemma visit_infix_unknown op lv lt rv rt s :
  op ∉ infix_operators →
  visit_infix_expression op (mret (Some (lv, lt))) (mret (Some (rv, rt))) s
  = Ok (PyNone,
        if is_IntType rt && is_IntType lt then Some (IntType 32)
        else if is_FloatType rt && is_FloatType lt then Some FloatType
        else None) s.
Proof.
  intros Hop. unfold visit_infix_expression.
  rewrite (bind_Ok _ _ s (lv, lt) s) by reflexivity.
  rewrite (bind_Ok _ _ s (rv, rt) s) by reflexivity.
  repeat match goal with
         | |- context [String.eqb op ?x] =>
             destruct (String.eqb_spec op x) as [->|_];
               [exfalso; apply Hop; unfold infix_operators; set_solver|]
         end.
  by repeat case_match.
Qed.

End Infix.

Section InfixTheorems.

(** X13. Arithmetic on two operands of one type.  When both operands
    are reported as integers, or both as floats, and their values have
    the same type [t], the operators [+ - * / %] emit one instruction at
    the cursor ([add], [sub], [mul], [sdiv], [srem], or [fadd], [fsub],
    [fmul], [fdiv], [frem]) of type [t] on the two values, left first.
    The type reported with it is [int] (i32) for integers, whatever
    their width, and [float] for floats. *)
Theorem infix_arithmetic_spec (l r : Node) (op opname : string)
    (s s1 s2 : Compiler) (lv rv : Value) (lt rt : PyType) (t : IrType)
    (b : nat) (o : BlockObj) :
  resolve_value l s = Ok (Some (lv, lt)) s1 →
  resolve_value r s1 = Ok (Some (rv, rt)) s2 →
  (is_IntType lt = true ∧ is_IntType rt = true ∧ (op, opname) ∈ int_arithmetic) ∨
  (is_FloatType lt = true ∧ is_FloatType rt = true ∧
   (op, opname) ∈ float_arithmetic) →
  type_of lv = Some t → type_of rv = Some t →
  _block (builder s2) = Some b → block_store s2 !! b = Some o →
  resolve_value (InfixExpression l op r) s
  = Ok (Some (Instruction (next_uid s2) BinaryInstr t opname [lv; rv],
              Some (if is_IntType lt then IntType 32 else FloatType)))
       (emitted BinaryInstr t opname [lv; rv] b o s2).
Proof.
  intros Hl Hr Hop Hlv Hrv Hb Ho. simpl.
  apply wrapped_Ok. rewrite (infix_operands _ _ _ _ _ _ _ _ _ _ Hl Hr).
  by eapply visit_infix_arithmetic.
Qed.

Lemma infix_arithmetic_spec_witness :
  resolve_value (InfixExpression (IntegerLiteral 1) "+" (IntegerLiteral 2))
    inside_main
  = Ok (Some (Instruction (next_uid inside_main) BinaryInstr (IntType 32) "add"
                [Constant (IntType 32) (CInt 1); Constant (IntType 32) (CInt 2)],
              Some (IntType 32)))
       (emitted BinaryInstr (IntType 32) "add"
          [Constant (IntType 32) (CInt 1); Constant (IntType 32) (CInt 2)]
          0 (new_block "main" "main_entry") inside_main).
Proof.
  apply (infix_arithmetic_spec (IntegerLiteral 1) (IntegerLiteral 2) "+" "add"
           inside_main inside_main inside_main
           (Constant (IntType 32) (CInt 1)) (Constant (IntType 32) (CInt 2))
           (Some (IntType 32)) (Some (IntType 32)) (IntType 32)
           0 (new_block "main" "main_entry"));
    try reflexivity.
  left. split_and!; [reflexivity | reflexivity |].
  apply (bool_decide_unpack _). vm_compute. reflexivity.
Defined.

(** X14. Comparison of two operands.  When both operands are reported
    as integers, the operators [< <= > >= ==] emit one [icmp] at the
    cursor with the signed predicate ([slt], [sle], [sgt], [sge]; [eq]
    for [==]); when both are reported as floats, one [fcmp] with the
    ordered predicate ([olt], [ole], [ogt], [oge], [oeq]).  The
    instruction and the type reported with it are [bool] (i1). *)
Theorem infix_comparison_spec (l r : Node) (op pred : string)
    (s s1 s2 : Compiler) (lv rv : Value) (lt rt : PyType) (tl : IrType)
    (b : nat) (o : BlockObj) :
  resolve_value l s = Ok (Some (lv, lt)) s1 →
  resolve_value r s1 = Ok (Some (rv, rt)) s2 →
  type_of lv = Some tl →
  _block (builder s2) = Some b → block_store s2 !! b = Some o →
  (is_IntType lt = true → is_IntType rt = true → (op, pred) ∈ comparisons →
   resolve_value (InfixExpression l op r) s
   = Ok (Some (Instruction (next_uid s2) (ICMPInstr pred) (IntType 1) "icmp"
                 [lv; rv], Some (IntType 1)))
        (emitted (ICMPInstr pred) (IntType 1) "icmp" [lv; rv] b o s2)) ∧
  (is_FloatType lt = true → is_FloatType rt = true →
   (op, pred) ∈ float_comparisons →
   resolve_value (InfixExpression l op r) s
   = Ok (Some (Instruction (next_uid s2) (FCMPInstr pred) (IntType 1) "fcmp"
                 [lv; rv], Some (IntType 1)))
        (emitted (FCMPInstr pred) (IntType 1) "fcmp" [lv; rv] b o s2)).
Proof.
  intros Hl Hr Hlv Hb Ho. split; intros Hlt Hrt Hop; simpl; apply wrapped_Ok;
    rewrite (infix_operands _ _ _ _ _ _ _ _ _ _ Hl Hr).
  - by eapply visit_infix_comparison.
  - by eapply visit_infix_float_comparison.
Qed.

Lemma infix_comparison_spec_witness :
  resolve_value (InfixExpression (IntegerLiteral 1) "<" (IntegerLiteral 2))
    inside_main
  = Ok (Some (Instruction (next_uid inside_main) (ICMPInstr "slt") (IntType 1)
                "icmp"
                [Constant (IntType 32) (CInt 1); Constant (IntType 32) (CInt 2)],
              Some (IntType 1)))
       (emitted (ICMPInstr "slt") (IntType 1) "icmp"
          [Constant (IntType 32) (CInt 1); Constant (IntType 32) (CInt 2)]
          0 (new_block "main" "main_entry") inside_main).
Proof.
  refine (proj1 (infix_comparison_spec (IntegerLiteral 1) (IntegerLiteral 2)
                   "<" "slt" inside_main inside_main inside_main
                   (Constant (IntType 32) (CInt 1))
                   (Constant (IntType 32) (CInt 2))
                   (Some (IntType 32)) (Some (IntType 32)) (IntType 32)
                   0 (new_block "main" "main_entry") _ _ _ _ _) _ _ _);
    try reflexivity.
  apply (bool_decide_unpack _). vm_compute. reflexivity.
Defined.

(** X15. An operator that [__visit_infix_expression] has no case for,
    such as [!=], is passed over in silence: with the operands
    evaluated, the expression yields the value [None] and emits
    nothing.  The type reported with it is [int] for two integers,
    [float] for two floats and [None] otherwise. *)
Theorem infix_unknown_operator (l r : Node) (op : string) (s s1 s2 : Compiler)
    (lv rv : Value) (lt rt : PyType) :
  resolve_value l s = Ok (Some (lv, lt)) s1 →
  resolve_value r s1 = Ok (Some (rv, rt)) s2 →
  op ∉ infix_operators →
  resolve_value (InfixExpression l op r) s
  = Ok (Some (PyNone,
              if is_IntType rt && is_IntType lt then Some (IntType 32)
              else if is_FloatType rt && is_FloatType lt then Some FloatType
              else None)) s2.
Proof.
  intros Hl Hr Hop. simpl. apply wrapped_Ok.
  rewrite (infix_operands _ _ _ _ _ _ _ _ _ _ Hl Hr).
  by apply visit_infix_unknown.
Qed.

Lemma infix_unknown_operator_witness :
  resolve_value one_ne_two inside_main
  = Ok (Some (PyNone, Some (IntType 32))) inside_main.
Proof.
  apply (infix_unknown_operator (IntegerLiteral 1) (IntegerLiteral 2) "!="
           inside_main inside_main inside_main
           (Constant (IntType 32) (CInt 1)) (Constant (IntType 32) (CInt 2))
           (Some (IntType 32)) (Some (IntType 32)));
    try reflexivity.
  apply (bool_decide_unpack _). vm_compute. reflexivity.
Defined.

End InfixTheorems.
(** ** Several instructions emitted in a row *)

Section Rows.

Lemma emitted_one cls typ op ops b o s :
  emitted cls typ op ops b o s
  = inserted_all [Instruction (next_uid s) cls typ op ops] b o s.
Proof. done. Qed.

Lemma with_all_snoc a row i o :
  with_inserted (length row + a) i (with_all a row o) = with_all a (row ++ [i]) o.
Proof.
  unfold with_inserted, with_all. simpl. f_equal.
  set (l := instructions o).
  destruct (decide (a ≤ length l)) as [Hle | Hgt].
  - rewrite app_assoc.
    rewrite take_app_ge by (rewrite length_app, length_take; lia).
    rewrite drop_app_ge by (rewrite length_app, length_take; lia).
    rewrite length_app, length_take.
    replace (length row + a - (a `min` length l + length row)) with 0 by lia.
    rewrite take_0, drop_0, app_nil_r. by rewrite <- !app_assoc.
  - rewrite (take_ge l a), (drop_ge l a) by lia. rewrite !app_nil_r.
    rewrite take_ge, drop_ge by (rewrite length_app; lia).
    by rewrite <- app_assoc.
Qed.

Lemma lookup_inserted_all row b o s :
  block_store s !! b = Some o →
  block_store (inserted_all row b o s) !! b
  = Some (with_all (_anchor (builder s)) row o).
Proof.
  intros Ho. simpl. apply list_lookup_insert_eq. by eapply lookup_lt_Some.
Qed.

(** One more instruction after a row of them. *)
Lemma emitted_snoc row cls typ op ops b o s :
  emitted cls typ op ops b (with_all (_anchor (builder s)) row o)
    (inserted_all row b o s)
  = inserted_all (row ++ [Instruction (length row + next_uid s) cls typ op ops]) b o s.
Proof.
  unfold emitted, inserted, inserted_all. simpl.
  rewrite list_insert_insert_eq, with_all_snoc, length_app. simpl.
  by replace (length row + 1) with (S (length row)) by lia.
Qed.

Lemma emit_after row cls typ op ops b o s :
  block_store s !! b = Some o →
  (i ← Ir.new_instruction cls typ op ops; Ir._insert i;; mret i)
    (inserted_all row b o s)
  = Ok (Instruction (length row + next_uid s) cls typ op ops)
       (inserted_all (row ++ [Instruction (length row + next_uid s) cls typ op ops])
          b o s).
Proof.
  intros Ho.
  rewrite (emit_Ok cls typ op ops (inserted_all row b o s) b
             (with_all (_anchor (builder s)) row o) eq_refl
             (lookup_inserted_all _ _ _ _ Ho)).
  by rewrite emitted_snoc.
Qed.

(** The row does not depend on the module. *)
Lemma inserted_all_set_module row b o m s :
  inserted_all row b o (set_module m s) = set_module m (inserted_all row b o s).
Proof. done. Qed.

Lemma castop_Ok op v vt typ s b o :
  type_of v = Some vt → IrType_eqb vt typ = false →
  _block (builder s) = Some b → block_store s !! b = Some o →
  Ir._castop op v typ s
  = Ok (Instruction (next_uid s) CastInstr typ op [v])
       (emitted CastInstr typ op [v] b o s).
Proof.
  intros Hv Hne Hb Ho. unfold Ir._castop. rewrite Hv, Hne. by apply emit_Ok.
Qed.

Lemma castop_same op v typ s :
  type_of v = Some typ → Ir._castop op v typ s = Ok v s.
Proof. intros Hv. unfold Ir._castop. by rewrite Hv, IrType_eqb_refl. Qed.

Lemma call_Ok fn r ts va args0 s b o :
  type_of fn = Some (PointerType (FunctionType r ts va)) →
  Ir.check_args ts args0 s = Ok tt s →
  _block (builder s) = Some b → block_store s !! b = Some o →
  Ir.call fn args0 s
  = Ok (Instruction (next_uid s) CallInstr r "call" (fn :: args0))
       (emitted CallInstr r "call" (fn :: args0) b o s).
Proof.
  intros Hfn Hargs Hb Ho. unfold Ir.call, Ir.function_type_of. rewrite Hfn.
  rewrite (bind_Ok _ _ s (FunctionType r ts va) s) by done.
  rewrite (bind_Ok _ _ _ _ _ Hargs). by apply emit_Ok.
Qed.

End Rows.

(** ** The power operator *)

Section Power.

Lemma new_Function_fresh r ts va n s :
  Globals.is_used (module s) n = false →
  Ir.new_Function (FunctionType r ts va) n s
  = Ok (Function n (FunctionType r ts va))
       (set_module
          (module s ++ [(n, GFunction {| function_type := FunctionType r ts va;
                                         function_args := imap (λ i t, Argument n i t) ts;
                                         blocks := [] |})]) s).
Proof.
  intros Hu. unfold Ir.new_Function, Globals.add_global, mbind, M_bind.
  by rewrite Hu.
Qed.

Lemma with_pow_set_module s : ∃ m, with_pow s = set_module m s.
Proof.
  unfold with_pow. destruct (Globals.find (module s) pow_name);
    [exists (module s); by destruct s | by eexists].
Qed.

Lemma with_pow_inserted_all row b o s :
  with_pow (inserted_all row b o s) = inserted_all row b o (with_pow s).
Proof.
  unfold with_pow. simpl. by destruct (Globals.find (module s) pow_name).
Qed.

Lemma power_operation_float_Ok base e s b o :
  type_of base = Some FloatType → type_of e = Some FloatType →
  _block (builder s) = Some b → block_store s !! b = Some o →
  (∀ g, Globals.find (module s) pow_name = Some g →
        ∃ f, g = GFunction f ∧ function_type f = pow_type) →
  power_operation_float base e FloatType s
  = Ok (Instruction (next_uid s) CallInstr FloatType "call"
          [Function pow_name pow_type; base; e])
       (emitted CallInstr FloatType "call" [Function pow_name pow_type; base; e]
          b o (with_pow s)).
Proof.
  intros Hbase He Hb Ho Hpow. unfold power_operation_float, with_pow.
  unfold pow_name in *. simpl.
  rewrite (bind_Ok _ _ s (module s) s) by done.
  destruct (Globals.find (module s) "llvm.pow.f32") as [g|] eqn:Hg.
  - destruct (Hpow g eq_refl) as (f & -> & Hf).
    erewrite bind_Ok.
    2:{ unfold Globals.get_global. rewrite Hg, Hf. done. }
    apply (call_Ok _ FloatType [FloatType; FloatType] false); try done.
    simpl. by rewrite Hbase, He.
  - erewrite bind_Ok.
    2:{ apply new_Function_fresh. unfold Globals.is_used. by rewrite Hg. }
    apply (call_Ok _ FloatType [FloatType; FloatType] false _
             (set_module _ s)); try done.
    simpl. by rewrite Hbase, He.
Qed.

Lemma power_operation_Ok base e wl wr s b o :
  type_of base = Some (IntType wl) → type_of e = Some (IntType wr) →
  _block (builder s) = Some b → block_store s !! b = Some o →
  (∀ g, Globals.find (module s) pow_name = Some g →
        ∃ f, g = GFunction f ∧ function_type f = pow_type) →
  let u := next_uid s in
  let i1 := Instruction u CastInstr FloatType "sitofp" [base] in
  let i2 := Instruction (S u) CastInstr FloatType "sitofp" [e] in
  let i3 := Instruction (S (S u)) CallInstr FloatType "call"
              [Function pow_name pow_type; i1; i2] in
  let i4 := Instruction (S (S (S u))) CastInstr (IntType 32) "fptosi" [i3] in
  power_operation base e (IntType 32) s
  = Ok i4 (inserted_all [i1; i2; i3; i4] b o (with_pow s)).
Proof.
  intros Hbase He Hb Ho Hpow u i1 i2 i3 i4. unfold power_operation.
  rewrite (bind_Ok _ _ _ _ _ (castop_Ok "sitofp" base _ FloatType s b o
                                Hbase eq_refl Hb Ho)).
  rewrite emitted_one.
  erewrite bind_Ok.
  2:{ unfold Ir._castop. rewrite He. simpl. by apply (emit_after [i1]). }
  erewrite bind_Ok.
  2:{ apply (power_operation_float_Ok i1 i2 _ b); [done | done | done | |].
      - by apply lookup_inserted_all.
      - exact Hpow. }
  rewrite with_pow_inserted_all.
  destruct (with_pow_set_module s) as [m ->].
  change ([i1] ++ [Instruction (length [i1] + next_uid s) CastInstr FloatType
                     "sitofp" [e]])%list with [i1; i2].
  rewrite (emitted_snoc [i1; i2] CallInstr FloatType "call" _ b o (set_module m s)).
  exact (emit_after [i1; i2; i3] CastInstr (IntType 32) "fptosi" [i3] b o
           (set_module m s) Ho).
Qed.

End Power.

Section PowerTheorems.

(** X16. The power of two floats.  With both operands reported as
    floats and their values of type [float], [l ^ r] emits one call of
    the intrinsic [llvm.pow.f32], of type [float (float, float)], on the
    two values.  The intrinsic is declared in the module when the module
    does not have it yet, and the one already declared is called
    otherwise. *)
Theorem float_power_spec (l r : Node) (s s1 s2 : Compiler) (lv rv : Value)
    (lt rt : PyType) (b : nat) (o : BlockObj) :
  resolve_value l s = Ok (Some (lv, lt)) s1 →
  resolve_value r s1 = Ok (Some (rv, rt)) s2 →
  is_FloatType lt = true → is_FloatType rt = true →
  type_of lv = Some FloatType → type_of rv = Some FloatType →
  _block (builder s2) = Some b → block_store s2 !! b = Some o →
  (∀ g, Globals.find (module s2) pow_name = Some g →
        ∃ f, g = GFunction f ∧ function_type f = pow_type) →
  resolve_value (InfixExpression l "^" r) s
  = Ok (Some (Instruction (next_uid s2) CallInstr FloatType "call"
                [Function pow_name pow_type; lv; rv], Some FloatType))
       (emitted CallInstr FloatType "call" [Function pow_name pow_type; lv; rv]
          b o (with_pow s2)).
Proof.
  intros Hl Hr Hlf Hrf Hlv Hrv Hb Ho Hpow. simpl. apply wrapped_Ok.
  rewrite (infix_operands _ _ _ _ _ _ _ _ _ _ Hl Hr).
  unfold visit_infix_expression.
  rewrite (bind_Ok _ _ s2 (lv, lt) s2) by reflexivity.
  rewrite (bind_Ok _ _ s2 (rv, rt) s2) by reflexivity.
  assert (is_IntType lt = false) as Hli by (by destruct lt as [[]|]).
  rewrite Hrf, Hlf, Hli, andb_false_r. simpl.
  by rewrite (bind_Ok _ _ _ _ _
                (power_operation_float_Ok lv rv s2 b o Hlv Hrv Hb Ho Hpow)).
Qed.

Lemma float_power_spec_witness :
  resolve_value half_pow_half inside_main
  = Ok (Some (Instruction (next_uid inside_main) CallInstr FloatType "call"
                [Function pow_name pow_type; Constant FloatType (CFloat half);
                 Constant FloatType (CFloat half)], Some FloatType))
       (emitted CallInstr FloatType "call"
          [Function pow_name pow_type; Constant FloatType (CFloat half);
           Constant FloatType (CFloat half)]
          0 (new_block "main" "main_entry") (with_pow inside_main)).
Proof.
  apply (float_power_spec (FloatLiteral half) (FloatLiteral half)
           inside_main inside_main inside_main
           (Constant FloatType (CFloat half)) (Constant FloatType (CFloat half))
           (Some FloatType) (Some FloatType) 0 (new_block "main" "main_entry"));
    try reflexivity.
  intros g Hg. vm_compute in Hg. discriminate Hg.
Defined.

(** X17. The power of two integers goes through floats.  With both
    operands reported as integers, [l ^ r] emits four instructions in a
    row at the cursor: the conversion of each operand to [float]
    ([sitofp]), the call of [llvm.pow.f32] on the two results, and the
    conversion of what it returns to [int] ([fptosi]), which is the value
    of the expression. *)
Theorem int_power_spec (l r : Node) (s s1 s2 : Compiler) (lv rv : Value)
    (lt rt : PyType) (wl wr : nat) (b : nat) (o : BlockObj) :
  resolve_value l s = Ok (Some (lv, lt)) s1 →
  resolve_value r s1 = Ok (Some (rv, rt)) s2 →
  is_IntType lt = true → is_IntType rt = true →
  type_of lv = Some (IntType wl) → type_of rv = Some (IntType wr) →
  _block (builder s2) = Some b → block_store s2 !! b = Some o →
  (∀ g, Globals.find (module s2) pow_name = Some g →
        ∃ f, g = GFunction f ∧ function_type f = pow_type) →
  let u := next_uid s2 in
  let i1 := Instruction u CastInstr FloatType "sitofp" [lv] in
  let i2 := Instruction (S u) CastInstr FloatType "sitofp" [rv] in
  let i3 := Instruction (S (S u)) CallInstr FloatType "call"
              [Function pow_name pow_type; i1; i2] in
  let i4 := Instruction (S (S (S u))) CastInstr (IntType 32) "fptosi" [i3] in
  resolve_value (InfixExpression l "^" r) s
  = Ok (Some (i4, Some (IntType 32)))
       (inserted_all [i1; i2; i3; i4] b o (with_pow s2)).
Proof.
  intros Hl Hr Hli Hri Hlv Hrv Hb Ho Hpow u i1 i2 i3 i4. simpl.
  apply wrapped_Ok.
  rewrite (infix_operands _ _ _ _ _ _ _ _ _ _ Hl Hr).
  unfold visit_infix_expression.
  rewrite (bind_Ok _ _ s2 (lv, lt) s2) by reflexivity.
  rewrite (bind_Ok _ _ s2 (rv, rt) s2) by reflexivity.
  rewrite Hri, Hli. simpl.
  by rewrite (bind_Ok _ _ _ _ _
                (power_operation_Ok lv rv wl wr s2 b o Hlv Hrv Hb Ho Hpow)).
Qed.

Lemma int_power_spec_witness :
  resolve_value two_pow_three inside_main
  = Ok (Some (Instruction (S (S (S (next_uid inside_main)))) CastInstr
                (IntType 32) "fptosi"
                [Instruction (S (S (next_uid inside_main))) CallInstr FloatType
                   "call"
                   [Function pow_name pow_type;
                    Instruction (next_uid inside_main) CastInstr FloatType
                      "sitofp" [Constant (IntType 32) (CInt 2)];
                    Instruction (S (next_uid inside_main)) CastInstr FloatType
                      "sitofp" [Constant (IntType 32) (CInt 3)]]],
              Some (IntType 32)))
       (inserted_all
          [Instruction (next_uid inside_main) CastInstr FloatType "sitofp"
             [Constant (IntType 32) (CInt 2)];
           Instruction (S (next_uid inside_main)) CastInstr FloatType "sitofp"
             [Constant (IntType 32) (CInt 3)];
           Instruction (S (S (next_uid inside_main))) CallInstr FloatType "call"
             [Function pow_name pow_type;
              Instruction (next_uid inside_main) CastInstr FloatType "sitofp"
                [Constant (IntType 32) (CInt 2)];
              Instruction (S (next_uid inside_main)) CastInstr FloatType
                "sitofp" [Constant (IntType 32) (CInt 3)]];
           Instruction (S (S (S (next_uid inside_main)))) CastInstr (IntType 32)
             "fptosi"
             [Instruction (S (S (next_uid inside_main))) CallInstr FloatType
                "call"
                [Function pow_name pow_type;
                 Instruction (next_uid inside_main) CastInstr FloatType
                   "sitofp" [Constant (IntType 32) (CInt 2)];
                 Instruction (S (next_uid inside_main)) CastInstr FloatType
                   "sitofp" [Constant (IntType 32) (CInt 3)]]]]
          0 (new_block "main" "main_entry") (with_pow inside_main)).
Proof.
  apply (int_power_spec (IntegerLiteral 2) (IntegerLiteral 3)
           inside_main inside_main inside_main
           (Constant (IntType 32) (CInt 2)) (Constant (IntType 32) (CInt 3))
           (Some (IntType 32)) (Some (IntType 32)) 32 32
           0 (new_block "main" "main_entry"));
    try reflexivity.
  intros g Hg. vm_compute in Hg. discriminate Hg.
Defined.

End PowerTheorems.
(** ** String constants and [printf] *)

Section Strings.

Lemma utf8_encode_app a : ∀ b, utf8_encode (a ++ b) = (utf8_encode a ++ utf8_encode b)%list.
Proof.
  induction a as [|c a IH]; intros b; simpl; [done|].
  rewrite IH. by destruct (decide _).
Qed.

Lemma utf8_encode_terminated str :
  last (utf8_encode (str ++ NUL)) = Some "000"%char.
Proof. rewrite utf8_encode_app. simpl. by rewrite last_snoc. Qed.

Lemma convert_string_Ok v s :
  Globals.is_used (module s) ("__str_" ++ pretty (counter s + 1)) = false →
  convert_string v s
  = Ok (GlobalVariable ("__str_" ++ pretty (counter s + 1))
          (gv_type (string_constant (replace_escaped_newline v ++ NUL))),
        Some (gv_type (string_constant (replace_escaped_newline v ++ NUL))))
       (set_module
          (module s ++
           [("__str_" ++ pretty (counter s + 1),
             GVariable (string_constant (replace_escaped_newline v ++ NUL)))])
          (set_counter (counter s + 1) s)).
Proof.
  intros Hu. unfold convert_string.
  rewrite (bind_Ok _ _ s (counter s + 1) (set_counter (counter s + 1) s)) by done.
  unfold Ir.new_GlobalVariable, Globals.add_global, mbind, M_bind. simpl.
  by rewrite Hu.
Qed.

Lemma convert_string_used v s :
  Globals.is_used (module s) ("__str_" ++ pretty (counter s + 1)) = true →
  convert_string v s = Raise DuplicatedNameError (set_counter (counter s + 1) s).
Proof.
  intros Hu. unfold convert_string.
  rewrite (bind_Ok _ _ s (counter s + 1) (set_counter (counter s + 1) s)) by done.
  unfold Ir.new_GlobalVariable, Globals.add_global, mbind, M_bind. simpl.
  by rewrite Hu.
Qed.

Lemma call_after row fn r ts va args0 b o s :
  type_of fn = Some (PointerType (FunctionType r ts va)) →
  (∀ s', Ir.check_args ts args0 s' = Ok tt s') →
  block_store s !! b = Some o →
  Ir.call fn args0 (inserted_all row b o s)
  = Ok (Instruction (length row + next_uid s) CallInstr r "call" (fn :: args0))
       (inserted_all
          (row ++ [Instruction (length row + next_uid s) CallInstr r "call"
                     (fn :: args0)]) b o s).
Proof.
  intros Hfn Hargs Ho.
  rewrite (call_Ok fn r ts va args0 (inserted_all row b o s) b
             (with_all (_anchor (builder s)) row o) Hfn (Hargs _) eq_refl
             (lookup_inserted_all _ _ _ _ Ho)).
  by rewrite emitted_snoc.
Qed.

Lemma store_after row v ptr pointee b o s :
  type_of ptr = Some (PointerType pointee) → type_of v = Some pointee →
  block_store s !! b = Some o →
  Ir.store v ptr (inserted_all row b o s)
  = Ok (Instruction (length row + next_uid s) StoreInstr VoidType "store" [v; ptr])
       (inserted_all
          (row ++ [Instruction (length row + next_uid s) StoreInstr VoidType
                     "store" [v; ptr]]) b o s).
Proof.
  intros Hp Hv Ho.
  rewrite (store_Ok v ptr pointee (inserted_all row b o s) b
             (with_all (_anchor (builder s)) row o) Hp Hv eq_refl
             (lookup_inserted_all _ _ _ _ Ho)).
  by rewrite emitted_snoc.
Qed.

Lemma castop_after row op v vt typ b o s :
  type_of v = Some vt → IrType_eqb vt typ = false →
  block_store s !! b = Some o →
  Ir._castop op v typ (inserted_all row b o s)
  = Ok (Instruction (length row + next_uid s) CastInstr typ op [v])
       (inserted_all
          (row ++ [Instruction (length row + next_uid s) CastInstr typ op [v]])
          b o s).
Proof.
  intros Hv Hne Ho.
  rewrite (castop_Ok op v vt typ (inserted_all row b o s) b
             (with_all (_anchor (builder s)) row o) Hv Hne eq_refl
             (lookup_inserted_all _ _ _ _ Ho)).
  by rewrite emitted_snoc.
Qed.


Lemma castop_skipped op v vt typ s :
  type_of v = Some vt → IrType_eqb vt typ = true → Ir._castop op v typ s = Ok v s.
Proof. intros Hv Heq. unfold Ir._castop. by rewrite Hv, Heq. Qed.

Lemma load_Ok ptr pointee s b o :
  type_of ptr = Some (PointerType pointee) →
  _block (builder s) = Some b → block_store s !! b = Some o →
  Ir.load ptr s
  = Ok (Instruction (next_uid s) LoadInstr pointee "load" [ptr])
       (emitted LoadInstr pointee "load" [ptr] b o s).
Proof. intros Hp Hb Ho. unfold Ir.load. rewrite Hp. by apply emit_Ok. Qed.

Lemma load_after row ptr pointee b o s :
  type_of ptr = Some (PointerType pointee) →
  block_store s !! b = Some o →
  Ir.load ptr (inserted_all row b o s)
  = Ok (Instruction (length row + next_uid s) LoadInstr pointee "load" [ptr])
       (inserted_all
          (row ++ [Instruction (length row + next_uid s) LoadInstr pointee
                     "load" [ptr]]) b o s).
Proof.
  intros Hp Ho.
  rewrite (load_Ok ptr pointee (inserted_all row b o s) b
             (with_all (_anchor (builder s)) row o) Hp eq_refl
             (lookup_inserted_all _ _ _ _ Ho)).
  by rewrite emitted_snoc.
Qed.

(** [printf] with a first argument that is a load: the slot is loaded
    again and what it holds is the format. *)
Lemma builtin_printf_variable lu lt ptr ops rest pointee fty s b o :
  Env.lookup (env s) "printf" s
  = Ok (Some (Function "printf" printf_type, fty)) s →
  type_of ptr = Some (PointerType pointee) → lt ≠ VoidType →
  _block (builder s) = Some b → block_store s !! b = Some o →
  let p0 := Instruction lu LoadInstr lt "load" (ptr :: ops) in
  let u := next_uid s in
  let i1 := Instruction u AllocaInstr (PointerType lt) "alloca" [] in
  let i2 := Instruction (S u) StoreInstr VoidType "store" [p0; i1] in
  let i3 := Instruction (S (S u)) LoadInstr pointee "load" [ptr] in
  let i4 := Instruction (S (S (S u))) CastInstr (PointerType (IntType 8)) "bitcast"
              [i3] in
  builtin_printf (p0 :: rest) (Some lt) s
  = if IrType_eqb pointee (PointerType (IntType 8)) then
      let i5 := Instruction (S (S (S u))) CallInstr (IntType 32) "call"
                  (Function "printf" printf_type :: i3 :: rest) in
      Ok i5 (inserted_all [i1; i2; i3; i5] b o s)
    else
      let i5 := Instruction (S (S (S (S u)))) CallInstr (IntType 32) "call"
                  (Function "printf" printf_type :: i4 :: rest) in
      Ok i5 (inserted_all [i1; i2; i3; i4; i5] b o s).
Proof.
  intros Hp Hptr Hvoid Hb Ho p0 u i1 i2 i3 i4. unfold builtin_printf.
  rewrite (bind_Ok _ _ s (Some (Function "printf" printf_type, fty)) s)
    by exact Hp.
  rewrite (bind_Ok _ _ s (Function "printf" printf_type, fty) s) by done.
  rewrite (bind_Ok _ _ _ _ _ (alloca_Ok lt s b o Hvoid Hb Ho)).
  rewrite emitted_one.
  rewrite (bind_Ok _ _ _ _ _ (store_after [i1] p0 i1 lt b o s eq_refl eq_refl Ho)).
  subst p0.
  change (is_LoadInstr (Instruction lu LoadInstr lt "load" (ptr :: ops)))
    with true. cbv iota.
  change ([i1] ++ [Instruction (length [i1] + next_uid s) StoreInstr VoidType
                     "store" [Instruction lu LoadInstr lt "load" (ptr :: ops); i1]])%list
    with [i1; i2].
  rewrite (bind_Ok _ _ _ _ _ (load_after [i1; i2] ptr pointee b o s Hptr Ho)).
  destruct (IrType_eqb pointee (PointerType (IntType 8))) eqn:Heq.
  - erewrite bind_Ok; [|by apply (castop_skipped _ _ pointee)].
    apply (call_after [i1; i2; i3] _ (IntType 32) [PointerType (IntType 8)] true);
      [done | | done].
    intros s'. simpl. by rewrite Heq.
  - rewrite (bind_Ok _ _ _ _ _
               (castop_after [i1; i2; i3] "bitcast" i3 pointee
                  (PointerType (IntType 8)) b o s eq_refl Heq Ho)).
    by apply (call_after [i1; i2; i3; i4] _ (IntType 32)
                [PointerType (IntType 8)] true).
Qed.

End Strings.

Section StringTheorems.

(** X18. A string literal, wherever the cursor is.  The counter is
    advanced and, if the name [__str_<counter>] is free in the module, a
    global of that name is added: a constant with internal linkage whose
    bytes are the literal with every escaped newline (a backslash and an
    [n]) replaced by a newline and a NUL, and a NUL at the end.  The
    value of the literal is that global, and it is the global that
    [__str_<counter>] names right afterwards, which is how [printf]
    finds its format.  If the name is taken, [DuplicatedNameError] is
    raised with the counter already advanced. *)
Theorem string_literal_spec (v : string) (s : Compiler) :
  let name := "__str_" ++ pretty (counter s + 1) in
  let c := string_constant (replace_escaped_newline v ++ NUL) in
  let s' := set_module (module s ++ [(name, GVariable c)])
              (set_counter (counter s + 1) s) in
  (Globals.is_used (module s) name = false →
   resolve_value (StringLiteral v) s
   = Ok (Some (GlobalVariable name (gv_type c), Some (gv_type c))) s' ∧
   Globals.get_global ("__str_" ++ pretty (counter s')) s'
   = Ok (GlobalVariable name (gv_type c)) s' ∧
   ∃ bytes, initializer c
            = Some (Constant (ArrayType (IntType 8)
                                (String.length (replace_escaped_newline v ++ NUL)))
                      (CBytes bytes)) ∧
            last bytes = Some "000"%char) ∧
  (Globals.is_used (module s) name = true →
   resolve_value (StringLiteral v) s
   = Raise DuplicatedNameError (set_counter (counter s + 1) s)).
Proof.
  intros name c s'. split; intros Hu.
  - split_and!.
    + simpl. apply wrapped_Ok. by apply convert_string_Ok.
    + unfold Globals.get_global. subst s'. simpl. fold name.
      rewrite find_app. unfold Globals.is_used in Hu.
      apply orb_false_elim in Hu as [_ Hu].
      apply bool_decide_eq_false in Hu.
      destruct (Globals.find (module s) name); [exfalso; by apply Hu|].
      by rewrite String.eqb_refl.
    + eexists. split; [reflexivity | apply utf8_encode_terminated].
  - simpl. apply bind_Raise. by apply convert_string_used.
Qed.

Lemma string_literal_spec_witness :
  resolve_value (StringLiteral "%s") inside_main
  = Ok (Some (GlobalVariable "__str_1" (PointerType (ArrayType (IntType 8) 3)),
              Some (PointerType (ArrayType (IntType 8) 3))))
       (set_module (module inside_main ++ [("__str_1", GVariable (string_constant ("%s" ++ NUL)))])
          (set_counter 1 inside_main)).
Proof.
  refine (proj1 (proj1 (string_literal_spec "%s" inside_main) _)).
  reflexivity.
Defined.



(** X20. [printf] whose first argument is a load, such as a variable
    holding a string; what a load gives is not of type [void].  A slot
    of the argument's type is allocated and the argument stored in it;
    then the slot the argument was loaded from is loaded once more, and
    what that gives is the format: cast to [i8*] when it is of another
    type, and passed as it is otherwise. *)
Theorem printf_of_variable_spec (lu : nat) (lt : IrType) (ptr : Value)
    (ops rest : list Value) (pointee : IrType) (fty : PyType) (s : Compiler)
    (b : nat) (o : BlockObj) :
  Env.lookup (env s) "printf" s
  = Ok (Some (Function "printf" printf_type, fty)) s →
  type_of ptr = Some (PointerType pointee) → lt ≠ VoidType →
  _block (builder s) = Some b → block_store s !! b = Some o →
  let p0 := Instruction lu LoadInstr lt "load" (ptr :: ops) in
  let u := next_uid s in
  let i1 := Instruction u AllocaInstr (PointerType lt) "alloca" [] in
  let i2 := Instruction (S u) StoreInstr VoidType "store" [p0; i1] in
  let i3 := Instruction (S (S u)) LoadInstr pointee "load" [ptr] in
  let i4 := Instruction (S (S (S u))) CastInstr (PointerType (IntType 8)) "bitcast"
              [i3] in
  builtin_printf (p0 :: rest) (Some lt) s
  = if IrType_eqb pointee (PointerType (IntType 8)) then
      let i5 := Instruction (S (S (S u))) CallInstr (IntType 32) "call"
                  (Function "printf" printf_type :: i3 :: rest) in
      Ok i5 (inserted_all [i1; i2; i3; i5] b o s)
    else
      let i5 := Instruction (S (S (S (S u)))) CallInstr (IntType 32) "call"
                  (Function "printf" printf_type :: i4 :: rest) in
      Ok i5 (inserted_all [i1; i2; i3; i4; i5] b o s).
Proof. apply builtin_printf_variable. Qed.

Lemma printf_of_variable_spec_witness :
  let str := PointerType (ArrayType (IntType 8) 5) in
  let slot := Instruction 0 AllocaInstr (PointerType str) "alloca" [] in
  let p0 := Instruction 2 LoadInstr str "load" [slot] in
  let u := next_uid loaded_a in
  let i1 := Instruction u AllocaInstr (PointerType str) "alloca" [] in
  let i2 := Instruction (S u) StoreInstr VoidType "store" [p0; i1] in
  let i3 := Instruction (S (S u)) LoadInstr str "load" [slot] in
  let i4 := Instruction (S (S (S u))) CastInstr (PointerType (IntType 8))
              "bitcast" [i3] in
  let i5 := Instruction (S (S (S (S u)))) CallInstr (IntType 32) "call"
              [Function "printf" printf_type; i4] in
  builtin_printf [p0] (Some str) loaded_a
  = Ok i5 (inserted_all [i1; i2; i3; i4; i5] 0 (main_entry loaded_a) loaded_a).
Proof.
  intros str slot p0 u i1 i2 i3 i4 i5.
  apply (printf_of_variable_spec 2 str slot [] [] str (Some (IntType 32))
           loaded_a 0 (main_entry loaded_a));
    first [vm_compute; reflexivity | discriminate].
Defined.

(** X21. [printf] called with no argument raises [IndexError] before
    anything is emitted or looked up: the call reads the type of its
    first argument from an empty list. *)
Theorem printf_without_arguments_raises (s : Compiler) :
  resolve_value (CallExpression "printf" []) s = Raise IndexError s ∧
  compile (ExpressionStatement (CallExpression "printf" [])) s
  = Raise IndexError s.
Proof. done. Qed.

End StringTheorems.
(** ** The lowering of loops *)

Section Loops.

Lemma while_entered_Ok {A} test b0 o0 f s0 (rest : nat → nat → M A) :
  _block (builder s0) = Some b0 → block_store s0 !! b0 = Some o0 →
  terminator o0 = None →
  Globals.find (module s0) (block_parent o0) = Some (GFunction f) →
  (n ← increment_counter;
   while_loop_entry ← Ir.append_basic_block ("while_loop_entry_" ++ pretty n);
   c ← get counter;
   while_loop_otherwise ← Ir.append_basic_block ("while_loop_otherwise_" ++ pretty c);
   Ir.cbranch test while_loop_entry while_loop_otherwise;;
   Ir.position_at_start while_loop_entry;;
   rest while_loop_entry while_loop_otherwise) s0
  = rest (length (block_store s0)) (S (length (block_store s0)))
         (while_entered test b0 o0 f s0).
Proof.
  intros Hb Ho Ht Hf.
  assert (increment_counter s0 = Ok (counter s0 + 1) (set_counter (counter s0 + 1) s0))
    as H1 by done.
  rewrite (bind_Ok _ _ _ _ _ H1).
  set (s1 := set_counter (counter s0 + 1) s0).
  set (fn := block_parent o0). set (k := length (block_store s0)).
  set (n := pretty (counter s0 + 1)).
  rewrite (bind_Ok _ _ _ _ _
             (append_basic_block_Ok ("while_loop_entry_" ++ n) s1 b0 o0 f Hb Ho Hf)).
  fold fn. set (s2 := appended fn ("while_loop_entry_" ++ n) f s1).
  assert (block_store s2 !! b0 = Some o0) as Ho2
    by (by apply lookup_app_l_Some).
  assert (Globals.find (module s2) fn
          = Some (GFunction (with_blocks f (blocks f ++ [k])))) as Hf2
    by (by eapply find_replace_same).
  rewrite (bind_Ok _ _ s2 (counter s0 + 1) s2) by done.
  rewrite (bind_Ok _ _ _ _ _
             (append_basic_block_Ok ("while_loop_otherwise_" ++ n) s2 b0 o0 _
                Hb Ho2 Hf2)).
  fold fn. set (s3 := appended fn ("while_loop_otherwise_" ++ n) _ s2).
  assert (block_store s3 !! b0 = Some o0) as Ho3
    by (by apply lookup_app_l_Some).
  assert (length (block_store s2) = S k) as Hk1 by apply length_appended.
  change (length (block_store s1)) with k.
  rewrite Hk1.
  rewrite (bind_Ok _ _ _ _ _ (cbranch_Ok test k (S k) s3 b0 o0 Hb Ho3 Ht)).
  done.
Qed.

Lemma for_entered_Ok {A} b1 o1 f s1 (rest : nat → nat → M A) :
  _block (builder s1) = Some b1 → block_store s1 !! b1 = Some o1 →
  terminator o1 = None →
  Globals.find (module s1) (block_parent o1) = Some (GFunction f) →
  (n ← increment_counter;
   for_loop_entry ← Ir.append_basic_block ("for_loop_entry_" ++ pretty n);
   c ← get counter;
   for_loop_otherwise ← Ir.append_basic_block ("for_loop_otherwise_" ++ pretty c);
   modify (λ s, set_breakpoints (breakpoints s ++ [for_loop_otherwise]) s);;
   modify (λ s, set_continues (continues s ++ [for_loop_entry]) s);;
   Ir.branch for_loop_entry;;
   Ir.position_at_start for_loop_entry;;
   rest for_loop_entry for_loop_otherwise) s1
  = rest (length (block_store s1)) (S (length (block_store s1)))
         (for_entered b1 o1 f s1).
Proof.
  intros Hb Ho Ht Hf.
  assert (increment_counter s1 = Ok (counter s1 + 1) (set_counter (counter s1 + 1) s1))
    as H1 by done.
  rewrite (bind_Ok _ _ _ _ _ H1).
  set (sa := set_counter (counter s1 + 1) s1).
  set (fn := block_parent o1). set (k := length (block_store s1)).
  set (n := pretty (counter s1 + 1)).
  rewrite (bind_Ok _ _ _ _ _
             (append_basic_block_Ok ("for_loop_entry_" ++ n) sa b1 o1 f Hb Ho Hf)).
  fold fn. set (sb := appended fn ("for_loop_entry_" ++ n) f sa).
  assert (block_store sb !! b1 = Some o1) as Ho2
    by (by apply lookup_app_l_Some).
  assert (Globals.find (module sb) fn
          = Some (GFunction (with_blocks f (blocks f ++ [k])))) as Hf2
    by (by eapply find_replace_same).
  rewrite (bind_Ok _ _ sb (counter s1 + 1) sb) by done.
  rewrite (bind_Ok _ _ _ _ _
             (append_basic_block_Ok ("for_loop_otherwise_" ++ n) sb b1 o1 _
                Hb Ho2 Hf2)).
  fold fn. set (sc := appended fn ("for_loop_otherwise_" ++ n) _ sb).
  assert (block_store sc !! b1 = Some o1) as Ho3
    by (by apply lookup_app_l_Some).
  assert (length (block_store sb) = S k) as Hk1 by apply length_appended.
  change (length (block_store sa)) with k.
  rewrite Hk1.
  rewrite (bind_Ok _ _ sc tt (set_breakpoints (breakpoints sc ++ [S k]) sc)) by done.
  set (sd1 := set_breakpoints (breakpoints sc ++ [S k]) sc).
  rewrite (bind_Ok _ _ sd1 tt (set_continues (continues sd1 ++ [k]) sd1)) by done.
  set (sd := set_continues (continues sd1 ++ [k]) sd1).
  rewrite (bind_Ok _ _ _ _ _ (branch_Ok k sd b1 o1 Hb Ho3 Ht)).
  done.
Qed.

(** The two [pop]s at the end of a [for]. *)
Lemma pops_Ok bs cs x y s :
  breakpoints s = (bs ++ [x])%list → continues s = (cs ++ [y])%list →
  (bs ← (bs ← get breakpoints; pop bs);
   modify (set_breakpoints bs);;
   cs ← (cs ← get continues; pop cs);
   modify (set_continues cs)) s
  = Ok tt (set_continues cs (set_breakpoints bs s)).
Proof.
  intros Hbs Hcs. unfold get, modify, mbind, M_bind. simpl.
  rewrite Hbs, pop_snoc. simpl. by rewrite Hcs, pop_snoc.
Qed.

End Loops.

Section LoopTheorems.

(** X22. A [while] statement, compiled with the cursor in an open block
    [b0].  The condition is evaluated there; the entry and the exit
    block of the loop are appended and [b0] is closed by a conditional
    branch to them ([while_entered]); the body is compiled from the start
    of the entry block; then the condition is evaluated a second time,
    where the body left the cursor, and the block there is closed by a
    conditional branch to the same two blocks, after which the cursor is
    at the start of the exit block.  If the body left the cursor in a
    block that is already terminated (it ended in a [return], say), the
    second branch trips the builder's assertion instead. *)
Theorem while_statement_spec (cond body : Node) (s s0 s2 s3 : Compiler)
    (test test' : Value) (T T' : PyType) (b0 b3 : nat) (o0 o3 : BlockObj)
    (f : FunctionObj) :
  resolve_value cond s = Ok (Some (test, T)) s0 →
  _block (builder s0) = Some b0 → block_store s0 !! b0 = Some o0 →
  terminator o0 = None →
  Globals.find (module s0) (block_parent o0) = Some (GFunction f) →
  let entry := length (block_store s0) in
  let otherwise := S (length (block_store s0)) in
  compile body (while_entered test b0 o0 f s0) = Ok tt s2 →
  resolve_value cond s2 = Ok (Some (test', T')) s3 →
  _block (builder s3) = Some b3 → block_store s3 !! b3 = Some o3 →
  compile (WhileStatement cond body) s
  = match terminator o3 with
    | None =>
        Ok tt (set_builder {| _block := Some otherwise; _anchor := 0 |}
                 (terminated ConditionalBranch "br"
                    [test'; Block entry; Block otherwise] b3 o3 s3))
    | Some _ => Raise AssertionError (set_next_uid (S (next_uid s3)) s3)
    end.
Proof.
  intros Hc Hb Ho Ht Hf entry otherwise Hbody Hc' Hb3 Ho3.
  simpl. unfold visit_while_statement.
  rewrite (bind_Ok _ _ _ _ _ (resolved_Ok _ _ _ _ Hc)).
  rewrite (while_entered_Ok test b0 o0 f s0
             (λ while_loop_entry while_loop_otherwise,
                compile body;;
                '(test, _) ← (r ← resolve_value cond; unpack r);
                Ir.cbranch test while_loop_entry while_loop_otherwise;;
                Ir.position_at_start while_loop_otherwise) Hb Ho Ht Hf).
  rewrite (bind_Ok _ _ _ _ _ Hbody).
  rewrite (bind_Ok _ _ _ _ _ (resolved_Ok _ _ _ _ Hc')).
  destruct (terminator o3) as [t3|] eqn:Ht3.
  - apply bind_Raise. by eapply terminate_terminated.
  - by rewrite (bind_Ok _ _ _ _ _ (cbranch_Ok test' entry otherwise s3 b3 o3
                                     Hb3 Ho3 Ht3)).
Qed.

Lemma while_statement_spec_witness :
  let s0 := final_state (resolve_value one_lt_two inside_main) in
  let s2 := while_entered (one_lt_two_at 0) 0 (block_at s0 0) (main_function s0) s0 in
  let s3 := final_state (resolve_value one_lt_two s2) in
  compile while_empty inside_main
  = Ok tt (set_builder {| _block := Some 2; _anchor := 0 |}
             (terminated ConditionalBranch "br"
                [one_lt_two_at 2; Block 1; Block 2] 1 (block_at s3 1) s3)).
Proof.
  intros s0 s2 s3.
  apply (while_statement_spec one_lt_two (BlockStatement []) inside_main s0 s2 s3
           (one_lt_two_at 0) (one_lt_two_at 2) (Some (IntType 1)) (Some (IntType 1))
           0 1 (block_at s0 0) (block_at s3 1) (main_function s0));
    vm_compute; reflexivity.
Defined.

(** X23. A [for] statement.  A scope is opened and the declaration of
    the loop variable compiled in it; with the cursor then in an open
    block [b1], the entry and the exit block are appended and pushed as
    continue and break target, and [b1] is closed by an unconditional
    branch to the entry block ([for_entered]): the body is entered
    without the condition having been tested.  Body and action are
    compiled from the start of the entry block, the condition is
    evaluated only after them, and the block the cursor is in then is
    closed by the conditional branch back to the entry block or on to the
    exit block.  The statement ends with the cursor at the start of the
    exit block and the two targets popped. *)
Theorem for_statement_spec (v c a body : Node) (s s1 s2 s3 s4 : Compiler)
    (test : Value) (T : PyType) (b1 b4 : nat) (o1 o4 : BlockObj)
    (f : FunctionObj) :
  compile v (entered s) = Ok tt s1 →
  _block (builder s1) = Some b1 → block_store s1 !! b1 = Some o1 →
  terminator o1 = None →
  Globals.find (module s1) (block_parent o1) = Some (GFunction f) →
  let entry := length (block_store s1) in
  let otherwise := S (length (block_store s1)) in
  compile body (for_entered b1 o1 f s1) = Ok tt s2 →
  compile a s2 = Ok tt s3 →
  resolve_value c s3 = Ok (Some (test, T)) s4 →
  _block (builder s4) = Some b4 → block_store s4 !! b4 = Some o4 →
  terminator o4 = None →
  compile (ForStatement v c a body) s
  = Ok tt (set_continues (continues s1)
             (set_breakpoints (breakpoints s1)
                (set_builder {| _block := Some otherwise; _anchor := 0 |}
                   (terminated ConditionalBranch "br"
                      [test; Block entry; Block otherwise] b4 o4 s4)))).
Proof.
  intros Hv Hb Ho Ht Hf entry otherwise Hbody Ha Hc Hb4 Ho4 Ht4.
  assert (breakpoints s4 = (breakpoints s1 ++ [otherwise])%list ∧
          continues s4 = (continues s1 ++ [entry])%list) as [Hbs Hcs].
  { destruct (respects_Ok _ _ _ _ _ _ (stacks_compile body) Hbody) as [B2 C2].
    destruct (respects_Ok _ _ _ _ _ _ (stacks_compile a) Ha) as [B3 C3].
    destruct (respects_Ok _ _ _ _ _ _ (stacks_resolve_value c) Hc) as [B4 C4].
    rewrite B4, B3, B2, C4, C3, C2. done. }
  change (compile (ForStatement v c a body) s)
    with (visit_for_statement (compile v) (resolve_value c) (compile a)
            (compile body) s).
  unfold visit_for_statement.
  rewrite (bind_Ok _ _ s (env s) s) by done.
  erewrite bind_Ok; [|reflexivity].
  rewrite (bind_Ok _ _ _ tt (entered s)) by done.
  rewrite (bind_Ok _ _ _ _ _ Hv).
  rewrite (for_entered_Ok b1 o1 f s1
             (λ for_loop_entry for_loop_otherwise,
                compile body;;
                compile a;;
                '(test, _) ← (r ← resolve_value c; unpack r);
                Ir.cbranch test for_loop_entry for_loop_otherwise;;
                Ir.position_at_start for_loop_otherwise;;
                bs ← (bs ← get breakpoints; pop bs);
                modify (set_breakpoints bs);;
                cs ← (cs ← get continues; pop cs);
                modify (set_continues cs)) Hb Ho Ht Hf).
  rewrite (bind_Ok _ _ _ _ _ Hbody).
  rewrite (bind_Ok _ _ _ _ _ Ha).
  rewrite (bind_Ok _ _ _ _ _ (resolved_Ok _ _ _ _ Hc)).
  rewrite (bind_Ok _ _ _ _ _ (cbranch_Ok test entry otherwise s4 b4 o4 Hb4 Ho4 Ht4)).
  erewrite bind_Ok; [|reflexivity].
  by apply (pops_Ok (breakpoints s1) (continues s1) otherwise entry).
Qed.

Lemma for_statement_spec_witness :
  let s1 := final_state (compile (LetStatement "i" (IntegerLiteral 0) "int")
                           (entered inside_main)) in
  let s2 := for_entered 0 (block_at s1 0) (main_function s1) s1 in
  let s3 := final_state
              (compile (AssignStatement "i"
                          (InfixExpression (IdentifierLiteral "i") "+"
                             (IntegerLiteral 1))) s2) in
  let r := resolve_value (InfixExpression (IdentifierLiteral "i") "<"
                            (IntegerLiteral 3)) s3 in
  compile count_to_three inside_main
  = Ok tt (set_continues [] (set_breakpoints []
             (set_builder {| _block := Some 2; _anchor := 0 |}
                (terminated ConditionalBranch "br"
                   [value_of r; Block 1; Block 2] 1
                   (block_at (final_state r) 1) (final_state r))))).
Proof.
  intros s1 s2 s3 r.
  apply (for_statement_spec (LetStatement "i" (IntegerLiteral 0) "int")
           (InfixExpression (IdentifierLiteral "i") "<" (IntegerLiteral 3))
           (AssignStatement "i"
              (InfixExpression (IdentifierLiteral "i") "+" (IntegerLiteral 1)))
           (BlockStatement []) inside_main s1 s2 s3 (final_state r)
           (value_of r) (Some (IntType 1)) 0 1 (block_at s1 0)
           (block_at (final_state r) 1) (main_function s1));
    vm_compute; reflexivity.
Defined.

End LoopTheorems.
(** ** The [if] without an alternative *)

Section IfThen.

Lemma if_then_entered_Ok test b0 o0 f s0 (body : M unit) :
  _block (builder s0) = Some b0 → block_store s0 !! b0 = Some o0 →
  terminator o0 = None →
  Globals.find (module s0) (block_parent o0) = Some (GFunction f) →
  Ir.if_then test body s0
  = (body;;
     t ← Ir.is_terminated;
     (if t : bool then mret tt else Ir.branch (S (length (block_store s0)));; mret tt);;
     Ir.position_at_end (S (length (block_store s0))))
      (if_then_entered test b0 o0 f s0).
Proof.
  intros Hb Ho Ht Hf. unfold Ir.if_then.
  assert (Ir.block s0 = Ok b0 s0) as H1
    by (unfold Ir.block, get, mbind, M_bind; simpl; by rewrite Hb).
  rewrite (bind_Ok _ _ _ _ _ H1).
  assert (get_block b0 s0 = Ok o0 s0) as H2 by (unfold get_block; by rewrite Ho).
  rewrite (bind_Ok _ _ _ _ _ H2).
  set (fn := block_parent o0). set (k := length (block_store s0)).
  set (l1 := Ir._label_suffix (block_name o0) ".if").
  set (l2 := Ir._label_suffix (block_name o0) ".endif").
  rewrite (bind_Ok _ _ _ _ _ (append_basic_block_Ok l1 s0 b0 o0 f Hb Ho Hf)).
  fold fn. set (s1 := appended fn l1 f s0).
  assert (block_store s1 !! b0 = Some o0) as Ho1 by (by apply lookup_app_l_Some).
  assert (Globals.find (module s1) fn
          = Some (GFunction (with_blocks f (blocks f ++ [k])))) as Hf1
    by (by eapply find_replace_same).
  rewrite (bind_Ok _ _ _ _ _ (append_basic_block_Ok l2 s1 b0 o0 _ Hb Ho1 Hf1)).
  fold fn. set (s2 := appended fn l2 _ s1).
  assert (block_store s2 !! b0 = Some o0) as Ho2 by (by apply lookup_app_l_Some).
  assert (length (block_store s1) = S k) as Hk1 by apply length_appended.
  rewrite Hk1. fold k.
  rewrite (bind_Ok _ _ _ _ _ (cbranch_Ok test k (S k) s2 b0 o0 Hb Ho2 Ht)).
  set (s3 := terminated ConditionalBranch "br" [test; Block k; Block (S k)] b0 o0 s2).
  assert (block_store s3 !! k = Some (new_block fn (given_label fn l1 s0))) as Hk.
  { assert (b0 < k) as Hlt by (by eapply lookup_lt_Some).
    unfold s3, terminated. simpl. rewrite list_lookup_insert_ne by lia.
    rewrite lookup_app_l by (rewrite length_app; simpl; lia).
    by rewrite lookup_app_r, Nat.sub_diag by lia. }
  assert (Ir.position_at_end k s3
          = Ok tt (set_builder {| _block := Some k; _anchor := 0 |} s3)) as H3.
  { unfold Ir.position_at_end, get_block, mbind, M_bind. by rewrite Hk. }
  by rewrite (bind_Ok _ _ _ _ _ H3).
Qed.

End IfThen.

Section IfThenTheorems.

(** X24. An [if] without [else], compiled with the cursor in an open
    block [b0].  The condition is evaluated; two blocks named after [b0]
    with the suffixes [.if] and [.endif], numbered when the function has
    these labels already, are appended and [b0] is closed by the
    conditional branch to them ([if_then_entered]); the
    consequence is compiled from the [.if] block; if the block at the
    cursor is then still open it receives a branch to the [.endif] block,
    and if it is terminated nothing is added ([arm_closed]).  Either way
    the [.endif] block stays in the function and the cursor is put at its
    end. *)
Theorem if_without_else_spec (cond cons : Node) (s s0 s2 s2' : Compiler)
    (test : Value) (T : PyType) (b0 : nat) (o0 oe : BlockObj) (f : FunctionObj)
    (t : bool) :
  resolve_value cond s = Ok (Some (test, T)) s0 →
  _block (builder s0) = Some b0 → block_store s0 !! b0 = Some o0 →
  terminator o0 = None →
  Globals.find (module s0) (block_parent o0) = Some (GFunction f) →
  let bbend := S (length (block_store s0)) in
  compile cons (if_then_entered test b0 o0 f s0) = Ok tt s2 →
  arm_closed bbend s2 = Some (t, s2') →
  block_store s2' !! bbend = Some oe →
  compile (IfStatement cond cons None) s
  = Ok tt (set_builder {| _block := Some bbend;
                          _anchor := length (instructions oe) |} s2').
Proof.
  intros Hc Hb Ho Ht Hf bbend Hcons Harm Hoe.
  simpl. unfold visit_if_statement.
  rewrite (bind_Ok _ _ _ _ _ (resolved_Ok _ _ _ _ Hc)).
  rewrite (if_then_entered_Ok test b0 o0 f s0 _ Hb Ho Ht Hf).
  rewrite (bind_Ok _ _ _ _ _ Hcons).
  etrans; [exact (arm_closed_Ok bbend s2 t s2' (λ _, Ir.position_at_end bbend) Harm)|].
  unfold Ir.position_at_end, get_block, mbind, M_bind. by rewrite Hoe.
Qed.

Lemma if_without_else_spec_witness :
  let s0 := final_state (resolve_value one_lt_two inside_main) in
  let s2 := final_state
              (compile (BlockStatement [ReturnStatement (IntegerLiteral 1)])
                 (if_then_entered (one_lt_two_at 0) 0 (block_at s0 0)
                    (main_function s0) s0)) in
  compile if_return inside_main
  = Ok tt (set_builder {| _block := Some 2; _anchor := 0 |} s2).
Proof.
  intros s0 s2.
  apply (if_without_else_spec one_lt_two
           (BlockStatement [ReturnStatement (IntegerLiteral 1)])
           inside_main s0 s2 s2 (one_lt_two_at 0) (Some (IntType 1)) 0
           (block_at s0 0) (block_at s2 2) (main_function s0) true);
    vm_compute; reflexivity.
Defined.

End IfThenTheorems.
(** ** Return, sequences, calls and the frame of [define] *)

Section Frames.

Lemma ret_Ok v s b o :
  _block (builder s) = Some b → block_store s !! b = Some o →
  terminator o = None →
  Ir.ret v s
  = Ok (Instruction (next_uid s) Ret VoidType "ret"
          (match v with PyNone => [] | _ => [v] end))
       (terminated Ret "ret" (match v with PyNone => [] | _ => [v] end) b o s).
Proof. intros. by apply terminate_Ok. Qed.

Lemma sequence_app (l1 l2 : list (M unit)) s :
  foldr (λ stmt rest, stmt;; rest) (mret tt) (l1 ++ l2) s
  = match foldr (λ stmt rest, stmt;; rest) (mret tt) l1 s with
    | Ok _ s1 => foldr (λ stmt rest, stmt;; rest) (mret tt) l2 s1
    | Raise e s1 => Raise e s1
    end.
Proof.
  revert s. induction l1 as [|m l1 IH]; intros s; simpl; [done|].
  unfold mbind, M_bind. destruct (m s) as [[] s1|e s1]; [apply IH | done].
Qed.

Lemma check_args_pure ts : ∀ args0 s s',
  Ir.check_args ts args0 s' = at_state (Ir.check_args ts args0 s) s'.
Proof.
  induction ts as [|t ts IH]; intros args0 s s'; simpl; [done|].
  destruct args0 as [|a args0]; [done|].
  destruct (type_of a) as [ty|]; [|done].
  destruct (IrType_eqb ty t); [apply IH | done].
Qed.

(** The scope a [define] has written to, seen from any scope. *)
Lemma resolve_define_frame e n v t s eo m :
  env_store s !! e = Some eo →
  ∀ fuel r,
    m ≠ n ∨ (∃ l, chain (env_store s) r l ∧ e ∉ l) →
    Env.resolve fuel r m (defined e eo n v t s)
    = at_state (Env.resolve fuel r m s) (defined e eo n v t s).
Proof.
  intros He. induction fuel as [|fuel IH]; intros r Hr; simpl; [done|].
  destruct (decide (r = e)) as [->|Hne].
  - rewrite list_lookup_insert_eq by (by eapply lookup_lt_Some).
    rewrite He. simpl.
    destruct Hr as [Hm|(l & Hc & Hl)].
    + rewrite lookup_insert_ne by done.
      destruct (records eo !! m); [done|].
      destruct (parent eo) as [p|]; [|done]. apply IH. by left.
    + exfalso. apply Hl. inversion Hc; subst; by left.
  - rewrite list_lookup_insert_ne by done.
    destruct (env_store s !! r) as [er|] eqn:Her; [|done].
    destruct (records er !! m); [done|].
    destruct (parent er) as [p|] eqn:Hp; [|done].
    apply IH. destruct Hr as [Hm|(l & Hc & Hl)]; [by left|right].
    inversion Hc; subst; simplify_eq.
    eexists. split; [done|]. intros Hin. apply Hl. by right.
Qed.

End Frames.

Section FrameTheorems.

(** X25. A [return] statement.  The value is evaluated and, when the
    block at the cursor is open, the block is closed by a [ret] of that
    value ([ret void] for the value [None]); the type of the value is not
    compared with the return type of the function.  When the block at the
    cursor already has a terminator (a second [return], a [return] after
    a [break]), the builder's assertion fails: [AssertionError]. *)
Theorem return_statement_spec (e : Node) (s s0 : Compiler) (v : Value)
    (T : PyType) (b : nat) (o : BlockObj) :
  resolve_value e s = Ok (Some (v, T)) s0 →
  _block (builder s0) = Some b → block_store s0 !! b = Some o →
  compile (ReturnStatement e) s
  = match terminator o with
    | None =>
        Ok tt (terminated Ret "ret" (match v with PyNone => [] | _ => [v] end)
                 b o s0)
    | Some _ => Raise AssertionError (set_next_uid (S (next_uid s0)) s0)
    end.
Proof.
  intros He Hb Ho. simpl. unfold visit_return_statement.
  rewrite (bind_Ok _ _ _ _ _ (resolved_Ok _ _ _ _ He)).
  destruct (terminator o) as [t0|] eqn:Ht.
  - apply bind_Raise. by eapply terminate_terminated.
  - by rewrite (bind_Ok _ _ _ _ _ (ret_Ok v s0 b o Hb Ho Ht)).
Qed.

Lemma return_statement_spec_witness :
  compile (ReturnStatement (IntegerLiteral 1)) main_returned
  = Raise AssertionError (set_next_uid (S (next_uid main_returned)) main_returned).
Proof.
  apply (return_statement_spec (IntegerLiteral 1) main_returned main_returned
           (Constant (IntType 32) (CInt 1)) (Some (IntType 32)) 0
           (block_at main_returned 0));
    vm_compute; reflexivity.
Defined.

(** X26. The statements of a program, and of a block, are compiled in
    order, each from the state the one before it left; a statement that
    raises ends the compilation there, with what was emitted before it
    left in the state, and the statements after it are not compiled. *)
Theorem statements_compiled_in_order (l1 l2 : list Node) (s : Compiler) :
  compile (Program (l1 ++ l2)) s
  = match compile (Program l1) s with
    | Ok _ s1 => compile (Program l2) s1
    | Raise e s1 => Raise e s1
    end ∧
  compile (BlockStatement (l1 ++ l2)) s
  = match compile (BlockStatement l1) s with
    | Ok _ s1 => compile (BlockStatement l2) s1
    | Raise e s1 => Raise e s1
    end.
Proof.
  split; simpl; unfold visit_program, visit_block_statement;
    rewrite map_app; apply sequence_app.
Qed.

(** X27. A call of a function other than [printf].  The arguments are
    evaluated from left to right, then the name is looked up in the
    active scope; when it names a function, the builder checks the
    arguments against the declared parameters, one for each parameter
    and of its type, arguments beyond the declared ones going unchecked,
    and a [call] instruction of the function's return type is emitted at
    the cursor.  The type given for the value of the call is the one the
    scope records for the name. *)
Theorem call_expression_spec (name : string) (args0 : list Node)
    (s s1 : Compiler) (vals : list Value) (types : list PyType) (func : Value)
    (rt : PyType) (r : IrType) (ts : list IrType) (va : bool) (b : nat)
    (o : BlockObj) :
  name ≠ "printf" →
  resolve_arguments (map resolve_value args0) s = Ok (vals, types) s1 →
  Env.lookup (env s1) name s1 = Ok (Some (func, rt)) s1 →
  type_of func = Some (PointerType (FunctionType r ts va)) →
  _block (builder s1) = Some b → block_store s1 !! b = Some o →
  resolve_value (CallExpression name args0) s
  = match Ir.check_args ts vals s1 with
    | Ok _ _ =>
        Ok (Some (Instruction (next_uid s1) CallInstr r "call" (func :: vals), rt))
           (emitted CallInstr r "call" (func :: vals) b o s1)
    | Raise e _ => Raise e s1
    end.
Proof.
  intros Hn Hargs Hl Hf Hb Ho.
  change (resolve_value (CallExpression name args0) s)
    with ((r ← visit_call_expression name (map resolve_value args0);
           mret (Some r)) s).
  apply String.eqb_neq in Hn.
  pose proof (check_args_pure ts vals s1 s1) as Hpure.
  destruct (Ir.check_args ts vals s1) as [[] s2|e s2] eqn:Hc; simpl in Hpure;
    simplify_eq.
  - apply wrapped_Ok. unfold visit_call_expression.
    rewrite (bind_Ok _ _ _ _ _ Hargs). rewrite Hn.
    assert ((r0 ← (e ← get env; Env.lookup e name); unpack r0) s1 = Ok (func, rt) s1)
      as H1 by (apply resolved_Ok; exact Hl).
    rewrite (bind_Ok _ _ _ _ _ H1).
    by rewrite (bind_Ok _ _ _ _ _ (call_Ok func r ts va vals s1 b o Hf Hc Hb Ho)).
  - apply bind_Raise. unfold visit_call_expression.
    rewrite (bind_Ok _ _ _ _ _ Hargs). rewrite Hn.
    assert ((r0 ← (e ← get env; Env.lookup e name); unpack r0) s1 = Ok (func, rt) s1)
      as H1 by (apply resolved_Ok; exact Hl).
    rewrite (bind_Ok _ _ _ _ _ H1).
    apply bind_Raise. unfold Ir.call, Ir.function_type_of. rewrite Hf.
    rewrite (bind_Ok _ _ s1 (FunctionType r ts va) s1) by done.
    apply bind_Raise. congruence.
Qed.

Lemma call_expression_spec_witness :
  let f := Function "main" (FunctionType (IntType 32) [] false) in
  resolve_value call_main inside_main
  = Ok (Some (Instruction (next_uid inside_main) CallInstr (IntType 32) "call" [f],
              Some (IntType 32)))
       (emitted CallInstr (IntType 32) "call" [f] 0 (block_at inside_main 0)
          inside_main).
Proof.
  intros f.
  apply (call_expression_spec "main" [] inside_main inside_main [] []
           f (Some (IntType 32)) (IntType 32) [] false 0 (block_at inside_main 0));
    [done | vm_compute; reflexivity..].
Defined.

(** X28. What a [define] leaves alone.  After [define] of the name [n]
    in the scope [e], a [lookup] of any other name from any scope, and a
    [lookup] of any name from a scope whose chain does not pass through
    [e], gives what it gave before: a binding made in a scope is seen
    from that scope and its descendants only, and shadows nothing but
    its own name. *)
Theorem define_frame (e r : nat) (n m : string) (v : Value) (t : PyType)
    (s s' : Compiler) :
  Env.define e n v t s = Ok v s' →
  m ≠ n ∨ (∃ l, chain (env_store s) r l ∧ e ∉ l) →
  Env.lookup r m s' = at_state (Env.lookup r m s) s'.
Proof.
  intros Hd Hr. unfold Env.define in Hd.
  destruct (env_store s !! e) as [eo|] eqn:He; [|done].
  injection Hd as <-. unfold Env.lookup.
  change (length (env_store (set_env_store _ s)))
    with (length (<[e := {| records := <[n := (v, t)]> (records eo);
                            parent := parent eo; name := name eo |}]> (env_store s))).
  rewrite length_insert.
  by apply (resolve_define_frame e n v t s eo m He).
Qed.

Lemma define_frame_witness :
  let v := Constant (IntType 32) (CInt 0) in
  let s' := final_state (Env.define 1 "printf" v (Some (IntType 32)) nested_scope) in
  Env.lookup 0 "printf" s' = at_state (Env.lookup 0 "printf" nested_scope) s'.
Proof.
  intros v s'.
  apply (define_frame 1 0 "printf" "printf" v (Some (IntType 32)) nested_scope s');
    [vm_compute; reflexivity|].
  right. exists [0]. split.
  - by apply (chain_root _ 0 (default {| records := ∅; parent := None; name := "" |}
                                 (env_store nested_scope !! 0))).
  - apply (bool_decide_unpack _). vm_compute. reflexivity.
Defined.

End FrameTheorems.
(** ** The [if] with an alternative, and its merge block *)

Section IfElseSpec.











End IfElseSpec.

Section IfElseExamples.


(** C2, at the failing input.  In
    [fn main() -> int { if 1 < 2 { return 1; } else { return 0; } }]
    both arms return.  Compilation raises [AttributeError], and in the
    state it raises in the merge block [if_endif_1] is the fourth block
    of [main], with no instruction and no terminator. *)
Lemma merge_block_left_dangling :
  ∃ s' f o,
    compile fn_if_else_returns new_Compiler = Raise AttributeError s' ∧
    Globals.find (module s') "main" = Some (GFunction f) ∧
    blocks f = [0; 1; 2; 3] ∧
    block_store s' !! 3 = Some o ∧
    block_name o = "if_endif_1" ∧
    instructions o = [] ∧
    terminator o = None.
Proof.
  do 3 eexists. split; [vm_compute; reflexivity|].
  split_and!; reflexivity.
Qed.

End IfElseExamples.
